(** * ScalesOps feature flags: dependency graph engine

    A shallow embedding of [backend/featureflag] (models, serializers and
    views) together with the properties of the dependency graph engine:
    activation evaluation, cycle detection on edge insertion, validation of
    toggles and the blocking-dependency report.

    The tables are an explicit state [DB] that the operations pass along;
    Python exceptions are the [Raise] outcomes of a small error monad; the
    three recursive methods take a recursion budget, shown sufficient on all
    tables that satisfy the integrity constraints.

    Main results, on the states reachable through the views:
    - [reachable_consistent]: the integrity constraints hold and the rows
      are acyclic;
    - [is_active_iff], [blocked_by_inactive]: what [is_active] computes;
    - [search_complete], [_find_path_and_detect_cycle_path]: the cycle search
      finds the dependent exactly when the source reaches it, and returns
      the path;
    - [_find_blocking_dependencies_sound],
      [_find_blocking_dependencies_complete]: what the blocking report
      lists;
    - [feature_flag_list_create_cases], [dependency_list_create_cases],
      [feature_flag_toggle_cases]: the outcomes of the three writing views.

    The last part, after the claims, holds further results on the same
    code: the closed form of [is_active], the outcomes of the views, the
    audit log, the reading views and how activation changes under each
    operation. *)

From stdpp Require Import relations gmap strings list.
From Stdlib Require Import ZArith Sorted.

#[local] Set Warnings "-clear-no-such-hyp".

Local Open Scope string_scope.
Local Open Scope Z_scope.
Local Open Scope list_scope.

(** ** Outcomes of Python computations

    A computation returns a value, raises an exception, or (in the model
    only) exhausts the recursion budget given to a recursive method. *)

Record ErrorItem := { message : string; code : option string }.

Inductive exn :=
| ValidationError (errors : list ErrorItem)        (* django.core.exceptions *)
| SerializerValidationError (detail : list string) (* rest_framework.serializers *)
| DoesNotExist
| IntegrityError
| ValueError
| AttributeError (attr : string)
| NameError (name : string).

Inductive outcome (A : Type) :=
| Ret (a : A)
| Raise (e : exn)
| OutOfFuel.
Arguments Ret {A} a.
Arguments Raise {A} e.
Arguments OutOfFuel {A}.

Definition bind {A B} (m : outcome A) (k : A → outcome B) : outcome B :=
  match m with
  | Ret a => k a
  | Raise e => Raise e
  | OutOfFuel => OutOfFuel
  end.

Notation "'let!' x ':=' m 'in' k" := (bind m (λ x, k))
  (at level 10, x pattern, m at level 100, k at level 200).

(** ** The tables (models/featureflag.py, models/dependency.py,
    models/auditlog.py) *)

Record FeatureFlag := {
  pk : option Z;          (* [None] until the row is inserted *)
  title : string;
  is_enabled : bool
}.

(** A stored dependency row holds the two foreign keys. *)
Record DependencyRow := {
  dependent_flag_id : Z;
  source_flag_id : Z
}.

(** A [Dependency] object being validated or saved holds the two flag
    objects it was built from. *)
Record Dependency := {
  dependent_flag : FeatureFlag;
  source_flag : FeatureFlag
}.

Inductive AuditLogType := CREATE | TOGGLE | AUTO_DISABLE | DEPENDENCY_ADD.

Record AuditLog := {
  flag : option Z;
  creator : option Z;
  log_type : AuditLogType;
  reason : string
}.

Record DB := {
  flags : list FeatureFlag;
  dependencies : list DependencyRow;   (* rows in insertion order *)
  logs : list AuditLog;
  next_pk : Z
}.

#[global] Instance FeatureFlag_eq_dec : EqDecision FeatureFlag.
Proof. solve_decision. Defined.
#[global] Instance DependencyRow_eq_dec : EqDecision DependencyRow.
Proof. solve_decision. Defined.
#[global] Instance AuditLogType_eq_dec : EqDecision AuditLogType.
Proof. solve_decision. Defined.

(** ** Queries *)

(** [FeatureFlag.objects.get(pk=k)] *)
Definition get_flag (db : DB) (k : Z) : outcome FeatureFlag :=
  match List.find (λ f, bool_decide (pk f = Some k)) (flags db) with
  | Some f => Ret f
  | None => Raise DoesNotExist
  end.

(** [FeatureFlag.objects.get(title=t)] *)
Definition get_flag_by_title (db : DB) (t : string) : outcome FeatureFlag :=
  match List.find (λ f, bool_decide (title f = t)) (flags db) with
  | Some f => Ret f
  | None => Raise DoesNotExist
  end.

(** [self.dependency_rules_as_dependent.all()]: the rows whose dependent is
    [self]; no ordering is declared, they come in insertion order. *)
Definition dependency_rules_as_dependent (db : DB) (self : FeatureFlag)
  : list DependencyRow :=
  List.filter (λ d, bool_decide (Some (dependent_flag_id d) = pk self))
    (dependencies db).

(** [rule.source_flag]: the row the foreign key points to. *)
Definition rule_source_flag (db : DB) (rule : DependencyRow)
  : outcome FeatureFlag :=
  get_flag db (source_flag_id rule).

(** ** Activation evaluator (models/featureflag.py) *)

(** A [for] loop over rules whose body either returns [False] from the
    enclosing method or falls through to the next rule; after the loop the
    method returns [True]. *)
Fixpoint for_rules (body : DependencyRow → outcome bool)
    (rules : list DependencyRow) : outcome bool :=
  match rules with
  | [] => Ret true
  | rule :: rules =>
      let! ok := body rule in
      if ok then for_rules body rules else Ret false
  end.

Fixpoint _check_dependencies_recursively (db : DB) (fuel : nat)
    (self : FeatureFlag) (visited_flags : gset string) : outcome bool :=
  match fuel with
  | O => OutOfFuel
  | S fuel =>
      if bool_decide (title self ∈ visited_flags) then Ret false
      else
        let visited_flags := visited_flags ∪ {[title self]} in
        for_rules
          (λ rule,
             let! src := rule_source_flag db rule in
             if negb (is_enabled src) then Ret false
             else _check_dependencies_recursively db fuel src visited_flags)
          (dependency_rules_as_dependent db self)
  end.

(** The recursion budget the model gives to a top-level call.  Every nested
    call adds a title (or key) that was not yet visited, so the depth never
    exceeds the number of flags; [_check_dependencies_recursively_total],
    [_find_path_and_detect_cycle_total] and [_find_blocking_dependencies_total]
    show that the budget is never exhausted.  The interpreter's own recursion
    limit is not modelled. *)
Definition recursion_budget (db : DB) : nat := S (length (flags db)).
Arguments recursion_budget : simpl never.

Definition can_be_active (db : DB) (self : FeatureFlag) : outcome bool :=
  _check_dependencies_recursively db (recursion_budget db) self ∅.

Definition is_active (db : DB) (self : FeatureFlag) : outcome bool :=
  if negb (is_enabled self) then Ret false else can_be_active db self.

(** ** Blocking dependencies (models/featureflag.py) *)

(** A [for] loop over rules that threads mutable state through its body. *)
Fixpoint each_rule {S : Type} (body : DependencyRow → S → outcome S)
    (rules : list DependencyRow) (st : S) : outcome S :=
  match rules with
  | [] => Ret st
  | rule :: rules =>
      let! st := body rule st in
      each_rule body rules st
  end.

(** The two mutable arguments: the [visited] set of primary keys and the
    [blocking_list] the method appends to. *)
Definition blocking_state : Type := gset (option Z) * list FeatureFlag.

Fixpoint _find_blocking_dependencies (db : DB) (fuel : nat)
    (self : FeatureFlag) (st : blocking_state) : outcome blocking_state :=
  match fuel with
  | O => OutOfFuel
  | S fuel =>
      let '(visited, blocking_list) := st in
      if bool_decide (pk self ∈ visited) then Ret st
      else
        each_rule
          (λ rule (st : blocking_state),
             let '(visited, blocking_list) := st in
             let! src := rule_source_flag db rule in
             if negb (is_enabled src) then
               Ret (visited, blocking_list ++ [src])
             else
               let! ok := can_be_active db src in
               if negb ok then
                 _find_blocking_dependencies db fuel src (visited, blocking_list)
               else Ret (visited, blocking_list))
          (dependency_rules_as_dependent db self)
          (visited ∪ {[pk self]}, blocking_list)
  end.

(** ** Cycle detector (models/dependency.py) *)

(** The mutable arguments of the search: the [visited] set and the
    [path_list].  [expanded] is a ghost log, absent from the source: it
    records, in order, each node whose outgoing rules the search iterates. *)
Record search := {
  visited : gset (option Z);
  path_list : list FeatureFlag;
  expanded : list (option Z)
}.

Definition path_append (x : FeatureFlag) (st : search) : search :=
  {| visited := visited st; path_list := path_list st ++ [x];
     expanded := expanded st |}.

Definition path_pop (st : search) : search :=
  {| visited := visited st; path_list := removelast (path_list st);
     expanded := expanded st |}.

Definition visited_add (k : option Z) (st : search) : search :=
  {| visited := visited st ∪ {[k]}; path_list := path_list st;
     expanded := expanded st ++ [k] |}.

(** A [for] loop whose body returns [True] from the enclosing method as soon
    as a recursive search succeeds. *)
Fixpoint first_rule (body : DependencyRow → search → outcome (bool * search))
    (rules : list DependencyRow) (st : search) : outcome (bool * search) :=
  match rules with
  | [] => Ret (false, st)
  | rule :: rules =>
      let! (found, st) := body rule st in
      if found then Ret (true, st) else first_rule body rules st
  end.

Fixpoint _find_path_and_detect_cycle (db : DB) (fuel : nat)
    (current_node target_node : FeatureFlag) (st : search)
  : outcome (bool * search) :=
  match fuel with
  | O => OutOfFuel
  | S fuel =>
      if bool_decide (pk current_node = pk target_node) then
        Ret (true, path_append current_node st)
      else if bool_decide (pk current_node ∈ visited st) then
        Ret (false, st)
      else
        let st := path_append current_node (visited_add (pk current_node) st) in
        let! (found, st) :=
          first_rule
            (λ dependency_rule st,
               let! next_node := rule_source_flag db dependency_rule in
               _find_path_and_detect_cycle db fuel next_node target_node st)
            (dependency_rules_as_dependent db current_node) st in
        if found then Ret (true, st) else Ret (false, path_pop st)
  end.

Definition empty_search : search :=
  {| visited := ∅; path_list := []; expanded := [] |}.

Definition self_dependency_message : string :=
  "A feature flag cannot depend on itself. Please select two different flags.".

Definition cycle_message (dependent_flag_title source_flag_title
    full_cycle_path : string) : string :=
  "This dependency creates a circular relationship. "
  +:+ "Adding '" +:+ dependent_flag_title +:+ "' depending on '"
  +:+ source_flag_title +:+ "' "
  +:+ "would form a direct or indirect cycle: " +:+ full_cycle_path +:+ ". "
  +:+ "Please remove the existing dependency that causes this cycle, or re-evaluate your flag structure.".

Definition dependency_conflict (msg : string) : exn :=
  ValidationError [{| message := msg; code := Some "dependency_conflict" |}].

(** [" -> ".join(cycle_str_parts)] *)
Definition full_cycle_path (dependent : FeatureFlag) (path : list FeatureFlag)
  : string :=
  String.concat " -> " (title dependent :: List.map title path).

(** [Dependency.clean], with the recursion budget of its search made
    explicit. *)
Definition Dependency_clean_with (fuel : nat) (db : DB) (self : Dependency)
  : outcome unit :=
  (* [self.dependent_flag == self.source_flag]: saved model instances are
     equal when their primary keys are *)
  if bool_decide (pk (dependent_flag self) = pk (source_flag self)) then
    Raise (dependency_conflict self_dependency_message)
  else
    let! (found, st) :=
      _find_path_and_detect_cycle db fuel
        (source_flag self) (dependent_flag self) empty_search in
    if found then
      match path_list st with
      | [] => Ret ()
      | _ :: _ =>
          Raise (dependency_conflict
                   (cycle_message (title (dependent_flag self))
                      (title (source_flag self))
                      (full_cycle_path (dependent_flag self) (path_list st))))
      end
    else Ret ().

Definition Dependency_clean (db : DB) (self : Dependency) : outcome unit :=
  Dependency_clean_with (recursion_budget db) db self.

(** [Dependency.evaluate] *)
Definition Dependency_evaluate (db : DB) (self : Dependency) : outcome bool :=
  is_active db (source_flag self).

(** ** Validation and saving *)

(** [full_clean] collects the validation errors of its steps and raises
    them together; any other exception passes through. *)
Definition validation_errors (m : outcome unit) : outcome (list ErrorItem) :=
  match m with
  | Ret _ => Ret []
  | Raise (ValidationError errors) => Ret errors
  | Raise e => Raise e
  | OutOfFuel => OutOfFuel
  end.

Definition raise_if_errors (errors : list ErrorItem) : outcome unit :=
  match errors with
  | [] => Ret ()
  | _ :: _ => Raise (ValidationError errors)
  end.

(** [Meta.unique_together = ("dependent_flag", "source_flag")], checked by
    [validate_unique]; the message text is Django's. *)
Definition Dependency_validate_unique (db : DB) (self : Dependency)
  : outcome unit :=
  if existsb (λ row, bool_decide
        (Some (dependent_flag_id row) = pk (dependent_flag self)
         ∧ Some (source_flag_id row) = pk (source_flag self)))
       (dependencies db) then
    Raise (ValidationError
      [{| message := "Dependency with this Dependent flag and Source flag already exists.";
          code := Some "unique_together" |}])
  else Ret ().

Definition Dependency_full_clean (db : DB) (self : Dependency) : outcome unit :=
  let! e1 := validation_errors (Dependency_clean db self) in
  let! e2 := validation_errors (Dependency_validate_unique db self) in
  raise_if_errors (e1 ++ e2).

Definition insert_dependency (row : DependencyRow) (db : DB) : DB :=
  {| flags := flags db; dependencies := dependencies db ++ [row];
     logs := logs db; next_pk := next_pk db |}.

(** [Dependency.save]: [full_clean] and then the insert. *)
Definition Dependency_save (db : DB) (self : Dependency)
  : DB * outcome Dependency :=
  match Dependency_full_clean db self with
  | Ret _ =>
      match pk (dependent_flag self), pk (source_flag self) with
      | Some d, Some s =>
          (insert_dependency {| dependent_flag_id := d; source_flag_id := s |} db,
           Ret self)
      | _, _ => (db, Raise ValueError)
      end
  | Raise e => (db, Raise e)
  | OutOfFuel => (db, OutOfFuel)
  end.

(** The message of [FeatureFlag.clean]. *)
Definition unmet_dependencies_message (flag_title : string)
    (blocking_titles : list string) : string :=
  let dependency_chain_message :=
    match blocking_titles with
    | _ :: _ =>
        "because its dependent flag(s) " +:+ String.concat ", " blocking_titles
        +:+ " are currently not active or have unmet dependencies."
    | [] =>
        "because one or more of its dependencies (direct or indirect) is not active."
    end in
  "Cannot activate feature flag '" +:+ flag_title
  +:+ "' due to unmet dependencies. " +:+ dependency_chain_message
  +:+ " Please ensure all required flags in its dependency chain are active.".

(** [f"'{flag.title}'"] *)
Definition quoted (t : string) : string := "'" +:+ t +:+ "'".

Definition FeatureFlag_clean (db : DB) (self : FeatureFlag) : outcome unit :=
  match pk self with
  | None => Ret ()
  | Some _ =>
      if is_enabled self then
        let! ok := can_be_active db self in
        if negb ok then
          let! (_, blocking_dependencies) :=
            _find_blocking_dependencies db (recursion_budget db) self (∅, []) in
          let blocking_titles :=
            List.map (λ f, quoted (title f)) blocking_dependencies in
          Raise (ValidationError
            [{| message := unmet_dependencies_message (title self) blocking_titles;
                code := None |}])
        else Ret ()
      else Ret ()
  end.

(** [title] is [unique=True]: [validate_unique] looks for another row with
    the same title; the message text is Django's. *)
Definition FeatureFlag_validate_unique (db : DB) (self : FeatureFlag)
  : outcome unit :=
  if existsb (λ f, bool_decide (title f = title self ∧ pk f ≠ pk self))
       (flags db) then
    Raise (ValidationError
      [{| message := "Feature flag with this Title already exists.";
          code := Some "unique" |}])
  else Ret ().

(** [len(value)] of a Python [str]: the number of its characters (code
    points).  A text is held here as its UTF-8 bytes, and of the bytes of one
    character exactly one, the first, is not a continuation byte
    [10xxxxxx]. *)
Definition is_continuation_byte (c : Ascii.ascii) : bool :=
  match c with
  | Ascii.Ascii _ _ _ _ _ _ b6 b7 => b7 && negb b6
  end.

Fixpoint characters (value : string) : nat :=
  match value with
  | EmptyString => O
  | String c value =>
      if is_continuation_byte c then characters value
      else S (characters value)
  end.

(** [title = models.CharField(max_length=200, unique=True)]: [clean_fields]
    refuses a blank title and one of more than 200 characters; the message
    texts are Django's. *)
Definition FeatureFlag_clean_fields (self : FeatureFlag) : outcome unit :=
  if bool_decide (title self = EmptyString) then
    Raise (ValidationError
      [{| message := "This field cannot be blank."; code := Some "blank" |}])
  else if bool_decide (characters (title self) ≤ 200)%nat then Ret ()
  else
    Raise (ValidationError
      [{| message := "Ensure this value has at most 200 characters.";
          code := Some "max_length" |}]).

(** A field that failed [clean_fields] is left out of [validate_unique]. *)
Definition FeatureFlag_full_clean (db : DB) (self : FeatureFlag) : outcome unit :=
  let! e0 := validation_errors (FeatureFlag_clean_fields self) in
  let! e1 := validation_errors (FeatureFlag_clean db self) in
  let! e2 := match e0 with
             | [] => validation_errors (FeatureFlag_validate_unique db self)
             | _ :: _ => Ret []
             end in
  raise_if_errors (e0 ++ e1 ++ e2).

(** The UPDATE of the row whose key is that of [self]. *)
Definition update_flag (self : FeatureFlag) (db : DB) : DB :=
  {| flags := List.map (λ f, if bool_decide (pk f = pk self) then self else f)
                (flags db);
     dependencies := dependencies db; logs := logs db; next_pk := next_pk db |}.

(** The INSERT of a new row, which consumes the next key. *)
Definition insert_flag (self : FeatureFlag) (db : DB) : DB :=
  {| flags := flags db ++ [self];
     dependencies := dependencies db; logs := logs db;
     next_pk := next_pk db + 1 |}.

(** [FeatureFlag.save]: an object that already has a primary key is
    validated and its row updated; a new object is inserted unvalidated and
    receives the next key (the unique index on [title] still applies). *)
Definition FeatureFlag_save (db : DB) (self : FeatureFlag)
  : DB * outcome FeatureFlag :=
  match pk self with
  | Some _ =>
      match FeatureFlag_full_clean db self with
      | Ret _ => (update_flag self db, Ret self)
      | Raise e => (db, Raise e)
      | OutOfFuel => (db, OutOfFuel)
      end
  | None =>
      if existsb (λ f, bool_decide (title f = title self)) (flags db) then
        (db, Raise IntegrityError)
      else
        let self := {| pk := Some (next_pk db); title := title self;
                       is_enabled := is_enabled self |} in
        (insert_flag self db, Ret self)
  end.

(** [AuditLog.objects.create(...)] *)
Definition AuditLog_create (db : DB) (entry : AuditLog) : DB :=
  {| flags := flags db; dependencies := dependencies db;
     logs := logs db ++ [entry]; next_pk := next_pk db |}.

(** Attribute lookup on the class [AuditLog.AuditLogType]
    (models/auditlog.py). *)
Definition AuditLogType_getattr (name : string) : outcome AuditLogType :=
  if bool_decide (name = "CREATE") then Ret CREATE
  else if bool_decide (name = "TOGGLE") then Ret TOGGLE
  else if bool_decide (name = "AUTO_DISABLE") then Ret AUTO_DISABLE
  else if bool_decide (name = "DEPENDENCY_ADD") then Ret DEPENDENCY_ADD
  else Raise (AttributeError name).

(** ** Serializers (serializers.py) *)

(** The request as far as the engine reads it: its user.  Every view is
    guarded by [IsAuthenticated], so the user of a request that reaches a
    view is an authenticated one. *)
Record Request := { user : Z }.

(** [self.context.get("request").user if self.context.get("request") and
    self.context["request"].user.is_authenticated else None] *)
Definition context_creator (context : option Request) : option Z :=
  match context with
  | Some request => Some (user request)
  | None => None
  end.

(** [e.message_dict] *)
Definition message_dict (errors : list ErrorItem) : list string :=
  List.map message errors.

(** [FeatureFlagToggleSerializer.update]: flip, save, log. *)
Definition FeatureFlagToggleSerializer_update (db : DB)
    (context : option Request) (instance : FeatureFlag)
    (validated_data : string) : DB * outcome FeatureFlag :=
  let instance := {| pk := pk instance; title := title instance;
                     is_enabled := negb (is_enabled instance) |} in
  match FeatureFlag_save db instance with
  | (db, Raise (ValidationError errors)) =>
      (db, Raise (SerializerValidationError (message_dict errors)))
  | (db, Ret instance) =>
      (* the keyword arguments of [AuditLog.objects.create] are evaluated
         in order: [flag], [creator], [log_type], [reason] *)
      let creator := context_creator context in
      match AuditLogType_getattr "FLAG_TOGGLE" with
      | Ret log_type => (db, Raise (NameError "reason"))
      | Raise e => (db, Raise e)
      | OutOfFuel => (db, OutOfFuel)
      end
  | (db, r) => (db, r)
  end.

(** [DependencyCreateSerializer.validate_source_flag_title] *)
Definition validate_source_flag_title (db : DB) (value : string)
  : outcome string :=
  match get_flag_by_title db value with
  | Ret _ => Ret value
  | Raise DoesNotExist =>
      Raise (SerializerValidationError
               ["Feature Flag with title '" +:+ value +:+ "' does not exist."])
  | Raise e => Raise e
  | OutOfFuel => OutOfFuel
  end.

(** One iteration of the loop over [initial_dependencies_data]. *)
Definition create_initial_dependency (context : option Request)
    (feature_flag : FeatureFlag) (db : DB) (source_flag_title : string)
  : DB * outcome unit :=
  match get_flag_by_title db source_flag_title with
  | Ret source_flag =>
      match Dependency_save db {| dependent_flag := feature_flag;
                                  source_flag := source_flag |} with
      | (db, Ret _) =>
          (AuditLog_create db
             {| flag := pk source_flag; creator := context_creator context;
                log_type := CREATE; reason := EmptyString |},
           Ret ())
      | (db, Raise (ValidationError errors)) =>
          (db, Raise (SerializerValidationError (message_dict errors)))
      | (db, Raise IntegrityError) =>
          (db, Raise (SerializerValidationError
             ["Duplicate dependency detected: '" +:+ title feature_flag
              +:+ "' already depends on '" +:+ source_flag_title +:+ "'."]))
      | (db, Raise e) => (db, Raise e)
      | (db, OutOfFuel) => (db, OutOfFuel)
      end
  | Raise DoesNotExist =>
      (db, Raise (SerializerValidationError
         ["Source flag '" +:+ source_flag_title
          +:+ "' not found for dependency."]))
  | Raise e => (db, Raise e)
  | OutOfFuel => (db, OutOfFuel)
  end.

Fixpoint create_initial_dependencies (context : option Request)
    (feature_flag : FeatureFlag) (db : DB)
    (initial_dependencies_data : list string) : DB * outcome unit :=
  match initial_dependencies_data with
  | [] => (db, Ret ())
  | dep_data :: rest =>
      match create_initial_dependency context feature_flag db dep_data with
      | (db, Ret _) => create_initial_dependencies context feature_flag db rest
      | (db, r) => (db, r)
      end
  end.

(** [with transaction.atomic()]: an exception leaving the block rolls the
    tables back to their state on entry. *)
Definition atomic {A} (db : DB) (block : DB * outcome A) : DB * outcome A :=
  match block with
  | (db', Ret a) => (db', Ret a)
  | (_, r) => (db, r)
  end.

(** [FeatureFlagRetrieveSerializer.create]: the flag and its initial
    dependencies in one transaction. *)
Definition FeatureFlagRetrieveSerializer_create (db : DB)
    (context : option Request) (validated_title : string)
    (validated_is_enabled : bool) (initial_dependencies_data : list string)
  : DB * outcome FeatureFlag :=
  atomic db
    match FeatureFlag_save db {| pk := None; title := validated_title;
                                 is_enabled := validated_is_enabled |} with
    | (db, Ret feature_flag) =>
        match create_initial_dependencies context feature_flag db
                initial_dependencies_data with
        | (db, Ret _) => (db, Ret feature_flag)
        | (db, Raise e) => (db, Raise e)
        | (db, OutOfFuel) => (db, OutOfFuel)
        end
    | (db, r) => (db, r)
    end.

(** [DependencySerializer.create] *)
Definition DependencySerializer_create (db : DB) (context : option Request)
    (validated_data : Dependency) : DB * outcome Dependency :=
  match Dependency_save db validated_data with
  | (db, Raise (ValidationError errors)) =>
      (db, Raise (SerializerValidationError (message_dict errors)))
  | (db, Raise IntegrityError) =>
      (db, Raise (SerializerValidationError
         ["This dependency already exists: '"
          +:+ title (dependent_flag validated_data)
          +:+ "' already depends on '"
          +:+ title (source_flag validated_data) +:+ "'."]))
  | (db, r) => (db, r)
  end.

(** ** Views (api.py)

    A view returns a response or lets an exception escape; the framework
    renders [SerializerValidationError] as a 400 response, every other
    exception is an unhandled server error. *)

Inductive Response (A : Type) :=
| HTTP_200_OK (data : A)
| HTTP_201_CREATED (data : A)
| HTTP_404_NOT_FOUND.
Arguments HTTP_200_OK {A} data.
Arguments HTTP_201_CREATED {A} data.
Arguments HTTP_404_NOT_FOUND {A}.

(** [reason = serializers.CharField()] of the toggle serializer: the field
    is required and may not be blank ([reason_data] is the submitted value
    after the field's whitespace trimming, [None] when it is missing). *)
Definition validate_reason (reason_data : option string) : outcome string :=
  match reason_data with
  | None => Raise (SerializerValidationError ["This field is required."])
  | Some r =>
      if bool_decide (r = EmptyString) then
        Raise (SerializerValidationError ["This field may not be blank."])
      else Ret r
  end.

(** POST [api/featureflags/<pk>/toggle/].  The views open no transaction:
    every save is committed on its own. *)
Definition feature_flag_toggle (db : DB) (request : Request) (k : Z)
    (reason_data : option string) : DB * outcome (Response FeatureFlag) :=
  match get_flag db k with
  | Ret feature_flag =>
      match validate_reason reason_data with
      | Ret validated_reason =>
          (* the serializer is built without a context *)
          match FeatureFlagToggleSerializer_update db None feature_flag
                  validated_reason with
          | (db, Ret feature_flag) =>
              (AuditLog_create db
                 {| flag := pk feature_flag; creator := Some (user request);
                    log_type := TOGGLE; reason := validated_reason |},
               Ret (HTTP_200_OK feature_flag))
          | (db, Raise e) => (db, Raise e)
          | (db, OutOfFuel) => (db, OutOfFuel)
          end
      | Raise e => (db, Raise e)
      | OutOfFuel => (db, OutOfFuel)
      end
  | Raise DoesNotExist => (db, Ret HTTP_404_NOT_FOUND)
  | Raise e => (db, Raise e)
  | OutOfFuel => (db, OutOfFuel)
  end.

(** Field validation of the nested [initial_dependencies]. *)
Fixpoint validate_initial_dependencies (db : DB) (data : list string)
  : outcome unit :=
  match data with
  | [] => Ret ()
  | value :: rest =>
      let! _ := validate_source_flag_title db value in
      validate_initial_dependencies db rest
  end.

(** The [title] field of the model serializer: not blank, at most 200
    characters, and not the title of a stored flag ([title_data] is the
    submitted value after the field's whitespace trimming). *)
Definition validate_title (db : DB) (title_data : string) : outcome string :=
  if bool_decide (title_data = EmptyString) then
    Raise (SerializerValidationError ["This field may not be blank."])
  else if negb (bool_decide (characters title_data ≤ 200)%nat) then
    Raise (SerializerValidationError
             ["Ensure this field has no more than 200 characters."])
  else if existsb (λ f, bool_decide (title f = title_data)) (flags db) then
    Raise (SerializerValidationError
             ["feature flag with this title already exists."])
  else Ret title_data.

(** POST [api/featureflags/].  [is_valid] checks the title and each source
    title, then [save] runs [create]. *)
Definition feature_flag_list_create (db : DB) (request : Request)
    (title_data : string) (is_enabled_data : bool)
    (initial_dependencies_data : list string)
  : DB * outcome (Response FeatureFlag) :=
  match validate_title db title_data with
  | Ret validated_title =>
      match validate_initial_dependencies db initial_dependencies_data with
      | Ret _ =>
          match FeatureFlagRetrieveSerializer_create db (Some request)
                  validated_title is_enabled_data
                  initial_dependencies_data with
          | (db, Ret feature_flag) => (db, Ret (HTTP_201_CREATED feature_flag))
          | (db, Raise e) => (db, Raise e)
          | (db, OutOfFuel) => (db, OutOfFuel)
          end
      | Raise e => (db, Raise e)
      | OutOfFuel => (db, OutOfFuel)
      end
  | Raise e => (db, Raise e)
  | OutOfFuel => (db, OutOfFuel)
  end.

(** [PrimaryKeyRelatedField(queryset=FeatureFlag.objects.all())] *)
Definition primary_key_related_field (db : DB) (k : Z) : outcome FeatureFlag :=
  match get_flag db k with
  | Ret f => Ret f
  | Raise DoesNotExist =>
      Raise (SerializerValidationError ["Invalid pk - object does not exist."])
  | Raise e => Raise e
  | OutOfFuel => OutOfFuel
  end.

(** POST [api/dependencies/].  The two keys must be those of stored flags;
    everything else is decided by [Dependency.save].  (The serializer's own
    unique-together validator refuses a repeated pair before [save] is
    reached; the outcome is the same as with [validate_unique] here: a
    validation error and unchanged tables.) *)
Definition dependency_list_create (db : DB) (request : Request)
    (dependent_flag_data source_flag_data : Z)
  : DB * outcome (Response Dependency) :=
  match primary_key_related_field db dependent_flag_data with
  | Ret dependent =>
      match primary_key_related_field db source_flag_data with
      | Ret source =>
          match DependencySerializer_create db (Some request)
                  {| dependent_flag := dependent; source_flag := source |} with
          | (db, Ret dependency) => (db, Ret (HTTP_201_CREATED dependency))
          | (db, Raise e) => (db, Raise e)
          | (db, OutOfFuel) => (db, OutOfFuel)
          end
      | Raise e => (db, Raise e)
      | OutOfFuel => (db, OutOfFuel)
      end
  | Raise e => (db, Raise e)
  | OutOfFuel => (db, OutOfFuel)
  end.

(** GET [api/dependencies/] lists the rows; the rendering order (by titles)
    does not change which rows there are. *)
Definition ListDependencies (db : DB) : list DependencyRow := dependencies db.

(** ** Reading the tables (serializers.py, api.py) *)

(** An item of [DependencyListSerializer]: the title of the rule's source
    flag, under the key [source_flag]. *)
Record DependencyListItem := { item_source_flag : string }.

(** The data of [FeatureFlagRetrieveSerializer]: the fields [id], [title],
    [is_enabled] and [is_active] ([initial_dependencies] is write-only), and
    the key [existence_dependencies] that [to_representation] adds. *)
Record FeatureFlagData := {
  data_id : option Z;
  data_title : string;
  data_is_enabled : bool;
  data_is_active : bool;
  existence_dependencies : list DependencyListItem
}.

(** [DependencyListSerializer(rules, many=True).data] *)
Fixpoint DependencyListSerializer_data (db : DB) (rules : list DependencyRow)
  : outcome (list DependencyListItem) :=
  match rules with
  | [] => Ret []
  | rule :: rules =>
      let! src := rule_source_flag db rule in
      let! items := DependencyListSerializer_data db rules in
      Ret ({| item_source_flag := title src |} :: items)
  end.

(** [FeatureFlagRetrieveSerializer.to_representation]; the field [is_active]
    is read by calling the method. *)
Definition FeatureFlagRetrieveSerializer_to_representation (db : DB)
    (instance : FeatureFlag) : outcome FeatureFlagData :=
  let! active := is_active db instance in
  let! items :=
    DependencyListSerializer_data db (dependency_rules_as_dependent db instance) in
  Ret {| data_id := pk instance; data_title := title instance;
         data_is_enabled := is_enabled instance; data_is_active := active;
         existence_dependencies := items |}.

(** An item of [FeatureFlagListSerializer]: the fields [id], [title],
    [is_enabled] and [is_active]. *)
Record FeatureFlagListItem := {
  item_id : option Z;
  item_title : string;
  item_is_enabled : bool;
  item_is_active : bool
}.

(** [FeatureFlagListSerializer(queryset, many=True).data] *)
Fixpoint FeatureFlagListSerializer_data (db : DB) (queryset : list FeatureFlag)
  : outcome (list FeatureFlagListItem) :=
  match queryset with
  | [] => Ret []
  | instance :: queryset =>
      let! active := is_active db instance in
      let! items := FeatureFlagListSerializer_data db queryset in
      Ret ({| item_id := pk instance; item_title := title instance;
              item_is_enabled := is_enabled instance;
              item_is_active := active |} :: items)
  end.

(** [order_by("title")].  The comparison of two titles is the database's:
    [collation a b] says that [a] sorts before or with [b].  It is a
    parameter of the model. *)
Fixpoint insert_by_title (collation : string → string → bool)
    (f : FeatureFlag) (sorted : list FeatureFlag) : list FeatureFlag :=
  match sorted with
  | [] => [f]
  | g :: rest =>
      if collation (title f) (title g) then f :: sorted
      else g :: insert_by_title collation f rest
  end.

Definition order_by_title (collation : string → string → bool)
    (queryset : list FeatureFlag) : list FeatureFlag :=
  foldr (insert_by_title collation) [] queryset.

(** GET [api/featureflags/] *)
Definition feature_flag_list (collation : string → string → bool) (db : DB)
    (request : Request) : outcome (Response (list FeatureFlagListItem)) :=
  let queryset := order_by_title collation (flags db) in
  let! data := FeatureFlagListSerializer_data db queryset in
  Ret (HTTP_200_OK data).

(** GET [api/featureflags/<pk>/] *)
Definition feature_flag_retrieve (db : DB) (request : Request) (k : Z)
  : outcome (Response FeatureFlagData) :=
  match get_flag db k with
  | Ret feature_flag =>
      let! data :=
        FeatureFlagRetrieveSerializer_to_representation db feature_flag in
      Ret (HTTP_200_OK data)
  | Raise DoesNotExist => Ret HTTP_404_NOT_FOUND
  | Raise e => Raise e
  | OutOfFuel => OutOfFuel
  end.

(** ** Engine operations and reachable states *)

(** The write operations of the engine; the reads ([GetFlag], [ListFlags],
    [ListDependencies]) leave the tables as they are. *)
Inductive operation :=
| CreateFlagWithDependencies (title_data : string) (is_enabled_data : bool)
    (initial_dependencies_data : list string)
| ToggleFlag (k : Z) (reason_data : option string)
| AddDependency (dependent_flag_data source_flag_data : Z).

(** [CreateFlag] is creation with no initial dependencies. *)
Definition CreateFlag (title_data : string) (is_enabled_data : bool) : operation :=
  CreateFlagWithDependencies title_data is_enabled_data [].

(** The tables after an operation, whatever its outcome was. *)
Definition run (db : DB) (request : Request) (op : operation) : DB :=
  match op with
  | CreateFlagWithDependencies t e deps =>
      fst (feature_flag_list_create db request t e deps)
  | ToggleFlag k r => fst (feature_flag_toggle db request k r)
  | AddDependency d s => fst (dependency_list_create db request d s)
  end.

Definition empty_db : DB :=
  {| flags := []; dependencies := []; logs := []; next_pk := 1 |}.

Inductive reachable : DB → Prop :=
| reachable_empty : reachable empty_db
| reachable_run db request op :
    reachable db → reachable (run db request op).

(** * Specification vocabulary *)

(** ** The dependency graph and the integrity constraints of the tables *)

(** [depends_on db a b]: there is a row "a depends on b". *)
Definition depends_on (db : DB) (a b : Z) : Prop :=
  {| dependent_flag_id := a; source_flag_id := b |} ∈ dependencies db.

Definition acyclic (db : DB) : Prop := ∀ a, ¬ tc (depends_on db) a a.

(** What the [title] field accepts: a text that is not blank and has at most
    200 characters. *)
Definition valid_title (t : string) : Prop :=
  t ≠ EmptyString ∧ (characters t ≤ 200)%nat.

(** Primary keys, the unique index on titles and their field constraints,
    the foreign keys of the dependency table and its [unique_together]
    index. *)
Record integrity (db : DB) : Prop := {
  pk_bound : ∀ f, f ∈ flags db → ∃ k, pk f = Some k ∧ k < next_pk db;
  pk_unique : NoDup (pk <$> flags db);
  title_unique : NoDup (title <$> flags db);
  title_valid : ∀ f, f ∈ flags db → valid_title (title f);
  fk_dependent : ∀ r, r ∈ dependencies db →
                 ∃ f, f ∈ flags db ∧ pk f = Some (dependent_flag_id r);
  fk_source : ∀ r, r ∈ dependencies db →
              ∃ f, f ∈ flags db ∧ pk f = Some (source_flag_id r);
  rows_unique : NoDup (dependencies db)
}.

(** The state invariant of the engine. *)
Definition consistent (db : DB) : Prop := integrity db ∧ acyclic db.

(** [s] is a direct dependency of [f]: both are stored and a row links
    them. *)
Definition direct_dependency (db : DB) (f s : FeatureFlag) : Prop :=
  s ∈ flags db ∧
  ∃ kf ks, pk f = Some kf ∧ pk s = Some ks ∧ depends_on db kf ks.

(** Consecutive flags of a path are linked by dependency rows. *)
Fixpoint linked (db : DB) (p : list FeatureFlag) : Prop :=
  match p with
  | a :: (b :: _) as rest =>
      (∃ ka kb, pk a = Some ka ∧ pk b = Some kb ∧ depends_on db ka kb)
      ∧ linked db rest
  | _ => True
  end.

(** [blocks db k x]: the stored flag [x] is disabled and is reached from
    the flag with key [k] along dependency rows whose intermediate flags are
    all enabled. *)
Inductive blocks (db : DB) : Z → FeatureFlag → Prop :=
| blocks_direct k x kx :
    depends_on db k kx → x ∈ flags db → pk x = Some kx →
    is_enabled x = false → blocks db k x
| blocks_via k m km x :
    depends_on db k km → m ∈ flags db → pk m = Some km →
    is_enabled m = true → blocks db km x → blocks db k x.

(** The kind of an exception as the framework records it: its class and,
    for a validation error, the [code] of each error it carries. *)
Definition error_kind (e : exn) : string * list (option string) :=
  match e with
  | ValidationError errors => ("ValidationError", List.map code errors)
  | SerializerValidationError _ => ("serializers.ValidationError", [])
  | DoesNotExist => ("DoesNotExist", [])
  | IntegrityError => ("IntegrityError", [])
  | ValueError => ("ValueError", [])
  | AttributeError _ => ("AttributeError", [])
  | NameError _ => ("NameError", [])
  end.

(** The [auto_disable] events in the log. *)
Definition auto_disable_events (db : DB) : list AuditLog :=
  List.filter (λ entry, bool_decide (log_type entry = AUTO_DISABLE)) (logs db).

(** The instance the toggle serializer saves: [f] with its bit flipped. *)
Definition flipped (f : FeatureFlag) : FeatureFlag :=
  {| pk := pk f; title := title f; is_enabled := negb (is_enabled f) |}.

(** The error item raised by [FeatureFlag.clean]. *)
Definition unmet_dependencies (self : FeatureFlag)
    (blocking_dependencies : list FeatureFlag) : ErrorItem :=
  {| message := unmet_dependencies_message (title self)
                  (List.map (λ f, quoted (title f)) blocking_dependencies);
     code := None |}.

(** Every stored flag that the flag with key [k] reaches over one or more
    dependency rows is enabled. *)
Definition dependencies_enabled (db : DB) (k : Z) : Prop :=
  ∀ x kx, x ∈ flags db → pk x = Some kx → tc (depends_on db) k kx →
          is_enabled x = true.

(** The flag with key [k] reaches a cycle of dependency rows, or lies on
    one. *)
Definition reaches_cycle (db : DB) (k : Z) : Prop :=
  ∃ c, rtc (depends_on db) k c ∧ tc (depends_on db) c c.

(** The condition under which a row "the flag with key [d] depends on the
    flag with key [s]" is accepted: both keys are stored, [s] does not reach
    [d] over the rows (in no step, [s = d], or more), and the row is not
    there yet. *)
Definition acceptable_dependency (db : DB) (d s : Z) : Prop :=
  (∃ f, f ∈ flags db ∧ pk f = Some d)
  ∧ (∃ f, f ∈ flags db ∧ pk f = Some s)
  ∧ ¬ rtc (depends_on db) s d
  ∧ ¬ depends_on db d s.

(** The log entry written for an initial dependency on the source [s]. *)
Definition initial_dependency_entry (context : option Request)
    (s : FeatureFlag) : AuditLog :=
  {| flag := pk s; creator := context_creator context;
     log_type := CREATE; reason := EmptyString |}.

(** ** Auxiliary definitions for the proofs *)

Definition all_titles (db : DB) : gset string := list_to_set (title <$> flags db).
Definition all_pks (db : DB) : gset (option Z) := list_to_set (pk <$> flags db).

(** The evaluator with the visited test removed; on acyclic tables the test
    never fires and the two agree. *)
Fixpoint check_plain (db : DB) (fuel : nat) (self : FeatureFlag) : outcome bool :=
  match fuel with
  | O => OutOfFuel
  | S fuel =>
      for_rules
        (λ rule,
           let! src := rule_source_flag db rule in
           if negb (is_enabled src) then Ret false
           else check_plain db fuel src)
        (dependency_rules_as_dependent db self)
  end.

(** The object [self] stands for a stored row: same key and title (its
    enabled bit may have been changed in memory). *)
Definition same_row (db : DB) (self : FeatureFlag) : Prop :=
  ∃ f, f ∈ flags db ∧ pk f = pk self ∧ title f = title self.

(** Every title in [V] belongs to a flag from which [k] is reachable in at
    least one step. *)
Definition ancestors_only (db : DB) (V : gset string) (k : Z) : Prop :=
  ∀ t, t ∈ V →
    ∃ y ky, y ∈ flags db ∧ title y = t ∧ pk y = Some ky
            ∧ tc (depends_on db) ky k.

(** Every row that leaves [u] leads into [V]. *)
Definition successors_in (db : DB) (u : option Z) (V : gset (option Z)) : Prop :=
  ∀ r, r ∈ dependencies db → Some (dependent_flag_id r) = u →
       Some (source_flag_id r) ∈ V.

(** The rows leaving [u] have been dealt with: a disabled source is in the
    list, an enabled source that cannot be active has been visited. *)
Definition handled (db : DB) (u : option Z) (st : blocking_state) : Prop :=
  ∀ r src, r ∈ dependencies db → Some (dependent_flag_id r) = u →
           src ∈ flags db → pk src = Some (source_flag_id r) →
           (is_enabled src = false → src ∈ st.2)
           ∧ (is_enabled src = true → can_be_active db src = Ret false →
              pk src ∈ st.1).

(** The path of a search holds no key twice, its keys have been visited, and
    the target has not. *)
Definition simple_search (tgt : FeatureFlag) (st : search) : Prop :=
  NoDup (pk <$> path_list st)
  ∧ (∀ f, f ∈ path_list st → pk f ∈ visited st)
  ∧ pk tgt ∉ visited st.

(** The rules behind the entries of a blocking list: pairwise different
    stored rows, each leaving a newly visited flag, whose source flags are
    the entries, in order. *)
Definition reported_by (db : DB) (V V' : gset (option Z))
    (R : list DependencyRow) (entries : list FeatureFlag) : Prop :=
  NoDup R
  ∧ Forall2 (λ r s, rule_source_flag db r = Ret s) R entries
  ∧ ∀ r, r ∈ R → r ∈ dependencies db
                 ∧ Some (dependent_flag_id r) ∈ V' ∧ Some (dependent_flag_id r) ∉ V.

(** ** Scenarios *)

Definition mkflag (k : Z) (t : string) (e : bool) : FeatureFlag :=
  {| pk := Some k; title := t; is_enabled := e |}.
Definition mkdep (d s : Z) : DependencyRow :=
  {| dependent_flag_id := d; source_flag_id := s |}.

Definition someone : Request := {| user := 7 |}.

(** Flags A, B, C, all enabled; B depends on A and C depends on B. *)
Definition db_A : DB := run empty_db someone (CreateFlag "A" true).
Definition db_AB : DB :=
  run db_A someone (CreateFlagWithDependencies "B" true ["A"]).
Definition db_ABC : DB :=
  run db_AB someone (CreateFlagWithDependencies "C" true ["B"]).

(** Flags A and B with the single row "A depends on B"
    (tests.py, [test_direct_circular_dependency]). *)
Definition db_A_on_B : DB :=
  run (run (run empty_db someone (CreateFlag "A" false))
         someone (CreateFlag "B" false))
    someone (AddDependency 1 2).

(** Flags A (disabled) and B (disabled), B depends on A. *)
Definition db_off : DB :=
  run (run empty_db someone (CreateFlag "A" false))
    someone (CreateFlagWithDependencies "B" false ["A"]).

(** The diamond: A depends on B and C, which both depend on D; D and A are
    disabled, B and C enabled. *)
Definition db_diamond : DB :=
  run (run (run (run empty_db someone (CreateFlag "D" false))
              someone (CreateFlagWithDependencies "B" true ["D"]))
         someone (CreateFlagWithDependencies "C" true ["D"]))
    someone (CreateFlagWithDependencies "A" false ["B"; "C"]).

(** tests.py, [test_complex_circular_dependency_scenario]: six flags and the
    rows A on B, B on C, A on D, D on E. *)
Definition db_complex : DB :=
  {| flags := [mkflag 1 "FlagA" false; mkflag 2 "FlagB" false;
               mkflag 3 "FlagC" false; mkflag 4 "FlagD" false;
               mkflag 5 "FlagE" false; mkflag 6 "FlagF" false];
     dependencies := [mkdep 1 2; mkdep 2 3; mkdep 1 4; mkdep 4 5];
     logs := [];
     next_pk := 7 |}.

(** Tables as they could be loaded from outside the engine: A depends on B
    and B depends on A. *)
Definition db_cyclic : DB :=
  {| flags := [mkflag 1 "A" true; mkflag 2 "B" true];
     dependencies := [mkdep 1 2; mkdep 2 1];
     logs := [];
     next_pk := 3 |}.




(** * Properties *)

(** ** Outcomes and loops *)

Lemma bind_Ret {A B} (m : outcome A) (k : A → outcome B) b :
  bind m k = Ret b ↔ ∃ a, m = Ret a ∧ k a = Ret b.
Proof.
  destruct m; simpl; split; try (intros (? & ? & ?)); try discriminate; eauto.
  congruence.
Qed.

Lemma bind_ret {A B} (a : A) (k : A → outcome B) : bind (Ret a) k = k a.
Proof. done. Qed.

Lemma for_rules_total body rules :
  (∀ r, r ∈ rules → ∃ b, body r = Ret b) →
  ∃ b, for_rules body rules = Ret b.
Proof.
  induction rules as [|r rules IH]; intros Hb; simpl; [eauto|].
  destruct (Hb r) as [b Hr]; [by left|]. rewrite Hr. simpl.
  destruct b; [|eauto]. apply IH. intros r' Hr'. apply Hb. by right.
Qed.

Lemma for_rules_ext body1 body2 rules :
  (∀ r, r ∈ rules → body1 r = body2 r) →
  for_rules body1 rules = for_rules body2 rules.
Proof.
  induction rules as [|r rules IH]; intros Hb; simpl; [done|].
  rewrite (Hb r) by (left; done). destruct (body2 r) as [[]| |]; simpl; try done.
  apply IH. intros r' Hr'. apply Hb. by right.
Qed.

Lemma for_rules_true body rules :
  for_rules body rules = Ret true ↔ ∀ r, r ∈ rules → body r = Ret true.
Proof.
  induction rules as [|r rules IH]; simpl.
  - split; [|done]. intros _ r Hr. by apply elem_of_nil in Hr.
  - split.
    + intros Hb r' Hr'. destruct (body r) as [[]| |] eqn:Hr; simpl in Hb; try done.
      apply elem_of_cons in Hr' as [->|Hr']; [done|]. by apply IH.
    + intros Hb. rewrite (Hb r) by (by left). simpl.
      apply IH. intros r' Hr'. apply Hb. by right.
Qed.

Lemma for_rules_mono body1 body2 rules b :
  (∀ r b', r ∈ rules → body1 r = Ret b' → body2 r = Ret b') →
  for_rules body1 rules = Ret b → for_rules body2 rules = Ret b.
Proof.
  induction rules as [|r rules IH]; simpl; intros Hb H; [done|].
  destruct (body1 r) as [b'| |] eqn:Hr; simpl in H; try done.
  rewrite (Hb r b') by (done || by left). simpl.
  destruct b'; [|done]. apply IH; [|done].
  intros r' b'' Hr'. apply Hb. by right.
Qed.

Lemma first_rule_cases (I : search → Prop) body rules :
  (∀ r s s', r ∈ rules → I s → body r s = Ret (false, s') → I s') →
  ∀ s b s', I s → first_rule body rules s = Ret (b, s') →
    if b then ∃ r s1, r ∈ rules ∧ I s1 ∧ body r s1 = Ret (true, s')
    else I s'.
Proof.
  induction rules as [|r rules IH]; intros Hbody s b s' Hs Hl; simpl in Hl.
  - by simplify_eq.
  - apply bind_Ret in Hl as ([f s1] & Hr & Hl). destruct f.
    + simplify_eq. exists r, s. split_and!; try done. by left.
    + assert (I s1) as Hs1 by (eapply Hbody; eauto; by left).
      specialize (IH (λ r0 s0 s0' Hr0, Hbody r0 s0 s0' (list_elem_of_further _ _ _ Hr0))
                    s1 b s' Hs1 Hl).
      destruct b; [|done].
      destruct IH as (r' & s2 & Hr' & Hs2 & Hb). exists r', s2.
      split_and!; try done. by right.
Qed.

Lemma first_rule_total (I : search → Prop) body rules :
  (∀ r s, r ∈ rules → I s → ∃ b s', body r s = Ret (b, s') ∧ I s') →
  ∀ s, I s → ∃ b s', first_rule body rules s = Ret (b, s').
Proof.
  induction rules as [|r rules IH]; intros Hbody s Hs; simpl; [eauto|].
  destruct (Hbody r s) as (f & s1 & Hr & Hs1); [by left|done|].
  rewrite Hr. simpl. destruct f; [eauto|].
  apply IH; [|done]. intros r0 s0 Hr0. apply Hbody. by right.
Qed.

Lemma each_rule_inv {S} (I : S → Prop) (body : DependencyRow → S → outcome S)
    rules :
  (∀ r s s', r ∈ rules → I s → body r s = Ret s' → I s') →
  ∀ s s', I s → each_rule body rules s = Ret s' → I s'.
Proof.
  induction rules as [|r rules IH]; intros Hbody s s' Hs Hl; simpl in Hl.
  - by simplify_eq.
  - apply bind_Ret in Hl as (s1 & Hr & Hl).
    eapply IH; [|eapply Hbody; eauto; by left|done].
    intros r0 s0 s0' Hr0. apply Hbody. by right.
Qed.

Lemma each_rule_total {S} (I : S → Prop) (body : DependencyRow → S → outcome S)
    rules :
  (∀ r s, r ∈ rules → I s → ∃ s', body r s = Ret s' ∧ I s') →
  ∀ s, I s → ∃ s', each_rule body rules s = Ret s'.
Proof.
  induction rules as [|r rules IH]; intros Hbody s Hs; simpl; [eauto|].
  destruct (Hbody r s) as (s1 & Hr & Hs1); [by left|done|].
  rewrite Hr. simpl. apply IH; [|done].
  intros r0 s0 Hr0. apply Hbody. by right.
Qed.

(** ** Lists and finite sets *)

Lemma last_cons_cons {A} (x y : A) l : last (x :: y :: l) = last (y :: l).
Proof. done. Qed.

Lemma last_cons_elem {A} (a e : A) p :
  last (a :: p) = Some e → (p = [] ∧ e = a) ∨ e ∈ p.
Proof.
  intros [l' Hl]%last_Some. destruct l' as [|a' l']; simplify_eq/=.
  - by left.
  - right. apply elem_of_app. right. by apply list_elem_of_singleton.
Qed.

Lemma size_list_to_set_le `{Countable K} (l : list K) :
  (size (list_to_set (C:=gset K) l) ≤ length l)%nat.
Proof.
  induction l as [|x l IH].
  - rewrite list_to_set_nil, size_empty. done.
  - rewrite list_to_set_cons, size_union_alt, size_singleton.
    simpl. apply le_n_S. etrans; [|apply IH].
    apply subseteq_size. set_solver.
Qed.

Lemma size_remaining `{Countable K} (U V : gset K) (x : K) :
  x ∈ U → x ∉ V → (size (U ∖ (V ∪ {[x]})) < size (U ∖ V))%nat.
Proof. intros HU HV. apply subset_size. set_solver. Qed.

(** ** Queries and stored rows *)

Lemma get_flag_Ret db k f :
  get_flag db k = Ret f → f ∈ flags db ∧ pk f = Some k.
Proof.
  unfold get_flag. destruct (List.find _ _) as [f'|] eqn:Hfind; [|done].
  intros [= ->]. apply find_some in Hfind as [Hin Hpk].
  apply bool_decide_eq_true in Hpk. by rewrite <- list_elem_of_In in Hin.
Qed.

Lemma get_flag_stored db k f :
  f ∈ flags db → pk f = Some k → ∃ f', get_flag db k = Ret f'.
Proof.
  intros Hin Hpk. unfold get_flag.
  destruct (List.find _ _) as [f'|] eqn:Hfind; [eauto|].
  apply list_elem_of_In in Hin.
  apply (find_none _ _ Hfind f) in Hin as Hf.
  apply bool_decide_eq_false in Hf. done.
Qed.

Lemma get_flag_cases db k :
  (∃ f, get_flag db k = Ret f ∧ f ∈ flags db ∧ pk f = Some k)
  ∨ get_flag db k = Raise DoesNotExist.
Proof.
  destruct (get_flag db k) as [f| |] eqn:Hget.
  - left. exists f. split; [done|]. by apply get_flag_Ret.
  - right. unfold get_flag in Hget. by destruct (List.find _ _); simplify_eq.
  - unfold get_flag in Hget. by destruct (List.find _ _).
Qed.

Lemma pk_inj db f g :
  integrity db → f ∈ flags db → g ∈ flags db → pk f = pk g → f = g.
Proof.
  intros Hi Hf Hg Hpk.
  apply list_elem_of_lookup in Hf as [i Hf].
  apply list_elem_of_lookup in Hg as [j Hg].
  assert (i = j) as ->; [|congruence].
  eapply NoDup_lookup; [apply (pk_unique _ Hi)| |].
  - rewrite list_lookup_fmap, Hf. done.
  - rewrite list_lookup_fmap, Hg. simpl. by rewrite Hpk.
Qed.

Lemma title_inj db f g :
  integrity db → f ∈ flags db → g ∈ flags db → title f = title g → f = g.
Proof.
  intros Hi Hf Hg Ht.
  apply list_elem_of_lookup in Hf as [i Hf].
  apply list_elem_of_lookup in Hg as [j Hg].
  assert (i = j) as ->; [|congruence].
  eapply NoDup_lookup; [apply (title_unique _ Hi)| |].
  - rewrite list_lookup_fmap, Hf. done.
  - rewrite list_lookup_fmap, Hg. simpl. by rewrite Ht.
Qed.

Lemma get_flag_eq db k f :
  integrity db → f ∈ flags db → pk f = Some k → get_flag db k = Ret f.
Proof.
  intros Hi Hin Hpk. destruct (get_flag_stored db k f Hin Hpk) as [f' Hf'].
  rewrite Hf'. apply get_flag_Ret in Hf' as [Hin' Hpk'].
  f_equal. eapply pk_inj; eauto. congruence.
Qed.

Lemma get_flag_by_title_Ret db t f :
  get_flag_by_title db t = Ret f → f ∈ flags db ∧ title f = t.
Proof.
  unfold get_flag_by_title. destruct (List.find _ _) as [f'|] eqn:Hfind; [|done].
  intros [= ->]. apply find_some in Hfind as [Hin Ht].
  apply bool_decide_eq_true in Ht. by rewrite <- list_elem_of_In in Hin.
Qed.

Lemma get_flag_by_title_stored db f :
  integrity db → f ∈ flags db → get_flag_by_title db (title f) = Ret f.
Proof.
  intros Hi Hf. unfold get_flag_by_title.
  destruct (List.find _ _) as [f'|] eqn:Hfind.
  - apply find_some in Hfind as [Hin Ht].
    apply bool_decide_eq_true in Ht. apply list_elem_of_In in Hin.
    f_equal. by eapply title_inj.
  - apply list_elem_of_In in Hf.
    apply (find_none _ _ Hfind f) in Hf. by apply bool_decide_eq_false in Hf.
Qed.

Lemma rules_elem db self r :
  r ∈ dependency_rules_as_dependent db self ↔
  r ∈ dependencies db ∧ Some (dependent_flag_id r) = pk self.
Proof.
  unfold dependency_rules_as_dependent.
  rewrite list_elem_of_In, filter_In, <- list_elem_of_In.
  by rewrite bool_decide_eq_true.
Qed.

Lemma rule_source_flag_Ret db r src :
  rule_source_flag db r = Ret src →
  src ∈ flags db ∧ pk src = Some (source_flag_id r).
Proof. apply get_flag_Ret. Qed.

Lemma rule_source_flag_total db r :
  integrity db → r ∈ dependencies db → ∃ src, rule_source_flag db r = Ret src.
Proof.
  intros Hi Hr. destruct (fk_source _ Hi r Hr) as (f & Hf & Hpk).
  by eapply get_flag_stored.
Qed.

Lemma depends_on_row db r :
  r ∈ dependencies db → depends_on db (dependent_flag_id r) (source_flag_id r).
Proof. unfold depends_on. by destruct r. Qed.

Lemma stored_title db f : f ∈ flags db → title f ∈ all_titles db.
Proof.
  intros Hf. unfold all_titles. rewrite elem_of_list_to_set.
  apply list_elem_of_fmap. eauto.
Qed.

Lemma stored_pk db f : f ∈ flags db → pk f ∈ all_pks db.
Proof.
  intros Hf. unfold all_pks. rewrite elem_of_list_to_set.
  apply list_elem_of_fmap. eauto.
Qed.

Lemma same_row_stored db f : f ∈ flags db → same_row db f.
Proof. intros Hf. by exists f. Qed.

Lemma same_row_flipped db f : f ∈ flags db → same_row db (flipped f).
Proof. intros Hf. by exists f. Qed.

Lemma same_row_title db self : same_row db self → title self ∈ all_titles db.
Proof. intros (f & Hf & _ & <-). by apply stored_title. Qed.

Lemma same_row_pk db self : same_row db self → pk self ∈ all_pks db.
Proof. intros (f & Hf & <- & _). by apply stored_pk. Qed.

Lemma size_all_titles db : (size (all_titles db) ≤ length (flags db))%nat.
Proof.
  unfold all_titles. etrans; [apply size_list_to_set_le|].
  by rewrite length_fmap.
Qed.

Lemma size_all_pks db : (size (all_pks db) ≤ length (flags db))%nat.
Proof.
  unfold all_pks. etrans; [apply size_list_to_set_le|].
  by rewrite length_fmap.
Qed.

(** The budget of a top-level call exceeds whatever is left to visit. *)
Lemma budget_titles (db : DB) (V : gset string) :
  (size (all_titles db ∖ V) < recursion_budget db)%nat.
Proof.
  unfold recursion_budget. pose proof (size_all_titles db).
  assert (size (all_titles db ∖ V) ≤ size (all_titles db))%nat
    by (apply subseteq_size; set_solver).
  lia.
Qed.

Lemma budget_pks (db : DB) (V : gset (option Z)) :
  (size (all_pks db ∖ V) < recursion_budget db)%nat.
Proof.
  unfold recursion_budget. pose proof (size_all_pks db).
  assert (size (all_pks db ∖ V) ≤ size (all_pks db))%nat
    by (apply subseteq_size; set_solver).
  lia.
Qed.

Create HintDb flags.
#[local] Hint Resolve stored_title stored_pk same_row_stored same_row_flipped
  same_row_title same_row_pk budget_titles budget_pks : flags.

(** A state built from [empty_db] by operations is reachable. *)
Ltac by_operations := repeat apply reachable_run; apply reachable_empty.

(** ** The activation evaluator terminates

    On any tables that satisfy the integrity constraints, cyclic or not, the
    recursion returns once the budget exceeds the number of titles that are
    not yet in the visited set. *)

Lemma _check_dependencies_recursively_total db :
  integrity db →
  ∀ (n : nat) self V,
    title self ∈ all_titles db →
    (size (all_titles db ∖ V) < n)%nat →
    ∃ b, _check_dependencies_recursively db n self V = Ret b.
Proof.
  intros Hi. induction n as [|n IH]; intros self V Ht Hn; [lia|].
  simpl. case_bool_decide as Hv; [eauto|].
  apply for_rules_total. intros r Hr.
  apply rules_elem in Hr as [Hr _].
  destruct (rule_source_flag_total db r Hi Hr) as [src Hsrc].
  rewrite Hsrc. simpl. destruct (is_enabled src); simpl; [|eauto].
  apply rule_source_flag_Ret in Hsrc as [Hin _].
  apply IH; [by apply stored_title|].
  pose proof (size_remaining (all_titles db) V (title self) Ht Hv). lia.
Qed.

Lemma can_be_active_total db self :
  integrity db → title self ∈ all_titles db →
  ∃ b, can_be_active db self = Ret b.
Proof.
  intros Hi Ht.
  apply _check_dependencies_recursively_total; auto with flags.
Qed.

Lemma is_active_total db self :
  integrity db → title self ∈ all_titles db →
  ∃ b, is_active db self = Ret b.
Proof.
  intros Hi Ht. unfold is_active.
  destruct (is_enabled self); simpl; [|eauto]. by apply can_be_active_total.
Qed.

(** ** Evaluation on acyclic tables *)

Lemma check_plain_mono db (n : nat) self b :
  check_plain db n self = Ret b → check_plain db (S n) self = Ret b.
Proof.
  revert self b. induction n as [|n IH]; intros self b; [done|].
  intros H. simpl in H. change (check_plain db (S (S n)) self) with
    (for_rules
        (λ rule,
           let! src := rule_source_flag db rule in
           if negb (is_enabled src) then Ret false
           else check_plain db (S n) src)
        (dependency_rules_as_dependent db self)).
  eapply for_rules_mono; [|exact H].
  intros r b' _. simpl. destruct (rule_source_flag db r); simpl; try done.
  destruct (is_enabled a); simpl; [|done]. apply IH.
Qed.

Section AcyclicTables.
Context (db : DB) (Hi : integrity db) (Hac : acyclic db).

Lemma check_plain_agrees :
  ∀ (n : nat) self V k,
    same_row db self → pk self = Some k → ancestors_only db V k →
    _check_dependencies_recursively db n self V = check_plain db n self.
Proof.
  induction n as [|n IH]; intros self V k Hrow Hk HV; [done|].
  simpl. destruct Hrow as (f & Hf & Hfpk & Hft).
  case_bool_decide as Hv.
  { exfalso. destruct (HV _ Hv) as (y & ky & Hy & Hyt & Hypk & Hreach).
    assert (y = f) as -> by (eapply title_inj; eauto; congruence).
    apply (Hac k). congruence. }
  apply for_rules_ext. intros r Hr. apply rules_elem in Hr as [Hr Hdep].
  destruct (rule_source_flag db r) as [src| |] eqn:Hsrc; simpl; try done.
  destruct (is_enabled src); simpl; [|done].
  apply rule_source_flag_Ret in Hsrc as [Hin Hpk].
  apply (IH src _ (source_flag_id r)); [by apply same_row_stored|done|].
  assert (depends_on db k (source_flag_id r)) as Hedge.
  { unfold depends_on. destruct r as [d s]. simpl in *.
    rewrite Hk in Hdep. by injection Hdep as ->. }
  intros t Ht. apply elem_of_union in Ht as [Ht|Ht].
  - destruct (HV _ Ht) as (y & ky & Hy & Hyt & Hypk & Hreach).
    exists y, ky. split_and!; try done. by eapply tc_r.
  - apply elem_of_singleton in Ht as ->.
    exists f, k. split_and!; try done; [congruence|]. by apply tc_once.
Qed.

Lemma can_be_active_plain self k :
  same_row db self → pk self = Some k →
  can_be_active db self = check_plain db (recursion_budget db) self.
Proof.
  intros Hrow Hk. unfold can_be_active.
  eapply check_plain_agrees; eauto. intros t Ht. by apply elem_of_empty in Ht.
Qed.

(** One level below the top the budget is still sufficient. *)
Lemma check_plain_below self src k :
  same_row db self → pk self = Some k →
  src ∈ flags db → depends_on db k (default 0 (pk src)) →
  ∃ b, check_plain db (length (flags db)) src = Ret b
       ∧ can_be_active db src = Ret b.
Proof.
  intros Hrow Hk Hsrc Hedge.
  destruct (pk_bound _ Hi src Hsrc) as (ks & Hks & _).
  rewrite Hks in Hedge. simpl in Hedge.
  pose proof (same_row_title _ _ Hrow) as Ht.
  destruct Hrow as (f & Hf & Hfpk & Hft).
  destruct (_check_dependencies_recursively_total db Hi (length (flags db))
              src {[title self]}) as [b Hb].
  { by apply stored_title. }
  { pose proof (size_all_titles db).
    assert (size (all_titles db ∖ {[title self]}) < size (all_titles db))%nat.
    { apply subset_size. set_solver. }
    lia. }
  exists b.
  rewrite (check_plain_agrees _ src _ ks) in Hb;
    [|by apply same_row_stored|done|].
  - split; [done|].
    rewrite (can_be_active_plain src ks) by (done || by apply same_row_stored).
    by apply check_plain_mono.
  - intros t Ht'. apply elem_of_singleton in Ht' as ->.
    exists f, k. split_and!; try done; [congruence|]. by apply tc_once.
Qed.

Lemma can_be_active_iff self k :
  same_row db self → pk self = Some k →
  ∃ b, can_be_active db self = Ret b ∧
       (b = true ↔ ∀ s, direct_dependency db self s → is_active db s = Ret true).
Proof.
  intros Hrow Hk.
  destruct (can_be_active_total db self Hi (same_row_title _ _ Hrow)) as [b Hb].
  exists b. split; [done|].
  rewrite (can_be_active_plain self k) in Hb by done.
  unfold recursion_budget in Hb. simpl in Hb.
  split.
  - intros -> s (Hs & kf & ks & Hkf & Hks & Hedge).
    rewrite Hk in Hkf. injection Hkf as <-.
    pose proof (proj1 (for_rules_true _ _) Hb
                  {| dependent_flag_id := k; source_flag_id := ks |}) as Hr.
    cbv beta in Hr.
    assert (rule_source_flag db {| dependent_flag_id := k; source_flag_id := ks |}
            = Ret s) as Hsrc by (by apply get_flag_eq).
    rewrite Hsrc in Hr. simpl in Hr.
    assert (is_enabled s = true ∧ check_plain db (length (flags db)) s = Ret true)
      as [Hen Hpl].
    { destruct (is_enabled s); simpl in Hr.
      - split; [done|]. apply Hr. apply rules_elem. by rewrite Hk.
      - discriminate Hr. apply rules_elem. by rewrite Hk. }
    unfold is_active. rewrite Hen. simpl.
    rewrite (can_be_active_plain s ks) by (done || by apply same_row_stored).
    by apply check_plain_mono.
  - intros Hall. destruct b; [done|]. exfalso.
    assert (for_rules
              (λ rule, let! src := rule_source_flag db rule in
                       if negb (is_enabled src) then Ret false
                       else check_plain db (length (flags db)) src)
              (dependency_rules_as_dependent db self) = Ret true) as Htrue;
      [|congruence].
    apply for_rules_true. intros r Hr. apply rules_elem in Hr as [Hr Hdep].
    destruct (rule_source_flag_total db r Hi Hr) as [src Hsrc].
    rewrite Hsrc. simpl.
    apply rule_source_flag_Ret in Hsrc as [Hin Hpk].
    assert (depends_on db k (source_flag_id r)) as Hedge.
    { unfold depends_on. destruct r as [d s]. simpl in *.
      rewrite Hk in Hdep. by injection Hdep as ->. }
    assert (is_active db src = Ret true) as Hact.
    { apply Hall. split; [done|]. by exists k, (source_flag_id r). }
    unfold is_active in Hact. destruct (is_enabled src); simpl in *; [|done].
    destruct (check_plain_below self src k) as (b & Hb1 & Hb2); try done.
    { by rewrite Hpk. }
    congruence.
Qed.

Lemma is_active_iff f :
  f ∈ flags db →
  ∃ b, is_active db f = Ret b ∧
       (b = true ↔ is_enabled f = true
                   ∧ ∀ s, direct_dependency db f s → is_active db s = Ret true).
Proof.
  intros Hf. destruct (pk_bound _ Hi f Hf) as (k & Hk & _).
  destruct (can_be_active_iff f k (same_row_stored _ _ Hf) Hk)
    as (b & Hb & Hiff).
  unfold is_active. destruct (is_enabled f); simpl.
  - exists b. split; [done|]. rewrite Hiff. naive_solver.
  - exists false. split; [done|]. naive_solver.
Qed.

(** A flag that reaches, in one or more steps, a flag that is not active
    cannot itself become active. *)
Lemma blocked_by_inactive :
  ∀ k kt, tc (depends_on db) k kt →
  ∀ self t, same_row db self → pk self = Some k →
            t ∈ flags db → pk t = Some kt → is_active db t ≠ Ret true →
            can_be_active db self = Ret false.
Proof.
  intros k kt Hreach.
  induction Hreach as [x y Hedge|x y z Hedge Hreach IH];
    intros self t Hrow Hk Ht Hkt Hina.
  - destruct (can_be_active_iff self x Hrow Hk) as (b & Hb & Hiff).
    destruct b; [|done]. exfalso. apply Hina, Hiff; [done|].
    split; [done|]. by exists x, y.
  - destruct (fk_source _ Hi _ Hedge) as (m & Hm & Hmpk). simpl in Hmpk.
    destruct (can_be_active_iff self x Hrow Hk) as (b & Hb & Hiff).
    destruct b; [|done]. exfalso.
    assert (is_active db m = Ret true) as Hact.
    { apply Hiff; [done|]. split; [done|]. by exists x, y. }
    unfold is_active in Hact. destruct (is_enabled m); simpl in Hact; [|done].
    rewrite (IH m t) in Hact; try done. by apply same_row_stored.
Qed.

End AcyclicTables.

(** ** The cycle search *)

Lemma successors_in_mono db u V V' :
  V ⊆ V' → successors_in db u V → successors_in db u V'.
Proof. intros HV Hs r Hr Hu. apply HV. by apply Hs. Qed.

Section CycleSearch.
Context (db : DB) (tgt : FeatureFlag).

Lemma _find_path_and_detect_cycle_visited :
  ∀ (n : nat) cur st b st',
    _find_path_and_detect_cycle db n cur tgt st = Ret (b, st') →
    visited st ⊆ visited st'.
Proof.
  induction n as [|n IH]; intros cur st b st' H; [done|].
  simpl in H. case_bool_decide; [by simplify_eq|].
  case_bool_decide; [by simplify_eq|].
  apply bind_Ret in H as ([found st2] & Hloop & H).
  assert (visited st ⊆ visited st2) as Hsub.
  { eapply (first_rule_cases (λ s, visited st ⊆ visited s)) in Hloop.
    - destruct found; [|done].
      destruct Hloop as (r & s1 & _ & Hs1 & Hbody).
      apply bind_Ret in Hbody as (next & _ & Hfind). apply IH in Hfind.
      set_solver.
    - intros r s s' _ Hs Hbody.
      apply bind_Ret in Hbody as (next & _ & Hfind). apply IH in Hfind.
      set_solver.
    - simpl. set_solver. }
  destruct found; by simplify_eq.
Qed.

(** The search returns on all tables that satisfy the integrity
    constraints, whether or not the rows contain cycles: the budget only has
    to exceed the number of keys that are not yet visited. *)
Lemma _find_path_and_detect_cycle_total :
  integrity db →
  ∀ (n : nat) cur st,
    cur ∈ flags db ∨ pk cur = pk tgt →
    (size (all_pks db ∖ visited st) < n)%nat →
    ∃ b st', _find_path_and_detect_cycle db n cur tgt st = Ret (b, st').
Proof.
  intros Hi. induction n as [|n IH]; intros cur st Hcur Hn; [lia|].
  simpl. case_bool_decide as Htgt; [eauto|].
  case_bool_decide as Hv; [eauto|].
  destruct Hcur as [Hcur|]; [|done].
  pose proof (size_remaining (all_pks db) (visited st) (pk cur)
                (stored_pk _ _ Hcur) Hv) as Hlt.
  edestruct (first_rule_total (λ s, visited st ∪ {[pk cur]} ⊆ visited s))
    as (found & st2 & ->).
  - intros r s Hr Hs. apply rules_elem in Hr as [Hr _].
    destruct (rule_source_flag_total db r Hi Hr) as [next Hnext].
    rewrite Hnext. simpl.
    apply rule_source_flag_Ret in Hnext as [Hin _].
    destruct (IH next s) as (b & s' & Hfind); [by left| |].
    { assert (size (all_pks db ∖ visited s)
              ≤ size (all_pks db ∖ (visited st ∪ {[pk cur]})))%nat
        by (apply subseteq_size; set_solver).
      lia. }
    exists b, s'. split; [done|].
    apply _find_path_and_detect_cycle_visited in Hfind. set_solver.
  - simpl. set_solver.
  - simpl. destruct found; eauto.
Qed.

Lemma _find_path_and_detect_cycle_path :
  ∀ (n : nat) cur st b st',
    _find_path_and_detect_cycle db n cur tgt st = Ret (b, st') →
    if b then
      ∃ p e, path_list st' = path_list st ++ cur :: p
             ∧ linked db (cur :: p)
             ∧ last (cur :: p) = Some e ∧ pk e = pk tgt
             ∧ Forall (λ f, f ∈ flags db) p
    else path_list st' = path_list st.
Proof.
  induction n as [|n IH]; intros cur st b st' H; [done|].
  simpl in H. case_bool_decide as Htgt.
  { simplify_eq. exists [], cur. simpl. split_and!; done. }
  case_bool_decide as Hv; [by simplify_eq|].
  apply bind_Ret in H as ([found st2] & Hloop & H).
  eapply (first_rule_cases (λ s, path_list s = path_list st ++ [cur])) in Hloop.
  - destruct found; simplify_eq.
    + destruct Hloop as (r & s1 & Hr & Hs1 & Hbody).
      apply bind_Ret in Hbody as (next & Hnext & Hfind).
      apply IH in Hfind as (p & e & Hp & Hlinked & Hlast & He & Hall).
      apply rule_source_flag_Ret in Hnext as [Hin Hpk].
      apply rules_elem in Hr as [Hr Hdep].
      exists (next :: p), e. split_and!; try done.
      * rewrite Hp, Hs1, <- app_assoc. done.
      * split; [|done]. exists (dependent_flag_id r), (source_flag_id r).
        split_and!; try done. by apply depends_on_row.
      * by constructor.
    + simpl. rewrite Hloop. apply removelast_last.
  - intros r s s' _ Hs Hbody.
    apply bind_Ret in Hbody as (next & _ & Hfind).
    apply IH in Hfind. congruence.
  - done.
Qed.

Lemma _find_path_and_detect_cycle_nontarget :
  ∀ (n : nat) cur st b st',
    _find_path_and_detect_cycle db n cur tgt st = Ret (b, st') →
    (∀ u, u ∈ visited st → u ≠ pk tgt) →
    ∀ u, u ∈ visited st' → u ≠ pk tgt.
Proof.
  induction n as [|n IH]; intros cur st b st' H Hnt; [done|].
  simpl in H. case_bool_decide as Htgt; [by simplify_eq|].
  case_bool_decide as Hv; [by simplify_eq|].
  apply bind_Ret in H as ([found st2] & Hloop & H).
  assert (∀ u, u ∈ visited st2 → u ≠ pk tgt) as Hst2.
  { eapply (first_rule_cases (λ s, ∀ u, u ∈ visited s → u ≠ pk tgt)) in Hloop.
    - destruct found; [|done].
      destruct Hloop as (r & s1 & _ & Hs1 & Hbody).
      apply bind_Ret in Hbody as (next & _ & Hfind). by eapply IH.
    - intros r s s' _ Hs Hbody.
      apply bind_Ret in Hbody as (next & _ & Hfind). by eapply IH.
    - simpl. intros u [Hu|Hu]%elem_of_union; [by apply Hnt|].
      apply elem_of_singleton in Hu as ->. done. }
  destruct found; by simplify_eq.
Qed.

Lemma _find_path_and_detect_cycle_closed :
  ∀ (n : nat) cur st st',
    _find_path_and_detect_cycle db n cur tgt st = Ret (false, st') →
    pk cur ∈ visited st'
    ∧ ∀ u, u ∈ visited st' → u ∉ visited st → successors_in db u (visited st').
Proof.
  induction n as [|n IH]; intros cur st st' H; [done|].
  simpl in H. case_bool_decide as Htgt; [by simplify_eq|].
  case_bool_decide as Hv; [by simplify_eq|].
  apply bind_Ret in H as ([found st2] & Hloop & H).
  destruct found; simplify_eq. simpl.
  set (body := λ dependency_rule st0,
         let! next_node := rule_source_flag db dependency_rule in
         _find_path_and_detect_cycle db n next_node tgt st0) in *.
  assert (∀ rules s s',
            first_rule body rules s = Ret (false, s') →
            visited s ⊆ visited s'
            ∧ (∀ r, r ∈ rules → Some (source_flag_id r) ∈ visited s')
            ∧ (∀ u, u ∈ visited s' → u ∉ visited s →
                    successors_in db u (visited s'))) as Hgen.
  { induction rules as [|r rules IHr]; intros s s' Hl; simpl in Hl.
    - simplify_eq. split_and!; [done| |done].
      intros r Hr. by apply elem_of_nil in Hr.
    - apply bind_Ret in Hl as ([f s1] & Hbody & Hl).
      destruct f; [done|].
      apply bind_Ret in Hbody as (next & Hnext & Hfind).
      apply rule_source_flag_Ret in Hnext as [_ Hpk].
      pose proof (_find_path_and_detect_cycle_visited _ _ _ _ _ Hfind) as Hm1.
      apply IH in Hfind as [Hnext Hnew].
      apply IHr in Hl as (Hm2 & Hrules & Hnew2).
      split_and!.
      + set_solver.
      + intros r' [->|Hr']%elem_of_cons; [|by apply Hrules].
        rewrite <- Hpk. set_solver.
      + intros u Hu Hnu. destruct (decide (u ∈ visited s1)) as [Hu1|Hu1].
        * eapply successors_in_mono; [exact Hm2|]. by apply Hnew.
        * by apply Hnew2. }
  apply Hgen in Hloop as (Hm & Hrules & Hnew). simpl in Hm.
  split; [set_solver|].
  intros u Hu Hnu. destruct (decide (u = pk cur)) as [->|Hne].
  - intros r Hr Hdep. apply Hrules. by apply rules_elem.
  - apply Hnew; [done|]. simpl. set_solver.
Qed.

Lemma _find_path_and_detect_cycle_expanded :
  ∀ (n : nat) cur st b st',
    _find_path_and_detect_cycle db n cur tgt st = Ret (b, st') →
    (∀ k, k ∈ expanded st → k ∈ visited st) ∧ NoDup (expanded st) →
    (∀ k, k ∈ expanded st' → k ∈ visited st') ∧ NoDup (expanded st').
Proof.
  induction n as [|n IH]; intros cur st b st' H [Hsub Hnd]; [done|].
  simpl in H. case_bool_decide as Htgt; [by simplify_eq|].
  case_bool_decide as Hv; [by simplify_eq|].
  apply bind_Ret in H as ([found st2] & Hloop & H).
  assert ((∀ k, k ∈ expanded st2 → k ∈ visited st2) ∧ NoDup (expanded st2))
    as Hst2.
  { eapply (first_rule_cases
              (λ s, (∀ k, k ∈ expanded s → k ∈ visited s) ∧ NoDup (expanded s)))
      in Hloop.
    - destruct found; [|done].
      destruct Hloop as (r & s1 & _ & Hs1 & Hbody).
      apply bind_Ret in Hbody as (next & _ & Hfind). by eapply IH.
    - intros r s s' _ Hs Hbody.
      apply bind_Ret in Hbody as (next & _ & Hfind). by eapply IH.
    - simpl. split.
      + intros k [Hk| ->%list_elem_of_singleton]%elem_of_app; [|set_solver].
        apply elem_of_union. left. by apply Hsub.
      + apply NoDup_app. split_and!; [done| |apply NoDup_singleton].
        intros k Hk ->%list_elem_of_singleton. by apply Hv, Hsub. }
  destruct found; by simplify_eq.
Qed.

End CycleSearch.

(** A search from the empty state that answers [False] has visited every
    flag reachable from its start, and none of them is the target. *)
Lemma search_complete db src tgt st' ks kt :
  pk src = Some ks → pk tgt = Some kt →
  _find_path_and_detect_cycle db (recursion_budget db) src tgt empty_search
    = Ret (false, st') →
  ¬ rtc (depends_on db) ks kt.
Proof.
  intros Hks Hkt Hfind Hreach.
  pose proof (_find_path_and_detect_cycle_nontarget _ _ _ _ _ _ _ Hfind) as Hnt.
  apply _find_path_and_detect_cycle_closed in Hfind as [Hsrc Hclosed].
  assert (∀ x y, rtc (depends_on db) x y →
                 Some x ∈ visited st' → Some y ∈ visited st') as Hstep.
  { intros x y Hxy. induction Hxy as [x|x y z Hedge _ IHxy]; [done|].
    intros Hx. apply IHxy.
    apply (Hclosed (Some x) Hx (not_elem_of_empty _) _ Hedge). done. }
  apply (Hnt ltac:(set_solver) (Some kt)); [|done].
  apply (Hstep ks); [done|]. by rewrite <- Hks.
Qed.

Lemma linked_rtc db p :
  ∀ a e ka ke,
    linked db (a :: p) → last (a :: p) = Some e →
    pk a = Some ka → pk e = Some ke → rtc (depends_on db) ka ke.
Proof.
  induction p as [|b p IH]; intros a e ka ke Hl Hlast Hka Hke.
  - simpl in Hlast. simplify_eq. done.
  - destruct Hl as [(ka' & kb & Hka' & Hkb & Hedge) Hl].
    rewrite last_cons_cons in Hlast. simplify_eq.
    eapply rtc_l; [exact Hedge|]. by eapply IH.
Qed.

(** ** Inserting a row and acyclicity *)

Lemma depends_on_insert db row a b :
  depends_on (insert_dependency row db) a b ↔
  depends_on db a b ∨ (a = dependent_flag_id row ∧ b = source_flag_id row).
Proof.
  unfold depends_on, insert_dependency. simpl.
  rewrite elem_of_app, list_elem_of_singleton. destruct row as [d s]. simpl.
  naive_solver.
Qed.

Lemma rtc_insert db row x y :
  rtc (depends_on (insert_dependency row db)) x y →
  rtc (depends_on db) x y ∨ rtc (depends_on db) (source_flag_id row) y.
Proof.
  induction 1 as [x|x y z Hedge _ IH]; [by left|].
  apply depends_on_insert in Hedge as [Hedge|[-> ->]].
  - destruct IH as [IH|IH]; [left|by right]. by eapply rtc_l.
  - destruct IH as [IH|IH]; by right.
Qed.

Lemma tc_insert db row a b :
  tc (depends_on (insert_dependency row db)) a b →
  tc (depends_on db) a b
  ∨ (rtc (depends_on (insert_dependency row db)) a (dependent_flag_id row)
     ∧ rtc (depends_on (insert_dependency row db)) (source_flag_id row) b).
Proof.
  induction 1 as [a b Hedge|a y b Hedge Hyb IH].
  - apply depends_on_insert in Hedge as [Hedge|[-> ->]].
    + left. by apply tc_once.
    + by right.
  - pose proof Hedge as Hedge'.
    apply depends_on_insert in Hedge as [Hedge|[-> ->]].
    + destruct IH as [IH|[IH1 IH2]].
      * left. by eapply tc_l.
      * right. split; [|done]. by eapply rtc_l.
    + right. split; [done|]. by apply tc_rtc.
Qed.

Lemma acyclic_insert db row :
  acyclic db →
  ¬ rtc (depends_on db) (source_flag_id row) (dependent_flag_id row) →
  acyclic (insert_dependency row db).
Proof.
  intros Hac Hno a Hcycle.
  apply tc_insert in Hcycle as [Hcycle|[H1 H2]]; [by apply (Hac a)|].
  apply Hno. assert (rtc (depends_on (insert_dependency row db))
                       (source_flag_id row) (dependent_flag_id row)) as Hsd
    by (by etrans).
  apply rtc_insert in Hsd. by destruct Hsd.
Qed.

Lemma acyclic_same_rows db db' :
  dependencies db' = dependencies db → acyclic db → acyclic db'.
Proof.
  intros Heq Hac a Hcycle. apply (Hac a).
  unfold depends_on in *. by rewrite Heq in Hcycle.
Qed.

(** ** Validation of a dependency *)

Lemma Dependency_clean_cases db self d s :
  integrity db → source_flag self ∈ flags db →
  pk (dependent_flag self) = Some d → pk (source_flag self) = Some s →
  (d = s ∧ Dependency_clean db self
           = Raise (dependency_conflict self_dependency_message))
  ∨ (d ≠ s ∧ rtc (depends_on db) s d ∧
     ∃ p e,
       Dependency_clean db self
       = Raise (dependency_conflict
                  (cycle_message (title (dependent_flag self))
                     (title (source_flag self))
                     (full_cycle_path (dependent_flag self)
                        (source_flag self :: p))))
       ∧ linked db (source_flag self :: p)
       ∧ last (source_flag self :: p) = Some e
       ∧ pk e = pk (dependent_flag self)
       ∧ Forall (λ f, f ∈ flags db) p)
  ∨ (d ≠ s ∧ ¬ rtc (depends_on db) s d ∧ Dependency_clean db self = Ret ()).
Proof.
  intros Hi Hsrc Hd Hs. unfold Dependency_clean, Dependency_clean_with.
  case_bool_decide as Heq.
  { left. split; [congruence|done]. }
  assert (d ≠ s) as Hne by congruence.
  right.
  destruct (_find_path_and_detect_cycle_total db (dependent_flag self) Hi
              (recursion_budget db) (source_flag self) empty_search)
    as (b & st' & Hfind).
  { by left. }
  { apply budget_pks. }
  rewrite Hfind. simpl. destruct b.
  - left. apply _find_path_and_detect_cycle_path in Hfind
      as (p & e & Hp & Hlinked & Hlast & He & Hall).
    simpl in Hp. rewrite Hp. split; [done|]. split.
    + rewrite <- He in Hd. by eapply linked_rtc.
    + exists p, e. split_and!; done.
  - right. split; [done|]. split; [|done]. by eapply search_complete.
Qed.

Lemma Dependency_validate_unique_cases db self d s :
  pk (dependent_flag self) = Some d → pk (source_flag self) = Some s →
  (depends_on db d s ∧ ∃ e, Dependency_validate_unique db self
                            = Raise (ValidationError [e]))
  ∨ (¬ depends_on db d s ∧ Dependency_validate_unique db self = Ret ()).
Proof.
  intros Hd Hs. unfold Dependency_validate_unique.
  destruct (existsb _ _) eqn:Hex.
  - left. split; [|eauto].
    apply existsb_exists in Hex as (row & Hin & Hrow).
    apply bool_decide_eq_true in Hrow as [H1 H2].
    rewrite Hd in H1. rewrite Hs in H2. simplify_eq.
    apply list_elem_of_In in Hin. by apply depends_on_row.
  - right. split; [|done]. intros Hdep.
    apply not_true_iff_false in Hex. apply Hex.
    apply existsb_exists. eexists. split; [apply list_elem_of_In, Hdep|].
    apply bool_decide_eq_true. simpl. by rewrite Hd, Hs.
Qed.

(** What [Dependency.save] can do to the tables: nothing, or append the row
    after both checks passed. *)
Lemma Dependency_save_cases db self d s :
  integrity db → source_flag self ∈ flags db →
  pk (dependent_flag self) = Some d → pk (source_flag self) = Some s →
  (∃ e, Dependency_save db self = (db, Raise (ValidationError e)))
  ∨ (d ≠ s ∧ ¬ rtc (depends_on db) s d ∧ ¬ depends_on db d s
     ∧ Dependency_save db self
       = (insert_dependency {| dependent_flag_id := d; source_flag_id := s |} db,
          Ret self)).
Proof.
  intros Hi Hsrc Hd Hs. unfold Dependency_save, Dependency_full_clean.
  destruct (Dependency_validate_unique_cases db self d s Hd Hs)
    as [(Hdup & eu & ->)|(Hnodup & ->)];
  destruct (Dependency_clean_cases db self d s Hi Hsrc Hd Hs)
    as [(-> & ->)|[(Hne & Hreach & p & e & -> & _)|(Hne & Hno & ->)]];
    simpl; eauto.
  right. rewrite Hd, Hs. done.
Qed.

Lemma Dependency_save_ok db self d s :
  integrity db → source_flag self ∈ flags db →
  pk (dependent_flag self) = Some d → pk (source_flag self) = Some s →
  d ≠ s → ¬ rtc (depends_on db) s d → ¬ depends_on db d s →
  Dependency_save db self
  = (insert_dependency {| dependent_flag_id := d; source_flag_id := s |} db,
     Ret self).
Proof.
  intros Hi Hsrc Hd Hs Hne Hno Hnew.
  unfold Dependency_save, Dependency_full_clean.
  destruct (Dependency_clean_cases db self d s Hi Hsrc Hd Hs)
    as [[? _]|[(_ & ? & _)|(_ & _ & ->)]]; [done..|].
  destruct (Dependency_validate_unique_cases db self d s Hd Hs)
    as [[? _]|[_ ->]]; [done|].
  simpl. by rewrite Hd, Hs.
Qed.

Lemma Dependency_save_flags db self :
  flags (fst (Dependency_save db self)) = flags db.
Proof.
  unfold Dependency_save. destruct (Dependency_full_clean db self); try done.
  by destruct (pk (dependent_flag self)), (pk (source_flag self)).
Qed.

Lemma self_dependency_message_distinct a b c :
  self_dependency_message ≠ cycle_message a b c.
Proof. unfold self_dependency_message, cycle_message. simpl. discriminate. Qed.

(** ** The blocking-dependency search *)

Lemma _find_blocking_dependencies_grows db :
  ∀ (n : nat) self st st',
    _find_blocking_dependencies db n self st = Ret st' →
    st.1 ⊆ st'.1 ∧ (∀ x, x ∈ st.2 → x ∈ st'.2).
Proof.
  induction n as [|n IH]; intros self [V bl] st' H; [done|].
  simpl in H. case_bool_decide as Hv; [by simplify_eq|].
  eapply (each_rule_inv (λ s, V ⊆ s.1 ∧ ∀ x, x ∈ bl → x ∈ s.2)) in H;
    [done| |simpl; set_solver].
  intros r [V1 bl1] s' _ [HV Hbl] Hbody.
  apply bind_Ret in Hbody as (src & _ & Hbody).
  destruct (is_enabled src); simpl in Hbody.
  - apply bind_Ret in Hbody as (ok & _ & Hbody).
    destruct ok; simpl in Hbody; [by simplify_eq|].
    apply IH in Hbody as [H1 H2]. simpl in *. split; [set_solver|eauto].
  - simplify_eq. simpl. split; [done|]. intros x Hx. apply elem_of_app. eauto.
Qed.

Lemma _find_blocking_dependencies_total db :
  integrity db →
  ∀ (n : nat) self st,
    pk self ∈ all_pks db →
    (size (all_pks db ∖ st.1) < n)%nat →
    ∃ st', _find_blocking_dependencies db n self st = Ret st'.
Proof.
  intros Hi. induction n as [|n IH]; intros self [V bl] Hself Hn; [simpl in Hn; lia|].
  simpl. case_bool_decide as Hv; [eauto|]. simpl in Hn.
  pose proof (size_remaining (all_pks db) V (pk self) Hself Hv) as Hlt.
  eapply (each_rule_total (λ s, V ∪ {[pk self]} ⊆ s.1)); [|done].
  intros r [V1 bl1] Hr HV1. apply rules_elem in Hr as [Hr _].
  destruct (rule_source_flag_total db r Hi Hr) as [src Hsrc].
  rewrite Hsrc. simpl.
  apply rule_source_flag_Ret in Hsrc as [Hin _].
  destruct (is_enabled src); simpl; [|eauto].
  destruct (can_be_active_total db src Hi (stored_title _ _ Hin)) as [ok ->].
  simpl. destruct ok; simpl; [eauto|].
  destruct (IH src (V1, bl1)) as [s' Hs']; [by apply stored_pk| |].
  { simpl in *.
    assert (size (all_pks db ∖ V1) ≤ size (all_pks db ∖ (V ∪ {[pk self]})))%nat
      by (apply subseteq_size; set_solver).
    lia. }
  exists s'. split; [done|].
  apply _find_blocking_dependencies_grows in Hs' as [H1 _]. simpl in *.
  set_solver.
Qed.

Lemma _find_blocking_dependencies_sound db :
  ∀ (n : nat) self k st st',
    pk self = Some k →
    _find_blocking_dependencies db n self st = Ret st' →
    ∀ x, x ∈ st'.2 → x ∈ st.2 ∨ blocks db k x.
Proof.
  induction n as [|n IH]; intros self k [V bl] st' Hk H; [done|].
  simpl in H. case_bool_decide as Hv; [simplify_eq; eauto|].
  refine (each_rule_inv (λ s : blocking_state,
                           ∀ x, x ∈ s.2 → x ∈ bl ∨ blocks db k x)
            _ _ _ _ _ _ H); [|simpl; eauto].
  intros r [V1 bl1] s' Hr Hs Hbody. apply rules_elem in Hr as [Hr Hdep].
  rewrite Hk in Hdep. injection Hdep as Hdep.
  pose proof (depends_on_row _ _ Hr) as Hedge. rewrite Hdep in Hedge.
  apply bind_Ret in Hbody as (src & Hsrc & Hbody).
  apply rule_source_flag_Ret in Hsrc as [Hin Hpk].
  destruct (is_enabled src) eqn:Hen; simpl in Hbody.
  - apply bind_Ret in Hbody as (ok & _ & Hbody).
    destruct ok; simpl in Hbody; [by simplify_eq|].
    intros x Hx.
    destruct (IH src _ _ _ Hpk Hbody x Hx) as [Hold|Hb]; [by apply Hs|].
    right. by eapply blocks_via.
  - simplify_eq. simpl. intros x [Hx| ->%list_elem_of_singleton]%elem_of_app.
    + by apply Hs.
    + right. by eapply blocks_direct.
Qed.

Lemma handled_mono db u st st' :
  st.1 ⊆ st'.1 → (∀ x, x ∈ st.2 → x ∈ st'.2) →
  handled db u st → handled db u st'.
Proof.
  intros HV Hbl Hh r src Hr Hu Hsrc Hpk.
  destruct (Hh r src Hr Hu Hsrc Hpk) as [H1 H2]. split; eauto.
Qed.

Lemma _find_blocking_dependencies_handled db :
  integrity db →
  ∀ (n : nat) self st st',
    _find_blocking_dependencies db n self st = Ret st' →
    pk self ∈ st'.1
    ∧ ∀ u, u ∈ st'.1 → u ∉ st.1 → handled db u st'.
Proof.
  intros Hi. induction n as [|n IH]; intros self [V bl] st' H; [done|].
  simpl in H. case_bool_decide as Hv; [by simplify_eq|].
  set (body := λ rule (st : blocking_state),
         let '(visited, blocking_list) := st in
         let! src := rule_source_flag db rule in
         if negb (is_enabled src) then Ret (visited, blocking_list ++ [src])
         else
           let! ok := can_be_active db src in
           if negb ok then
             _find_blocking_dependencies db n src (visited, blocking_list)
           else Ret (visited, blocking_list)) in *.
  assert (∀ r s s', body r s = Ret s' →
            s.1 ⊆ s'.1 ∧ (∀ x, x ∈ s.2 → x ∈ s'.2)) as Hgrow.
  { intros r [V1 bl1] s' Hbody. unfold body in Hbody.
    apply bind_Ret in Hbody as (src & _ & Hbody).
    destruct (is_enabled src); simpl in Hbody.
    - apply bind_Ret in Hbody as (ok & _ & Hbody).
      destruct ok; simpl in Hbody; [by simplify_eq|].
      by apply _find_blocking_dependencies_grows in Hbody.
    - simplify_eq. simpl. split; [done|]. intros x Hx. apply elem_of_app. eauto. }
  assert (∀ rules s s',
            (∀ r, r ∈ rules → r ∈ dependencies db) →
            each_rule body rules s = Ret s' →
            s.1 ⊆ s'.1 ∧ (∀ x, x ∈ s.2 → x ∈ s'.2)
            ∧ (∀ r src, r ∈ rules → src ∈ flags db →
                 pk src = Some (source_flag_id r) →
                 (is_enabled src = false → src ∈ s'.2)
                 ∧ (is_enabled src = true → can_be_active db src = Ret false →
                    pk src ∈ s'.1))
            ∧ (∀ u, u ∈ s'.1 → u ∉ s.1 → handled db u s')) as Hgen.
  { induction rules as [|r rules IHr]; intros s s' Hsub Hl; simpl in Hl.
    - simplify_eq. split_and!; try done.
      intros r src Hr. by apply elem_of_nil in Hr.
    - apply bind_Ret in Hl as (s1 & Hbody & Hl).
      pose proof (Hgrow _ _ _ Hbody) as [Hg1 Hg2].
      apply IHr in Hl as (Hm1 & Hm2 & Hrules & Hnew);
        [|intros r0 Hr0; apply Hsub; by right].
      assert (∀ src, src ∈ flags db → pk src = Some (source_flag_id r) →
                (is_enabled src = false → src ∈ s1.2)
                ∧ (is_enabled src = true → can_be_active db src = Ret false →
                   pk src ∈ s1.1)
                ∧ (∀ u, u ∈ s1.1 → u ∉ s.1 → handled db u s1)) as Hr1.
      { intros src Hsrc Hpk. destruct s as [V1 bl1]. unfold body in Hbody.
        rewrite (get_flag_eq db _ src Hi Hsrc Hpk : rule_source_flag db r = _)
          in Hbody. simpl in Hbody.
        destruct (is_enabled src); simpl in Hbody.
        - apply bind_Ret in Hbody as (ok & Hok & Hbody).
          destruct ok; simpl in Hbody.
          + simplify_eq. split_and!; try done. congruence.
          + apply IH in Hbody as [Hself Hnew1]. split_and!; done.
        - simplify_eq. simpl. split_and!; try done.
          intros _. apply elem_of_app. right. by apply list_elem_of_singleton. }
      split_and!.
      + set_solver.
      + eauto.
      + intros r' src [->|Hr']%elem_of_cons Hsrc Hpk; [|by eapply Hrules].
        destruct (Hr1 src Hsrc Hpk) as (H1 & H2 & _). split.
        * intros Hen. apply Hm2. by apply H1.
        * intros Hen Hcan. apply Hm1. by apply H2.
      + intros u Hu Hnu. destruct (decide (u ∈ s1.1)) as [Hu1|Hu1]; [|by apply Hnew].
        destruct (fk_source _ Hi r) as (src & Hsrc & Hpk); [apply Hsub; by left|].
        destruct (Hr1 src Hsrc Hpk) as (_ & _ & H3).
        eapply handled_mono; [exact Hm1|exact Hm2|]. by apply H3. }
  apply Hgen in H as (Hm1 & Hm2 & Hrules & Hnew);
    [|intros r Hr; by apply rules_elem in Hr as [? _]].
  simpl in Hm1. split; [set_solver|].
  intros u Hu Hnu. simpl in Hnu.
  destruct (decide (u = pk self)) as [->|Hne].
  - intros r src Hr Hdep Hsrc Hpk. eapply Hrules; eauto. by apply rules_elem.
  - apply Hnew; [done|]. simpl. set_solver.
Qed.

Lemma blocks_target db k x :
  blocks db k x →
  x ∈ flags db ∧ is_enabled x = false
  ∧ ∃ kx, pk x = Some kx ∧ tc (depends_on db) k kx.
Proof.
  induction 1 as [k x kx Hedge Hx Hpk Hen|k m km x Hedge Hm Hpk Hen _ IH].
  - split_and!; try done. exists kx. split; [done|]. by apply tc_once.
  - destruct IH as (Hx & Hdis & kx & Hkx & Hreach). split_and!; try done.
    exists kx. split; [done|]. by eapply tc_l.
Qed.

(** On consistent tables the report lists every blocking flag. *)
Lemma _find_blocking_dependencies_complete db (n : nat) self k st' :
  consistent db → pk self = Some k →
  _find_blocking_dependencies db n self (∅, []) = Ret st' →
  ∀ x, blocks db k x → x ∈ st'.2.
Proof.
  intros [Hi Hac] Hk Hfind.
  apply _find_blocking_dependencies_handled in Hfind as [Hself Hh]; [|done].
  rewrite Hk in Hself. clear Hk.
  intros x Hb. revert Hself.
  induction Hb as [k x kx Hedge Hx Hpk Hen|k m km x Hedge Hm Hpk Hen Hb IH];
    intros Hself.
  - by apply (Hh (Some k) Hself (not_elem_of_empty _) _ x Hedge).
  - apply IH. rewrite <- Hpk.
    apply (Hh (Some k) Hself (not_elem_of_empty _) _ m Hedge); try done.
    destruct (blocks_target _ _ _ Hb) as (Hx & Hdis & kx & Hkx & Hreach).
    eapply (blocked_by_inactive db Hi Hac km kx Hreach m x); try done.
    + by apply same_row_stored.
    + unfold is_active. by rewrite Hdis.
Qed.

(** ** Validation and saving of a flag *)

Lemma FeatureFlag_validate_unique_ok db self :
  integrity db → same_row db self → FeatureFlag_validate_unique db self = Ret ().
Proof.
  intros Hi (f & Hf & Hpk & Ht). unfold FeatureFlag_validate_unique.
  destruct (existsb _ _) eqn:Hex; [|done]. exfalso.
  apply existsb_exists in Hex as (g & Hg & Hcond).
  apply bool_decide_eq_true in Hcond as [Htg Hne].
  apply list_elem_of_In in Hg. apply Hne. rewrite <- Hpk. f_equal.
  eapply title_inj; eauto. congruence.
Qed.

Lemma FeatureFlag_clean_fields_ok db self :
  integrity db → same_row db self → FeatureFlag_clean_fields self = Ret ().
Proof.
  intros Hi (f & Hf & _ & Ht). unfold FeatureFlag_clean_fields.
  destruct (title_valid _ Hi f Hf) as [Hne Hlen]. rewrite Ht in Hne, Hlen.
  rewrite bool_decide_eq_false_2 by done. by rewrite bool_decide_eq_true_2.
Qed.

Lemma FeatureFlag_clean_cases db self k :
  integrity db → same_row db self → pk self = Some k →
  (FeatureFlag_clean db self = Ret ()
   ∧ (is_enabled self = true → can_be_active db self = Ret true))
  ∨ (is_enabled self = true ∧ can_be_active db self = Ret false ∧
     ∃ V bl,
       _find_blocking_dependencies db (recursion_budget db) self (∅, [])
       = Ret (V, bl)
       ∧ FeatureFlag_clean db self
         = Raise (ValidationError [unmet_dependencies self bl])).
Proof.
  intros Hi Hrow Hk. unfold FeatureFlag_clean. rewrite Hk.
  destruct (is_enabled self); [|by left].
  destruct (can_be_active_total db self Hi (same_row_title _ _ Hrow)) as [ok Hok].
  rewrite Hok, bind_ret. destruct ok; cbn [negb]; [by left|]. right.
  destruct (_find_blocking_dependencies_total db Hi (recursion_budget db)
              self (∅, [])) as [[V bl] Hfind].
  { auto with flags. }
  { apply budget_pks. }
  rewrite Hfind, bind_ret. split_and!; try done. by exists V, bl.
Qed.

Lemma FeatureFlag_save_cases db self k :
  integrity db → same_row db self → pk self = Some k →
  (FeatureFlag_save db self = (update_flag self db, Ret self)
   ∧ (is_enabled self = true → can_be_active db self = Ret true))
  ∨ (is_enabled self = true ∧ can_be_active db self = Ret false ∧
     ∃ V bl,
       _find_blocking_dependencies db (recursion_budget db) self (∅, [])
       = Ret (V, bl)
       ∧ FeatureFlag_save db self
         = (db, Raise (ValidationError [unmet_dependencies self bl]))).
Proof.
  intros Hi Hrow Hk. unfold FeatureFlag_save, FeatureFlag_full_clean.
  rewrite Hk, (FeatureFlag_clean_fields_ok db self Hi Hrow),
    (FeatureFlag_validate_unique_ok db self Hi Hrow).
  destruct (FeatureFlag_clean_cases db self k Hi Hrow Hk)
    as [[-> Hact]|(Hen & Hcan & V & bl & Hfind & ->)]; simpl.
  - by left.
  - right. split_and!; try done. by exists V, bl.
Qed.

Lemma validate_reason_Ret reason_data r :
  validate_reason reason_data = Ret r ↔ reason_data = Some r ∧ r ≠ EmptyString.
Proof.
  unfold validate_reason. destruct reason_data as [r'|]; [|naive_solver].
  case_bool_decide; naive_solver.
Qed.

(** The outcomes of the toggle view on a stored flag, for a valid reason. *)
Lemma feature_flag_toggle_cases db request k r f :
  integrity db → get_flag db k = Ret f → r ≠ EmptyString →
  (feature_flag_toggle db request k (Some r)
   = (update_flag (flipped f) db, Raise (AttributeError "FLAG_TOGGLE"))
   ∧ (is_enabled f = false → can_be_active db (flipped f) = Ret true))
  ∨ (is_enabled f = false ∧ can_be_active db (flipped f) = Ret false ∧
     ∃ V bl,
       _find_blocking_dependencies db (recursion_budget db) (flipped f) (∅, [])
       = Ret (V, bl)
       ∧ feature_flag_toggle db request k (Some r)
         = (db, Raise (SerializerValidationError
                         (message_dict [unmet_dependencies (flipped f) bl])))).
Proof.
  intros Hi Hget Hr. pose proof (get_flag_Ret _ _ _ Hget) as [Hf Hk].
  unfold feature_flag_toggle, FeatureFlagToggleSerializer_update.
  rewrite Hget, (proj2 (validate_reason_Ret (Some r) r)) by done.
  fold (flipped f).
  destruct (FeatureFlag_save_cases db (flipped f) k Hi (same_row_flipped _ _ Hf) Hk)
    as [[-> Hact]|(Hen & Hcan & V & bl & Hfind & ->)]; simpl.
  - left. split; [done|]. intros Hdis. apply Hact. simpl. by rewrite Hdis.
  - right. simpl in Hen. split_and!; try done.
    + by destruct (is_enabled f).
    + by exists V, bl.
Qed.

(** ** The operations preserve integrity and acyclicity *)

Lemma consistent_empty : consistent empty_db.
Proof.
  split.
  - split; simpl; try (intros ? H; by apply elem_of_nil in H); constructor.
  - intros a Hc. apply tc_rtc_r with (z := a) in Hc; [|done].
    inversion Hc as [?? Hr|??? Hr _]; by apply elem_of_nil in Hr.
Qed.

Lemma consistent_AuditLog_create db entry :
  consistent db → consistent (AuditLog_create db entry).
Proof.
  intros [Hi Hac]. split; [|by eapply acyclic_same_rows].
  destruct Hi. by split.
Qed.

Lemma integrity_insert_dependency db d s :
  integrity db →
  (∃ f, f ∈ flags db ∧ pk f = Some d) → (∃ f, f ∈ flags db ∧ pk f = Some s) →
  ¬ depends_on db d s →
  integrity (insert_dependency {| dependent_flag_id := d; source_flag_id := s |} db).
Proof.
  intros Hi Hd Hs Hnew. destruct Hi. split; simpl; try done.
  - intros r [Hr| ->%list_elem_of_singleton]%elem_of_app; eauto.
  - intros r [Hr| ->%list_elem_of_singleton]%elem_of_app; eauto.
  - apply NoDup_app. split_and!; [done| |apply NoDup_singleton].
    intros r Hr ->%list_elem_of_singleton. done.
Qed.

Lemma consistent_Dependency_save db self :
  consistent db →
  dependent_flag self ∈ flags db → source_flag self ∈ flags db →
  consistent (fst (Dependency_save db self)).
Proof.
  intros [Hi Hac] Hdep Hsrc.
  destruct (pk_bound _ Hi _ Hdep) as (d & Hd & _).
  destruct (pk_bound _ Hi _ Hsrc) as (s & Hs & _).
  destruct (Dependency_save_cases db self d s Hi Hsrc Hd Hs)
    as [[e ->]|(Hne & Hno & Hnew & ->)]; [done|].
  simpl. split.
  - apply integrity_insert_dependency; eauto.
  - by apply acyclic_insert.
Qed.

Lemma integrity_insert_flag db t e :
  integrity db → valid_title t → (∀ f, f ∈ flags db → title f ≠ t) →
  integrity (insert_flag {| pk := Some (next_pk db); title := t;
                            is_enabled := e |} db).
Proof.
  intros Hi Hvalid Hfresh. destruct Hi. split; simpl; try done.
  - intros f [Hf| ->%list_elem_of_singleton]%elem_of_app.
    + destruct (pk_bound0 f Hf) as (k & Hk & Hlt). exists k. split; [done|lia].
    + exists (next_pk db). split; [done|lia].
  - rewrite fmap_app. apply NoDup_app. split_and!; [done| |apply NoDup_singleton].
    intros k (f & -> & Hf)%list_elem_of_fmap Hk%list_elem_of_singleton.
    simpl in Hk. destruct (pk_bound0 f Hf) as (k' & Hk' & Hlt).
    rewrite Hk' in Hk. simplify_eq. lia.
  - rewrite fmap_app. apply NoDup_app. split_and!; [done| |apply NoDup_singleton].
    intros k (f & -> & Hf)%list_elem_of_fmap Hk%list_elem_of_singleton.
    simpl in Hk. by eapply Hfresh.
  - intros f [Hf| ->%list_elem_of_singleton]%elem_of_app; [by apply title_valid0|].
    done.
  - intros r Hr. destruct (fk_dependent0 r Hr) as (f & Hf & Hpk).
    exists f. split; [|done]. apply elem_of_app. by left.
  - intros r Hr. destruct (fk_source0 r Hr) as (f & Hf & Hpk).
    exists f. split; [|done]. apply elem_of_app. by left.
Qed.

Lemma consistent_insert_flag db t e :
  consistent db → valid_title t → (∀ f, f ∈ flags db → title f ≠ t) →
  consistent (insert_flag {| pk := Some (next_pk db); title := t;
                             is_enabled := e |} db).
Proof.
  intros [Hi Hac] Hvalid Hfresh. split; [by apply integrity_insert_flag|].
  by eapply acyclic_same_rows.
Qed.

Lemma update_flag_fields db self :
  integrity db → same_row db self →
  pk <$> flags (update_flag self db) = pk <$> flags db
  ∧ title <$> flags (update_flag self db) = title <$> flags db.
Proof.
  intros Hi (f & Hf & Hpk & Ht). unfold update_flag. simpl.
  split.
  - rewrite <- list_fmap_compose. apply list_fmap_ext. 
    intros i g Hg. simpl. by case_bool_decide.
  - rewrite <- list_fmap_compose. apply list_fmap_ext.
    intros i g Hg. simpl. case_bool_decide as Heq; [|done].
    assert (g = f) as ->; [|done].
    eapply pk_inj; eauto; [|congruence]. eapply list_elem_of_lookup_2, Hg.
Qed.

Lemma elem_of_update_flag db self g :
  g ∈ flags (update_flag self db) →
  (g = self ∧ ∃ f, f ∈ flags db ∧ pk f = pk self)
  ∨ (g ∈ flags db ∧ pk g ≠ pk self).
Proof.
  unfold update_flag. simpl. intros (f & -> & Hf)%list_elem_of_fmap.
  case_bool_decide; [left|right]; eauto.
Qed.

Lemma integrity_update_flag db self :
  integrity db → same_row db self → integrity (update_flag self db).
Proof.
  intros Hi Hrow. destruct (update_flag_fields db self Hi Hrow) as [Hpks Hts].
  assert (∀ k, (∃ f, f ∈ flags db ∧ pk f = Some k) →
               ∃ f, f ∈ flags (update_flag self db) ∧ pk f = Some k) as Hfk.
  { intros k (f & Hf & Hk).
    assert (Some k ∈ pk <$> flags (update_flag self db)) as Hin.
    { rewrite Hpks. apply list_elem_of_fmap. eauto. }
    apply list_elem_of_fmap in Hin as (g & Hg & Hin). eauto. }
  split.
  - intros g [[-> (f & Hf & Hpk)]|[Hg _]]%elem_of_update_flag.
    + rewrite <- Hpk. by apply (pk_bound _ Hi).
    + by apply (pk_bound _ Hi).
  - rewrite Hpks. apply (pk_unique _ Hi).
  - rewrite Hts. apply (title_unique _ Hi).
  - intros g [[-> (f & Hf & Hpk)]|[Hg _]]%elem_of_update_flag.
    + destruct Hrow as (f' & Hf' & _ & <-). by apply (title_valid _ Hi).
    + by apply (title_valid _ Hi).
  - intros r Hr. apply Hfk. by apply (fk_dependent _ Hi).
  - intros r Hr. apply Hfk. by apply (fk_source _ Hi).
  - apply (rows_unique _ Hi).
Qed.

Lemma consistent_update_flag db self :
  consistent db → same_row db self → consistent (update_flag self db).
Proof.
  intros [Hi Hac] Hrow. split; [by apply integrity_update_flag|].
  by eapply acyclic_same_rows.
Qed.

Lemma flipped_in_update db f :
  f ∈ flags db → flipped f ∈ flags (update_flag (flipped f) db).
Proof.
  intros Hf. unfold update_flag. simpl. apply list_elem_of_fmap.
  exists f. split; [|done]. by rewrite bool_decide_eq_true_2.
Qed.

Lemma other_in_update db self g :
  g ∈ flags db → pk g ≠ pk self → g ∈ flags (update_flag self db).
Proof.
  intros Hg Hne. unfold update_flag. simpl. apply list_elem_of_fmap.
  exists g. split; [|done]. by rewrite bool_decide_eq_false_2.
Qed.

(** ** Every reachable state is consistent *)

Lemma consistent_feature_flag_toggle db request k reason_data :
  consistent db → consistent (fst (feature_flag_toggle db request k reason_data)).
Proof.
  intros Hc. destruct (get_flag_cases db k) as [(f & Hget & Hf & Hk)|Hget].
  - destruct (validate_reason reason_data) as [r| |] eqn:Hreason.
    + apply validate_reason_Ret in Hreason as [-> Hr].
      destruct (feature_flag_toggle_cases db request k r f (proj1 Hc) Hget Hr)
        as [[-> _]|(_ & _ & V & bl & _ & ->)]; simpl; [|done].
      apply consistent_update_flag; [done|]. by apply same_row_flipped.
    + unfold feature_flag_toggle. by rewrite Hget, Hreason.
    + unfold feature_flag_toggle. by rewrite Hget, Hreason.
  - unfold feature_flag_toggle. by rewrite Hget.
Qed.

Lemma DependencySerializer_create_fst db context validated_data :
  fst (DependencySerializer_create db context validated_data)
  = fst (Dependency_save db validated_data).
Proof.
  unfold DependencySerializer_create.
  destruct (Dependency_save db validated_data) as [db' [?|[]|]]; done.
Qed.

Lemma dependency_list_create_fst db request d s :
  fst (dependency_list_create db request d s) = db
  ∨ ∃ dep src, get_flag db d = Ret dep ∧ get_flag db s = Ret src
      ∧ fst (dependency_list_create db request d s)
        = fst (Dependency_save db {| dependent_flag := dep; source_flag := src |}).
Proof.
  unfold dependency_list_create, primary_key_related_field.
  destruct (get_flag db d) as [dep|[]|] eqn:Hd; try by left.
  destruct (get_flag db s) as [src|[]|] eqn:Hs; try by left.
  right. exists dep, src. split_and!; try done.
  rewrite <- DependencySerializer_create_fst with (context := Some request).
  by destruct (DependencySerializer_create _ _ _) as [db' [?|?|]].
Qed.

Lemma consistent_dependency_list_create db request d s :
  consistent db → consistent (fst (dependency_list_create db request d s)).
Proof.
  intros Hc.
  destruct (dependency_list_create_fst db request d s)
    as [->|(dep & src & Hd & Hs & ->)]; [done|].
  apply get_flag_Ret in Hd as [Hd _]. apply get_flag_Ret in Hs as [Hs _].
  by apply consistent_Dependency_save.
Qed.

Lemma create_initial_dependency_fst context feature_flag db t :
  fst (create_initial_dependency context feature_flag db t) = db
  ∨ ∃ src, src ∈ flags db ∧ title src = t ∧
      (fst (create_initial_dependency context feature_flag db t)
       = fst (Dependency_save db {| dependent_flag := feature_flag;
                                    source_flag := src |})
       ∨ ∃ entry,
           fst (create_initial_dependency context feature_flag db t)
           = AuditLog_create
               (fst (Dependency_save db {| dependent_flag := feature_flag;
                                           source_flag := src |})) entry).
Proof.
  unfold create_initial_dependency.
  destruct (get_flag_by_title db t) as [src|[]|] eqn:Hsrc; try by left.
  apply get_flag_by_title_Ret in Hsrc as [Hin Ht].
  right. exists src. split_and!; try done.
  destruct (Dependency_save _ _) as [db' [?|[]|]]; simpl; eauto.
Qed.

Lemma consistent_create_initial_dependencies context feature_flag data :
  ∀ db, consistent db → feature_flag ∈ flags db →
    consistent (fst (create_initial_dependencies context feature_flag db data)).
Proof.
  induction data as [|t data IH]; intros db Hc Hnew; simpl; [done|].
  destruct (create_initial_dependency context feature_flag db t)
    as [db1 r] eqn:Hstep.
  assert (consistent db1 ∧ feature_flag ∈ flags db1) as [Hc1 Hnew1].
  { pose proof (create_initial_dependency_fst context feature_flag db t) as Hfst.
    rewrite Hstep in Hfst. simpl in Hfst.
    destruct Hfst as [->|(src & Hsrc & _ & [->|[entry ->]])]; [done| |].
    - split; [by apply consistent_Dependency_save|].
      by rewrite Dependency_save_flags.
    - split; [by apply consistent_AuditLog_create, consistent_Dependency_save|].
      simpl. by rewrite Dependency_save_flags. }
  destruct r as [[]| |]; simpl; try done. by apply IH.
Qed.

Lemma existsb_title_false db t :
  existsb (λ f, bool_decide (title f = t)) (flags db) = false →
  ∀ f, f ∈ flags db → title f ≠ t.
Proof.
  intros Hex f Hf Ht. apply not_true_iff_false in Hex. apply Hex.
  apply existsb_exists. exists f. split; [by apply list_elem_of_In|].
  by apply bool_decide_eq_true.
Qed.

Lemma validate_title_Ret db title_data t :
  validate_title db title_data = Ret t ↔
  t = title_data ∧ valid_title t
  ∧ existsb (λ f, bool_decide (title f = t)) (flags db) = false.
Proof.
  unfold validate_title, valid_title.
  case_bool_decide as Hblank.
  { split; [done|]. intros (-> & [Hne _] & _). by destruct Hne. }
  case_bool_decide as Hlen; simpl.
  - destruct (existsb _ _) eqn:Hex.
    + split; [done|]. intros (-> & _ & Hex'). congruence.
    + split; [by intros [= <-]|]. by intros (-> & _).
  - split; [done|]. intros (-> & [_ Hlen'] & _). by destruct Hlen.
Qed.

Lemma consistent_feature_flag_list_create db request t e data :
  consistent db →
  consistent (fst (feature_flag_list_create db request t e data)).
Proof.
  intros Hc. unfold feature_flag_list_create.
  destruct (validate_title db t) as [t'| |] eqn:Htitle; try done.
  apply validate_title_Ret in Htitle as (-> & Hvalid & Hex).
  destruct (validate_initial_dependencies db data); try done.
  unfold FeatureFlagRetrieveSerializer_create, FeatureFlag_save. simpl.
  rewrite Hex.
  pose proof (consistent_create_initial_dependencies (Some request)
    {| pk := Some (next_pk db); title := t; is_enabled := e |} data
    _ (consistent_insert_flag db t e Hc Hvalid (existsb_title_false _ _ Hex)))
    as Hloop.
  destruct (create_initial_dependencies _ _ _ _) as [db2 [[]| |]]; simpl; try done.
  apply Hloop. simpl. apply elem_of_app. right. by apply list_elem_of_singleton.
Qed.

Lemma reachable_consistent db : reachable db → consistent db.
Proof.
  induction 1 as [|db request op _ IH]; [apply consistent_empty|].
  destruct op; simpl.
  - by apply consistent_feature_flag_list_create.
  - by apply consistent_feature_flag_toggle.
  - by apply consistent_dependency_list_create.
Qed.

(** ** Outcomes of the views *)

(** The view's answer when the source already reaches the dependent. *)
Lemma dependency_list_create_cycle db request d s dep src :
  consistent db →
  get_flag db d = Ret dep → get_flag db s = Ret src → d ≠ s →
  rtc (depends_on db) s d →
  ∃ p,
    dependency_list_create db request d s
    = (db, Raise (SerializerValidationError
                    [cycle_message (title dep) (title src)
                       (full_cycle_path dep (src :: p))]))
    ∧ linked db (src :: p)
    ∧ last (src :: p) = Some dep
    ∧ Forall (λ f, f ∈ flags db) p.
Proof.
  intros [Hi Hac] Hd Hs Hne Hreach.
  pose proof (get_flag_Ret _ _ _ Hd) as [Hdin Hdpk].
  pose proof (get_flag_Ret _ _ _ Hs) as [Hsin Hspk].
  unfold dependency_list_create, primary_key_related_field.
  rewrite Hd, Hs.
  unfold DependencySerializer_create, Dependency_save, Dependency_full_clean.
  set (self := {| dependent_flag := dep; source_flag := src |}).
  destruct (Dependency_clean_cases db self d s Hi Hsin Hdpk Hspk)
    as [[? _]|[(_ & _ & p & e & Hclean & Hl & Hlast & He & Hall)|(_ & Hno & _)]];
    [done| |done].
  destruct (Dependency_validate_unique_cases db self d s Hdpk Hspk)
    as [[Hdup _]|[_ Huniq]].
  { destruct (Hac d). by eapply tc_rtc_r; [apply tc_once|]. }
  rewrite Hclean, Huniq. simpl. exists p. split_and!; try done.
  assert (e = dep) as ->; [|done].
  apply last_cons_elem in Hlast as [[-> ->]|Hin].
  - simpl in He. congruence.
  - eapply pk_inj; eauto. by eapply Forall_forall in Hall.
Qed.

(** The same on every reachable state: a toggle either is rejected by
    validation or raises the [AttributeError]. *)
Lemma feature_flag_toggle_never_succeeds db request k reason_data r :
  reachable db →
  snd (feature_flag_toggle db request k reason_data) = Ret r →
  r = HTTP_404_NOT_FOUND.
Proof.
  intros [Hi _]%reachable_consistent.
  destruct (get_flag_cases db k) as [(f & Hget & _)|Hget].
  - destruct (validate_reason reason_data) as [r'| |] eqn:Hreason.
    + apply validate_reason_Ret in Hreason as [-> Hr].
      destruct (feature_flag_toggle_cases db request k r' f Hi Hget Hr)
        as [[-> _]|(_ & _ & V & bl & _ & ->)]; done.
    + unfold feature_flag_toggle. by rewrite Hget, Hreason.
    + unfold feature_flag_toggle. by rewrite Hget, Hreason.
  - unfold feature_flag_toggle. rewrite Hget. simpl. congruence.
Qed.

(** The loop over the initial dependencies of a fresh flag [new] succeeds
    for distinct stored sources: nothing leads into [new], so no search finds
    it, and no row is repeated. *)
Lemma create_initial_dependencies_ok context new n :
  pk new = Some n →
  ∀ srcs db,
    consistent db → new ∈ flags db →
    (∀ r, r ∈ dependencies db → source_flag_id r ≠ n) →
    NoDup srcs →
    (∀ s, s ∈ srcs → s ∈ flags db ∧ pk s ≠ Some n
                     ∧ ∀ ks, pk s = Some ks → ¬ depends_on db n ks) →
    ∃ db' rows,
      create_initial_dependencies context new db (title <$> srcs) = (db', Ret ())
      ∧ flags db' = flags db
      ∧ dependencies db' = dependencies db ++ rows
      ∧ Forall2 (λ s r, dependent_flag_id r = n ∧ pk s = Some (source_flag_id r))
          srcs rows.
Proof.
  intros Hn. induction srcs as [|s srcs IH]; intros db Hc Hnew Hinto Hnd Hsrcs.
  { exists db, []. simpl. split_and!; try done. by rewrite app_nil_r. }
  apply NoDup_cons in Hnd as [Hs_notin Hnd].
  destruct (Hsrcs s) as (Hs & Hsn & Hfresh); [by left|].
  destruct (pk_bound _ (proj1 Hc) s Hs) as (ks & Hks & _).
  assert (n ≠ ks) as Hne by congruence.
  assert (¬ rtc (depends_on db) ks n) as Hno.
  { intros [->|(y & _ & Hedge)]%rtc_inv_r; [done|].
    by apply (Hinto _ Hedge). }
  set (self := {| dependent_flag := new; source_flag := s |}).
  pose proof (Dependency_save_ok db self n ks (proj1 Hc) Hs Hn Hks Hne Hno
                (Hfresh ks Hks)) as Hsave.
  set (db1 := AuditLog_create
                (insert_dependency {| dependent_flag_id := n;
                                      source_flag_id := ks |} db)
                {| flag := pk s; creator := context_creator context;
                   log_type := CREATE; reason := EmptyString |}).
  assert (create_initial_dependency context new db (title s) = (db1, Ret ()))
    as Hstep.
  { unfold create_initial_dependency.
    rewrite (get_flag_by_title_stored db s (proj1 Hc) Hs).
    fold self. by rewrite Hsave. }
  destruct (IH db1) as (db' & rows & Hloop & Hflags & Hrows & Hall).
  - apply consistent_AuditLog_create.
    pose proof (consistent_Dependency_save db self Hc Hnew Hs) as Hc1.
    by rewrite Hsave in Hc1.
  - done.
  - simpl. intros r [Hr| ->%list_elem_of_singleton]%elem_of_app; [by apply Hinto|].
    simpl. congruence.
  - done.
  - intros s' Hs'. destruct (Hsrcs s') as (Hs'in & Hs'n & Hs'fresh); [by right|].
    split_and!; try done. intros ks' Hks' Hdep.
    apply depends_on_insert in Hdep as [Hdep|[_ Heq]]; [by eapply Hs'fresh|].
    simpl in Heq. subst ks'. apply Hs_notin.
    assert (s' = s) as -> by (eapply pk_inj; eauto; [apply Hc|congruence]).
    done.
  - exists db', ({| dependent_flag_id := n; source_flag_id := ks |} :: rows).
    simpl. rewrite Hstep. simpl in *. split_and!; try done.
    + rewrite Hrows. by rewrite <- app_assoc.
    + by constructor.
Qed.

Lemma validate_initial_dependencies_ok db srcs :
  integrity db → (∀ s, s ∈ srcs → s ∈ flags db) →
  validate_initial_dependencies db (title <$> srcs) = Ret ().
Proof.
  intros Hi. induction srcs as [|s srcs IH]; intros Hsrcs; simpl; [done|].
  unfold validate_source_flag_title.
  rewrite (get_flag_by_title_stored db s Hi) by (apply Hsrcs; by left).
  simpl. apply IH. intros s' Hs'. apply Hsrcs. by right.
Qed.

Lemma feature_flag_list_create_rollback db request t e data :
  (∀ r, snd (feature_flag_list_create db request t e data) ≠ Ret r) →
  fst (feature_flag_list_create db request t e data) = db.
Proof.
  unfold feature_flag_list_create. destruct (validate_title db t); try done.
  destruct (validate_initial_dependencies db data); try done.
  unfold FeatureFlagRetrieveSerializer_create.
  destruct (FeatureFlag_save db _) as [db1 [ff| |]]; simpl; try done.
  destruct (create_initial_dependencies _ _ _ _) as [db2 [[]| |]]; simpl; try done.
  intros Hfail. by destruct (Hfail (HTTP_201_CREATED ff)).
Qed.

(** ** The scenarios *)

(** tests.py, [test_complex_circular_dependency_scenario]: the search
    backtracks out of B and C and reports the path through D. *)
Example test_complex_circular_dependency_scenario :
  Dependency_save db_complex
    {| dependent_flag := mkflag 5 "FlagE" false;
       source_flag := mkflag 1 "FlagA" false |}
  = (db_complex,
     Raise (dependency_conflict
       "This dependency creates a circular relationship. Adding 'FlagE' depending on 'FlagA' would form a direct or indirect cycle: FlagE -> FlagA -> FlagD -> FlagE. Please remove the existing dependency that causes this cycle, or re-evaluate your flag structure.")).
Proof. by vm_compute. Qed.

(** tests.py, [test_no_circular_dependency_on_branching_graph]: a diamond is
    not a cycle. *)
Example test_no_circular_dependency_on_branching_graph :
  dependencies
    (fst (Dependency_save db_complex
            {| dependent_flag := mkflag 3 "FlagC" false;
               source_flag := mkflag 5 "FlagE" false |}))
  = dependencies db_complex ++ [mkdep 3 5].
Proof. by vm_compute. Qed.

(** tests.py, [test_prevent_self_dependency]. *)
Example test_prevent_self_dependency :
  Dependency_save db_complex
    {| dependent_flag := mkflag 1 "FlagA" false;
       source_flag := mkflag 1 "FlagA" false |}
  = (db_complex,
     Raise (dependency_conflict
       "A feature flag cannot depend on itself. Please select two different flags.")).
Proof. by vm_compute. Qed.

(** tests.py, [test_feature_flag_is_active_with_dependencies]: saving A as
    disabled makes B, which depends on A, inactive. *)
Example test_feature_flag_is_active_with_dependencies :
  is_active db_AB (mkflag 2 "B" true) = Ret true
  ∧ is_active (fst (FeatureFlag_save db_AB (mkflag 1 "A" false)))
      (mkflag 2 "B" true) = Ret false.
Proof. by vm_compute. Qed.

Example db_ABC_tables :
  flags db_ABC = [mkflag 1 "A" true; mkflag 2 "B" true; mkflag 3 "C" true]
  ∧ dependencies db_ABC = [mkdep 2 1; mkdep 3 2].
Proof. by vm_compute. Qed.

Lemma integrity_db_cyclic : integrity db_cyclic.
Proof.
  split; simpl.
  - intros f Hf. repeat (apply elem_of_cons in Hf as [->|Hf]);
      [eexists; split; [reflexivity|lia]..|by apply elem_of_nil in Hf].
  - apply (bool_decide_unpack _). by vm_compute.
  - apply (bool_decide_unpack _). by vm_compute.
  - intros f Hf. repeat (apply elem_of_cons in Hf as [->|Hf]);
      [split; [done|simpl; lia]..|by apply elem_of_nil in Hf].
  - intros r Hr. repeat (apply elem_of_cons in Hr as [->|Hr]);
      [exists (mkflag 1 "A" true)|exists (mkflag 2 "B" true)
      |by apply elem_of_nil in Hr]; (split; [set_solver|done]).
  - intros r Hr. repeat (apply elem_of_cons in Hr as [->|Hr]);
      [exists (mkflag 2 "B" true)|exists (mkflag 1 "A" true)
      |by apply elem_of_nil in Hr]; (split; [set_solver|done]).
  - apply (bool_decide_unpack _). by vm_compute.
Qed.

(** ** The evaluator in closed form *)

Lemma for_rules_all_true body rules b :
  (∀ r b', r ∈ rules → body r = Ret b' → b' = true) →
  for_rules body rules = Ret b → b = true.
Proof.
  induction rules as [|r rules IH]; simpl; intros Hb H; [by simplify_eq|].
  apply bind_Ret in H as (b0 & Hr & H).
  assert (b0 = true) as -> by (eapply Hb; [by left|done]).
  apply IH; [|done]. intros r' b' Hr'. apply Hb. by right.
Qed.

Lemma for_rules_false_inv body rules :
  for_rules body rules = Ret false → ∃ r, r ∈ rules ∧ body r = Ret false.
Proof.
  induction rules as [|r rules IH]; simpl; intros H; [done|].
  apply bind_Ret in H as (b0 & Hr & H). destruct b0.
  - destruct (IH H) as (r' & Hr' & Hb). exists r'. split; [by right|done].
  - exists r. split; [by left|done].
Qed.

Lemma for_rules_some_false body rules r b :
  r ∈ rules → (∀ b', body r = Ret b' → b' = false) →
  for_rules body rules = Ret b → b = false.
Proof.
  induction rules as [|r0 rules IH]; simpl; intros Hr Hb H.
  { by apply elem_of_nil in Hr. }
  apply bind_Ret in H as (b0 & Hr0 & H). destruct b0; [|by simplify_eq].
  apply elem_of_cons in Hr as [->|Hr]; [|by apply IH].
  by specialize (Hb _ Hr0).
Qed.

Lemma rule_edge db self k r :
  pk self = Some k → r ∈ dependency_rules_as_dependent db self →
  r ∈ dependencies db ∧ depends_on db k (source_flag_id r).
Proof.
  intros Hk [Hr Hdep]%rules_elem. split; [done|].
  rewrite Hk in Hdep. injection Hdep as <-. by apply depends_on_row.
Qed.

Lemma check_plain_enabled db :
  ∀ (n : nat) self k b,
    pk self = Some k → dependencies_enabled db k →
    check_plain db n self = Ret b → b = true.
Proof.
  induction n as [|n IH]; intros self k b Hk Hall H; [done|].
  simpl in H. eapply for_rules_all_true; [|exact H].
  intros r b' Hr Hbody. destruct (rule_edge db self k r Hk Hr) as [_ Hedge].
  apply bind_Ret in Hbody as (src & Hsrc & Hbody).
  apply rule_source_flag_Ret in Hsrc as [Hin Hpk].
  rewrite (Hall src _ Hin Hpk (tc_once _ _ _ Hedge)) in Hbody. simpl in Hbody.
  eapply (IH src _ b' Hpk); [|done].
  intros x kx Hx Hkx Hreach. eapply Hall; eauto. by eapply tc_l.
Qed.

Lemma check_plain_blocked db :
  ∀ (n : nat) self k,
    pk self = Some k → check_plain db n self = Ret false →
    ∃ x, blocks db k x.
Proof.
  induction n as [|n IH]; intros self k Hk H; [done|].
  simpl in H. apply for_rules_false_inv in H as (r & Hr & Hbody).
  destruct (rule_edge db self k r Hk Hr) as [_ Hedge].
  apply bind_Ret in Hbody as (src & Hsrc & Hbody).
  apply rule_source_flag_Ret in Hsrc as [Hin Hpk].
  destruct (is_enabled src) eqn:Hen; simpl in Hbody.
  - destruct (IH src _ Hpk Hbody) as [x Hx]. exists x. by eapply blocks_via.
  - exists src. by eapply blocks_direct.
Qed.

Section AcyclicTablesClosedForm.
Context (db : DB) (Hi : integrity db) (Hac : acyclic db).

Lemma can_be_active_true_iff self k :
  same_row db self → pk self = Some k →
  can_be_active db self = Ret true ↔ dependencies_enabled db k.
Proof.
  intros Hrow Hk. split.
  - intros Hcan x kx Hx Hkx Hreach.
    destruct (is_enabled x) eqn:Hen; [done|].
    rewrite (blocked_by_inactive db Hi Hac k kx Hreach self x) in Hcan; try done.
    unfold is_active. by rewrite Hen.
  - intros Hall.
    destruct (can_be_active_total db self Hi (same_row_title _ _ Hrow)) as [b Hb].
    rewrite Hb. f_equal.
    rewrite (can_be_active_plain db Hi Hac self k) in Hb by done.
    by eapply check_plain_enabled.
Qed.

Lemma can_be_active_false_blocked self k :
  same_row db self → pk self = Some k →
  can_be_active db self = Ret false → ∃ x, blocks db k x.
Proof.
  intros Hrow Hk Hcan.
  rewrite (can_be_active_plain db Hi Hac self k) in Hcan by done.
  by eapply check_plain_blocked.
Qed.

Lemma is_active_true_iff f k :
  f ∈ flags db → pk f = Some k →
  ∃ b, is_active db f = Ret b
       ∧ (b = true ↔ is_enabled f = true ∧ dependencies_enabled db k).
Proof.
  intros Hf Hk.
  destruct (is_active_total db f Hi (stored_title _ _ Hf)) as [b Hb].
  exists b. split; [done|].
  pose proof (can_be_active_true_iff f k (same_row_stored _ _ Hf) Hk) as Hiff.
  unfold is_active in Hb. destruct (is_enabled f); simpl in Hb.
  - rewrite <- Hiff. split.
    + intros ->. done.
    + intros [_ Hcan]. congruence.
  - simplify_eq. naive_solver.
Qed.

End AcyclicTablesClosedForm.

(** ** The evaluator on tables with cycles *)

Lemma rule_of_edge db self k k1 :
  pk self = Some k → depends_on db k k1 →
  {| dependent_flag_id := k; source_flag_id := k1 |}
    ∈ dependency_rules_as_dependent db self.
Proof. intros Hk Hedge. apply rules_elem. by rewrite Hk. Qed.

(** A call on a flag that reaches a flag whose title is in the visited set
    answers [False]. *)
Lemma _check_dependencies_recursively_revisit db :
  integrity db →
  ∀ k ky, rtc (depends_on db) k ky →
  ∀ (n : nat) self y V b,
    self ∈ flags db → pk self = Some k →
    y ∈ flags db → pk y = Some ky → title y ∈ V →
    _check_dependencies_recursively db n self V = Ret b → b = false.
Proof.
  intros Hi k ky Hreach.
  induction Hreach as [k|k k1 ky Hedge _ IH];
    intros n self y V b Hself Hk Hy Hky HV H;
    (destruct n as [|n]; [done|]); simpl in H.
  - assert (self = y) as -> by (eapply pk_inj; eauto; congruence).
    rewrite bool_decide_eq_true_2 in H by done. by simplify_eq.
  - case_bool_decide as Hv; [by simplify_eq|].
    eapply for_rules_some_false; [by apply (rule_of_edge db self k k1)| |exact H].
    intros b' Hbody. apply bind_Ret in Hbody as (src & Hsrc & Hbody).
    apply rule_source_flag_Ret in Hsrc as [Hin Hpk]. simpl in Hpk.
    destruct (is_enabled src); simpl in Hbody; [|by simplify_eq].
    eapply (IH n src y (V ∪ {[title self]})); try done.
    apply elem_of_union. by left.
Qed.

(** So does a call on a flag that reaches a cycle. *)
Lemma _check_dependencies_recursively_cycle db :
  integrity db →
  ∀ k c, rtc (depends_on db) k c → tc (depends_on db) c c →
  ∀ (n : nat) self V b,
    self ∈ flags db → pk self = Some k →
    _check_dependencies_recursively db n self V = Ret b → b = false.
Proof.
  intros Hi k c Hreach.
  induction Hreach as [c|k k1 c Hedge _ IH];
    intros Hcyc n self V b Hself Hk H;
    (destruct n as [|n]; [done|]); simpl in H;
    (case_bool_decide as Hv; [by simplify_eq|]).
  - assert (∃ c1, depends_on db c c1 ∧ rtc (depends_on db) c1 c)
      as (c1 & Hedge & Hback).
    { inversion Hcyc as [?? Hedge|? c1 ? Hedge Hrest]; subst.
      - by exists c.
      - exists c1. split; [done|]. by apply tc_rtc. }
    eapply for_rules_some_false; [by apply (rule_of_edge db self c c1)| |exact H].
    intros b' Hbody. apply bind_Ret in Hbody as (src & Hsrc & Hbody).
    apply rule_source_flag_Ret in Hsrc as [Hin Hpk]. simpl in Hpk.
    destruct (is_enabled src); simpl in Hbody; [|by simplify_eq].
    eapply (_check_dependencies_recursively_revisit db Hi c1 c Hback n src self
              (V ∪ {[title self]})); try done.
    apply elem_of_union. right. by apply elem_of_singleton.
  - eapply for_rules_some_false; [by apply (rule_of_edge db self k k1)| |exact H].
    intros b' Hbody. apply bind_Ret in Hbody as (src & Hsrc & Hbody).
    apply rule_source_flag_Ret in Hsrc as [Hin Hpk]. simpl in Hpk.
    destruct (is_enabled src); simpl in Hbody; [|by simplify_eq].
    by eapply (IH Hcyc n src).
Qed.

Lemma can_be_active_cycle db f k c :
  integrity db → f ∈ flags db → pk f = Some k →
  rtc (depends_on db) k c → tc (depends_on db) c c →
  can_be_active db f = Ret false.
Proof.
  intros Hi Hf Hk Hreach Hcyc.
  destruct (can_be_active_total db f Hi (stored_title _ _ Hf)) as [b Hb].
  rewrite Hb. f_equal.
  by eapply (_check_dependencies_recursively_cycle db Hi k c Hreach Hcyc).
Qed.

(** A call on a flag that reaches a disabled flag answers [False], on any
    tables. *)
Lemma _check_dependencies_recursively_disabled db :
  ∀ k kx, tc (depends_on db) k kx →
  ∀ (n : nat) self x V b,
    integrity db → pk self = Some k →
    x ∈ flags db → pk x = Some kx → is_enabled x = false →
    _check_dependencies_recursively db n self V = Ret b → b = false.
Proof.
  intros k kx Hreach.
  induction Hreach as [k kx Hedge|k k1 kx Hedge _ IH];
    intros n self x V b Hi Hk Hx Hkx Hdis H;
    (destruct n as [|n]; [done|]); simpl in H;
    (case_bool_decide as Hv; [by simplify_eq|]).
  - eapply for_rules_some_false; [by apply (rule_of_edge db self k kx)| |exact H].
    intros b' Hbody. apply bind_Ret in Hbody as (src & Hsrc & Hbody).
    apply rule_source_flag_Ret in Hsrc as [Hin Hpk]. simpl in Hpk.
    assert (src = x) as -> by (eapply pk_inj; eauto; congruence).
    rewrite Hdis in Hbody. by simplify_eq/=.
  - eapply for_rules_some_false; [by apply (rule_of_edge db self k k1)| |exact H].
    intros b' Hbody. apply bind_Ret in Hbody as (src & Hsrc & Hbody).
    apply rule_source_flag_Ret in Hsrc as [Hin Hpk]. simpl in Hpk.
    destruct (is_enabled src); simpl in Hbody; [|by simplify_eq].
    by eapply (IH n src x).
Qed.

(** A call on a flag that reaches enabled flags only, and no cycle, answers
    [True] when the visited set holds titles of its ancestors only. *)
Lemma _check_dependencies_recursively_enabled db :
  integrity db →
  ∀ (n : nat) self k V b,
    self ∈ flags db → pk self = Some k →
    dependencies_enabled db k → ¬ reaches_cycle db k →
    ancestors_only db V k →
    _check_dependencies_recursively db n self V = Ret b → b = true.
Proof.
  intros Hi. induction n as [|n IH]; intros self k V b Hself Hk Hen Hno HV H;
    [done|].
  simpl in H. case_bool_decide as Hv.
  { exfalso. destruct (HV _ Hv) as (y & ky & Hy & Hyt & Hypk & Hreach).
    assert (y = self) as -> by (by eapply title_inj).
    apply Hno. exists k. split; [done|]. congruence. }
  eapply for_rules_all_true; [|exact H].
  intros r b' Hr Hbody. destruct (rule_edge db self k r Hk Hr) as [_ Hedge].
  apply bind_Ret in Hbody as (src & Hsrc & Hbody).
  apply rule_source_flag_Ret in Hsrc as [Hin Hpk].
  rewrite (Hen src _ Hin Hpk (tc_once _ _ _ Hedge)) in Hbody. simpl in Hbody.
  eapply (IH src (source_flag_id r)); [done|done| | | |exact Hbody].
  - intros x kx Hx Hkx Hreach. eapply Hen; eauto. by eapply tc_l.
  - intros (c & Hreach & Hcyc). apply Hno. exists c. split; [|done].
    by eapply rtc_l.
  - intros t [Ht|Ht]%elem_of_union.
    + destruct (HV _ Ht) as (y & ky & Hy & Hyt & Hypk & Hreach).
      exists y, ky. split_and!; try done. by eapply tc_r.
    + apply elem_of_singleton in Ht as ->.
      exists self, k. split_and!; try done. by apply tc_once.
Qed.

Lemma can_be_active_general db f k :
  integrity db → f ∈ flags db → pk f = Some k →
  ∃ b, can_be_active db f = Ret b
       ∧ (b = true ↔ dependencies_enabled db k ∧ ¬ reaches_cycle db k).
Proof.
  intros Hi Hf Hk.
  destruct (can_be_active_total db f Hi (stored_title _ _ Hf)) as [b Hb].
  exists b. split; [done|]. split.
  - intros ->. split.
    + intros x kx Hx Hkx Hreach. destruct (is_enabled x) eqn:Hen; [done|].
      by pose proof (_check_dependencies_recursively_disabled db k kx Hreach
                       _ f x _ _ Hi Hk Hx Hkx Hen Hb).
    + intros (c & Hreach & Hcyc).
      by pose proof (_check_dependencies_recursively_cycle db Hi k c Hreach Hcyc
                       _ f _ _ Hf Hk Hb).
  - intros [Hen Hno].
    eapply (_check_dependencies_recursively_enabled db Hi _ f k ∅); eauto.
    intros t Ht. by apply elem_of_empty in Ht.
Qed.

(** ** Saving a stored flag *)

Lemma self_in_update db self :
  same_row db self → self ∈ flags (update_flag self db).
Proof.
  intros (f & Hf & Hpk & _). unfold update_flag. simpl.
  apply list_elem_of_fmap. exists f. split; [|done].
  by rewrite bool_decide_eq_true_2.
Qed.

Lemma get_flag_update db self k :
  integrity db → same_row db self → pk self = Some k →
  get_flag (update_flag self db) k = Ret self.
Proof.
  intros Hi Hrow Hk. apply get_flag_eq; [|by apply self_in_update|done].
  by apply integrity_update_flag.
Qed.

Lemma blocks_not_enabled db k x :
  blocks db k x → ¬ dependencies_enabled db k.
Proof.
  intros (Hx & Hdis & kx & Hkx & Hreach)%blocks_target Hall.
  rewrite (Hall x kx Hx Hkx Hreach) in Hdis. done.
Qed.

(** ** The path found by the cycle search is simple *)

Section CycleSearchPath.
Context (db : DB) (tgt : FeatureFlag).

Lemma simple_search_false (n : nat) cur st st' :
  _find_path_and_detect_cycle db n cur tgt st = Ret (false, st') →
  simple_search tgt st → simple_search tgt st'.
Proof.
  intros Hfind (Hnd & Hsub & Htgt).
  pose proof (_find_path_and_detect_cycle_path _ _ _ _ _ _ _ Hfind) as Hpath.
  pose proof (_find_path_and_detect_cycle_visited _ _ _ _ _ _ _ Hfind) as Hvis.
  pose proof (_find_path_and_detect_cycle_nontarget _ _ _ _ _ _ _ Hfind) as Hnt.
  simpl in Hpath. unfold simple_search. rewrite Hpath. split_and!; [done| |].
  - intros f Hf. apply Hvis. by apply Hsub.
  - intros Hin. apply (Hnt ltac:(intros u Hu ->; done) _ Hin). done.
Qed.

Lemma simple_search_push cur st :
  simple_search tgt st → pk cur ≠ pk tgt → pk cur ∉ visited st →
  simple_search tgt (path_append cur (visited_add (pk cur) st)).
Proof.
  intros (Hnd & Hsub & Htgt) Hne Hv. unfold simple_search. simpl.
  split_and!.
  - rewrite fmap_app. apply NoDup_app. split_and!; [done| |apply NoDup_singleton].
    intros k (f & -> & Hf)%list_elem_of_fmap Heq%list_elem_of_singleton.
    apply Hv. rewrite <- Heq. by apply Hsub.
  - intros f [Hf| ->%list_elem_of_singleton]%elem_of_app; [|set_solver].
    apply elem_of_union. left. by apply Hsub.
  - intros [Hin|Hin%elem_of_singleton]%elem_of_union; [done|]. congruence.
Qed.

Lemma _find_path_and_detect_cycle_simple :
  ∀ (n : nat) cur st st',
    _find_path_and_detect_cycle db n cur tgt st = Ret (true, st') →
    simple_search tgt st → NoDup (pk <$> path_list st').
Proof.
  induction n as [|n IH]; intros cur st st' H Hsimple; [done|].
  simpl in H. case_bool_decide as Htgt.
  { simplify_eq. destruct Hsimple as (Hnd & Hsub & Hnt). simpl.
    rewrite fmap_app. apply NoDup_app. split_and!; [done| |apply NoDup_singleton].
    intros k (f & -> & Hf)%list_elem_of_fmap Heq%list_elem_of_singleton.
    apply Hnt. rewrite <- Htgt, <- Heq. by apply Hsub. }
  case_bool_decide as Hv; [by simplify_eq|].
  apply bind_Ret in H as ([found st2] & Hloop & H).
  destruct found; [|by simplify_eq]. simplify_eq.
  eapply (first_rule_cases (simple_search tgt)) in Hloop.
  - destruct Hloop as (r & s1 & _ & Hs1 & Hbody).
    apply bind_Ret in Hbody as (next & _ & Hfind). by eapply IH.
  - intros r s s' _ Hs Hbody.
    apply bind_Ret in Hbody as (next & _ & Hfind).
    by eapply simple_search_false.
  - by apply simple_search_push.
Qed.

End CycleSearchPath.

Lemma simple_search_empty tgt : simple_search tgt empty_search.
Proof.
  unfold simple_search. simpl. split_and!; [constructor| |set_solver].
  intros f Hf. by apply elem_of_nil in Hf.
Qed.

Lemma NoDup_titles db l :
  integrity db → Forall (λ f, f ∈ flags db) l → NoDup (pk <$> l) →
  NoDup (title <$> l).
Proof.
  intros Hi Hall Hnd. apply NoDup_fmap_2_strong; [|by eapply NoDup_fmap_1].
  intros x y Hx Hy Ht. rewrite Forall_forall in Hall.
  eapply title_inj; eauto.
Qed.

(** ** The outcomes of adding a dependency *)

Lemma dependency_list_create_cases db request d s :
  integrity db →
  (∃ dep src,
     get_flag db d = Ret dep ∧ get_flag db s = Ret src
     ∧ d ≠ s ∧ ¬ rtc (depends_on db) s d ∧ ¬ depends_on db d s
     ∧ dependency_list_create db request d s
       = (insert_dependency {| dependent_flag_id := d; source_flag_id := s |} db,
          Ret (HTTP_201_CREATED {| dependent_flag := dep; source_flag := src |})))
  ∨ (∃ detail,
       dependency_list_create db request d s
       = (db, Raise (SerializerValidationError detail))).
Proof.
  intros Hi. unfold dependency_list_create, primary_key_related_field.
  destruct (get_flag_cases db d) as [(dep & Hd & Hdin & Hdpk)| ->]; [|eauto].
  destruct (get_flag_cases db s) as [(src & Hs & Hsin & Hspk)| Hs];
    rewrite Hd, Hs; [|eauto].
  unfold DependencySerializer_create.
  set (self := {| dependent_flag := dep; source_flag := src |}).
  destruct (Dependency_save_cases db self d s Hi Hsin Hdpk Hspk)
    as [[e ->]|(Hne & Hno & Hnew & ->)]; [eauto|].
  left. exists dep, src. split_and!; done.
Qed.

(** ** The outcomes of creating a flag *)

Lemma create_initial_dependency_cases context new n db t :
  integrity db → pk new = Some n →
  (∃ s ks,
     s ∈ flags db ∧ title s = t ∧ pk s = Some ks
     ∧ ¬ rtc (depends_on db) ks n ∧ ¬ depends_on db n ks
     ∧ create_initial_dependency context new db t
       = (AuditLog_create
            (insert_dependency {| dependent_flag_id := n; source_flag_id := ks |} db)
            (initial_dependency_entry context s),
          Ret ()))
  ∨ (∃ detail,
       create_initial_dependency context new db t
       = (db, Raise (SerializerValidationError detail))).
Proof.
  intros Hi Hn. unfold create_initial_dependency.
  destruct (get_flag_by_title db t) as [s|e|] eqn:Hget.
  - apply get_flag_by_title_Ret in Hget as [Hs Ht].
    destruct (pk_bound _ Hi s Hs) as (ks & Hks & _).
    destruct (Dependency_save_cases db {| dependent_flag := new; source_flag := s |}
                n ks Hi Hs Hn Hks) as [[e ->]|(_ & Hno & Hnew & ->)]; [eauto|].
    left. exists s, ks. by split_and!.
  - unfold get_flag_by_title in Hget.
    destruct (List.find _ _); simplify_eq. eauto.
  - unfold get_flag_by_title in Hget. by destruct (List.find _ _).
Qed.

(** The loop over the initial dependencies either fails with a validation
    error or has appended one row and one log entry per title. *)
Lemma create_initial_dependencies_cases context new n :
  pk new = Some n →
  ∀ data db, consistent db → new ∈ flags db →
    (∃ db' srcs rows,
       create_initial_dependencies context new db data = (db', Ret ())
       ∧ data = title <$> srcs
       ∧ Forall (λ s, s ∈ flags db) srcs
       ∧ Forall2 (λ s r, dependent_flag_id r = n ∧ pk s = Some (source_flag_id r))
           srcs rows
       ∧ flags db' = flags db ∧ next_pk db' = next_pk db
       ∧ dependencies db' = dependencies db ++ rows
       ∧ logs db' = logs db ++ (initial_dependency_entry context <$> srcs))
    ∨ (∃ db1 detail,
         create_initial_dependencies context new db data
         = (db1, Raise (SerializerValidationError detail))).
Proof.
  intros Hn. induction data as [|t data IH]; intros db Hc Hnew.
  { left. exists db, [], []. simpl. rewrite !app_nil_r. by split_and!. }
  simpl.
  destruct (create_initial_dependency_cases context new n db t (proj1 Hc) Hn)
    as [(s & ks & Hs & Ht & Hks & Hno & Hfresh & ->)|[detail ->]]; [|eauto].
  set (db1 := AuditLog_create _ _).
  assert (consistent db1) as Hc1.
  { apply consistent_AuditLog_create. split.
    - apply integrity_insert_dependency; eauto. apply Hc.
    - by apply acyclic_insert; [apply Hc|]. }
  destruct (IH db1 Hc1 Hnew)
    as [(db' & srcs & rows & -> & -> & Hall & Hrows & Hfl & Hnext & Hdeps & Hlogs)
       |(db2 & detail & ->)]; [|eauto].
  left. exists db', (s :: srcs),
    ({| dependent_flag_id := n; source_flag_id := ks |} :: rows).
  simpl in *. split_and!; try done.
  - by rewrite Ht.
  - by constructor.
  - by constructor.
  - by rewrite Hdeps, <- app_assoc.
  - by rewrite Hlogs, <- app_assoc.
Qed.

Lemma validate_title_cases db title_data :
  validate_title db title_data = Ret title_data
  ∨ ∃ detail, validate_title db title_data = Raise (SerializerValidationError detail).
Proof.
  unfold validate_title. case_bool_decide; [eauto|].
  destruct (negb _); [eauto|]. destruct (existsb _ _); eauto.
Qed.

Lemma validate_initial_dependencies_cases db data :
  (validate_initial_dependencies db data = Ret ()
   ∧ ∀ x, x ∈ data → ∃ f, f ∈ flags db ∧ title f = x)
  ∨ ∃ detail,
      validate_initial_dependencies db data
      = Raise (SerializerValidationError detail).
Proof.
  induction data as [|x data IH]; simpl.
  { left. split; [done|]. intros x Hx. by apply elem_of_nil in Hx. }
  unfold validate_source_flag_title.
  destruct (get_flag_by_title db x) as [f|e|] eqn:Hget; simpl.
  - apply get_flag_by_title_Ret in Hget as [Hf Ht].
    destruct IH as [[-> Hall]|[detail ->]]; [|eauto].
    left. split; [done|]. intros y [->|Hy]%elem_of_cons; eauto.
  - unfold get_flag_by_title in Hget.
    destruct (List.find _ _); simplify_eq. eauto.
  - unfold get_flag_by_title in Hget. by destruct (List.find _ _).
Qed.

Lemma rows_NoDup_sources n srcs rows :
  Forall2 (λ s r, dependent_flag_id r = n ∧ pk s = Some (source_flag_id r))
    srcs rows →
  NoDup rows → NoDup (pk <$> srcs).
Proof.
  induction 1 as [|s r srcs rows [Hd Hs] Hall IH]; intros Hnd; [constructor|].
  apply NoDup_cons in Hnd as [Hr Hnd]. rewrite fmap_cons.
  apply NoDup_cons. split; [|by apply IH].
  intros (s' & Heq & Hs')%list_elem_of_fmap. apply Hr.
  apply list_elem_of_lookup in Hs' as [i Hi].
  destruct (Forall2_lookup_l _ _ _ _ _ Hall Hi) as (r' & Hr' & Hd' & Hs'').
  assert (r = r') as ->; [|by eapply list_elem_of_lookup_2].
  destruct r, r'. simpl in *. f_equal; congruence.
Qed.

(** POST [api/featureflags/]: the answer is 201, with the flag, one row and
    one log entry per source committed, or a validation error with nothing
    committed. *)
Lemma feature_flag_list_create_cases db request t e data :
  consistent db →
  (∃ db' srcs rows,
     feature_flag_list_create db request t e data
     = (db', Ret (HTTP_201_CREATED
                    {| pk := Some (next_pk db); title := t; is_enabled := e |}))
     ∧ valid_title t ∧ (∀ f, f ∈ flags db → title f ≠ t)
     ∧ data = title <$> srcs ∧ NoDup data
     ∧ Forall (λ s, s ∈ flags db) srcs
     ∧ Forall2 (λ s r, dependent_flag_id r = next_pk db
                       ∧ pk s = Some (source_flag_id r)) srcs rows
     ∧ flags db' = flags db
                   ++ [{| pk := Some (next_pk db); title := t; is_enabled := e |}]
     ∧ next_pk db' = next_pk db + 1
     ∧ dependencies db' = dependencies db ++ rows
     ∧ logs db' = logs db ++ (initial_dependency_entry (Some request) <$> srcs))
  ∨ (∃ detail,
       feature_flag_list_create db request t e data
       = (db, Raise (SerializerValidationError detail))).
Proof.
  intros Hc.
  pose proof (consistent_feature_flag_list_create db request t e data Hc) as Hc'.
  revert Hc'. unfold feature_flag_list_create.
  destruct (validate_title_cases db t) as [Htitle|[detail ->]]; [|eauto].
  rewrite Htitle. apply validate_title_Ret in Htitle as (_ & Hvalid & Hex).
  pose proof (existsb_title_false _ _ Hex) as Hfresh.
  destruct (validate_initial_dependencies_cases db data)
    as [[-> Hexist]|[detail ->]]; [|eauto].
  unfold FeatureFlagRetrieveSerializer_create, FeatureFlag_save.
  cbn [pk title is_enabled]. rewrite Hex.
  set (new := {| pk := Some (next_pk db); title := t; is_enabled := e |}).
  destruct (create_initial_dependencies_cases (Some request) new (next_pk db)
              eq_refl data (insert_flag new db))
    as [(db' & srcs & rows & -> & -> & Hall & Hrows & Hfl & Hnext & Hdeps & Hlogs)
       |(db2 & detail & ->)]; [by apply consistent_insert_flag| |simpl|simpl; eauto].
  { simpl. apply elem_of_app. right. by apply list_elem_of_singleton. }
  intros Hc'. left. exists db', srcs, rows.
  assert (Forall (λ s, s ∈ flags db) srcs) as Hstored.
  { apply Forall_forall. intros s Hs.
    pose proof (proj1 (Forall_forall _ _) Hall s Hs) as Hin. simpl in Hin.
    apply elem_of_app in Hin as [Hin| ->%list_elem_of_singleton]; [done|].
    destruct (Hexist (title new)) as (f & Hf & Ht).
    { apply list_elem_of_fmap. eauto. }
    by destruct (Hfresh f Hf). }
  split_and!; try done.
  apply (NoDup_titles db); [apply Hc|done|].
  apply (rows_NoDup_sources (next_pk db) srcs rows Hrows).
  pose proof (rows_unique _ (proj1 Hc')) as Hnd. rewrite Hdeps in Hnd.
  by apply NoDup_app in Hnd as (_ & _ & Hnd).
Qed.

(** ** What one operation does to the tables *)

Lemma feature_flag_toggle_fst db request k reason_data :
  integrity db →
  fst (feature_flag_toggle db request k reason_data) = db
  ∨ ∃ f, f ∈ flags db ∧ pk f = Some k
         ∧ fst (feature_flag_toggle db request k reason_data)
           = update_flag (flipped f) db.
Proof.
  intros Hi. destruct (get_flag_cases db k) as [(f & Hget & Hf & Hk)|Hget].
  - destruct (validate_reason reason_data) as [r| |] eqn:Hreason.
    + apply validate_reason_Ret in Hreason as [-> Hr].
      destruct (feature_flag_toggle_cases db request k r f Hi Hget Hr)
        as [[-> _]|(_ & _ & V & bl & _ & ->)]; simpl; [|by left].
      right. by exists f.
    + left. unfold feature_flag_toggle. by rewrite Hget, Hreason.
    + left. unfold feature_flag_toggle. by rewrite Hget, Hreason.
  - left. unfold feature_flag_toggle. by rewrite Hget.
Qed.

Lemma update_flag_keys db self :
  integrity db → same_row db self →
  (λ f, (pk f, title f)) <$> flags (update_flag self db)
  = (λ f, (pk f, title f)) <$> flags db.
Proof.
  intros Hi (f & Hf & Hpk & Ht). unfold update_flag. simpl.
  rewrite <- list_fmap_compose. apply list_fmap_ext.
  intros i g Hg. simpl. case_bool_decide as Heq; [|done].
  assert (g = f) as ->; [|by rewrite Hpk, Ht].
  eapply pk_inj; eauto; [|congruence]. eapply list_elem_of_lookup_2, Hg.
Qed.

(** ** Reading a flag back *)

Lemma DependencyListSerializer_data_total db rules :
  integrity db → (∀ r, r ∈ rules → r ∈ dependencies db) →
  ∃ srcs,
    Forall2 (λ r s, s ∈ flags db ∧ pk s = Some (source_flag_id r)) rules srcs
    ∧ DependencyListSerializer_data db rules
      = Ret ((λ s, {| item_source_flag := title s |}) <$> srcs).
Proof.
  intros Hi. induction rules as [|r rules IH]; intros Hsub; simpl.
  { exists []. split; [constructor|done]. }
  destruct (rule_source_flag_total db r Hi) as [src Hsrc]; [apply Hsub; by left|].
  destruct IH as (srcs & Hall & ->); [intros r' Hr'; apply Hsub; by right|].
  rewrite Hsrc. simpl. exists (src :: srcs). split; [|done].
  constructor; [|done]. by apply rule_source_flag_Ret.
Qed.

Lemma filter_none {A} (p : A → bool) l :
  (∀ x, x ∈ l → p x = false) → List.filter p l = [].
Proof.
  induction l as [|x l IH]; intros Hall; simpl; [done|].
  rewrite (Hall x) by (by left). apply IH. intros y Hy. apply Hall. by right.
Qed.

Lemma filter_all {A} (p : A → bool) l :
  (∀ x, x ∈ l → p x = true) → List.filter p l = l.
Proof.
  induction l as [|x l IH]; intros Hall; simpl; [done|].
  rewrite (Hall x) by (by left). f_equal. apply IH. intros y Hy. apply Hall. by right.
Qed.

(** ** Activation before and after an operation *)

Lemma dependency_list_create_accepted db request d s :
  integrity db → acceptable_dependency db d s →
  ∃ dep src,
    get_flag db d = Ret dep ∧ get_flag db s = Ret src
    ∧ dep ∈ flags db ∧ src ∈ flags db
    ∧ dependency_list_create db request d s
      = (insert_dependency {| dependent_flag_id := d; source_flag_id := s |} db,
         Ret (HTTP_201_CREATED {| dependent_flag := dep; source_flag := src |})).
Proof.
  intros Hi ((fd & Hfd & Hd) & (fs & Hfs & Hs) & Hno & Hnew).
  assert (d ≠ s) as Hne by (intros ->; by apply Hno).
  exists fd, fs.
  pose proof (get_flag_eq db d fd Hi Hfd Hd) as Hgd.
  pose proof (get_flag_eq db s fs Hi Hfs Hs) as Hgs.
  split_and!; try done.
  unfold dependency_list_create, primary_key_related_field.
  rewrite Hgd, Hgs. unfold DependencySerializer_create.
  by rewrite (Dependency_save_ok db {| dependent_flag := fd; source_flag := fs |}
                d s Hi Hfs Hd Hs Hne Hno Hnew).
Qed.

Lemma is_active_ext db db' g kg :
  consistent db → consistent db' →
  g ∈ flags db → g ∈ flags db' → pk g = Some kg →
  (dependencies_enabled db' kg ↔ dependencies_enabled db kg) →
  is_active db' g = is_active db g.
Proof.
  intros [Hi Hac] [Hi' Hac'] Hg Hg' Hk Hiff.
  destruct (is_active_true_iff db Hi Hac g kg Hg Hk) as (b & -> & Hb).
  destruct (is_active_true_iff db' Hi' Hac' g kg Hg' Hk) as (b' & -> & Hb').
  f_equal. rewrite <- Hiff, <- Hb' in Hb. destruct b, b'; naive_solver.
Qed.

Lemma is_active_antitone db db' g kg :
  consistent db → consistent db' →
  g ∈ flags db → g ∈ flags db' → pk g = Some kg →
  (dependencies_enabled db' kg → dependencies_enabled db kg) →
  is_active db' g = Ret true → is_active db g = Ret true.
Proof.
  intros [Hi Hac] [Hi' Hac'] Hg Hg' Hk Himp Hact.
  destruct (is_active_true_iff db Hi Hac g kg Hg Hk) as (b & -> & Hb).
  destruct (is_active_true_iff db' Hi' Hac' g kg Hg' Hk) as (b' & Heq & Hb').
  rewrite Heq in Hact. injection Hact as ->. f_equal. apply Hb.
  destruct (proj1 Hb' eq_refl) as [Hen Hall]. split; [done|]. by apply Himp.
Qed.

Lemma tc_insert_mono db row a b :
  tc (depends_on db) a b → tc (depends_on (insert_dependency row db)) a b.
Proof.
  apply (tc_congruence (λ x, x)). intros x y Hxy.
  apply depends_on_insert. by left.
Qed.

Lemma rtc_insert_mono db row a b :
  rtc (depends_on db) a b → rtc (depends_on (insert_dependency row db)) a b.
Proof.
  apply rtc_subrel. intros x y Hxy. apply depends_on_insert. by left.
Qed.

(** What the flag with key [a] reaches after the row "d depends on s" has
    been added, when [s] did not reach [d]. *)
Lemma tc_insert_cases db d s a b :
  ¬ rtc (depends_on db) s d →
  tc (depends_on (insert_dependency
                    {| dependent_flag_id := d; source_flag_id := s |} db)) a b →
  tc (depends_on db) a b
  ∨ (rtc (depends_on db) a d ∧ rtc (depends_on db) s b).
Proof.
  intros Hno [H|[H1 H2]]%tc_insert; [by left|]. simpl in *.
  apply rtc_insert in H2. simpl in H2.
  assert (rtc (depends_on db) s b) as Hsb by (by destruct H2).
  apply rtc_insert in H1 as [H1|H1]; simpl in H1; [by right|done].
Qed.

Lemma dependencies_enabled_insert_other db d s a :
  ¬ rtc (depends_on db) s d → ¬ rtc (depends_on db) a d →
  dependencies_enabled
    (insert_dependency {| dependent_flag_id := d; source_flag_id := s |} db) a
  ↔ dependencies_enabled db a.
Proof.
  intros Hno Ha. split; intros Hall x kx Hx Hkx Hreach.
  - apply (Hall x kx); [done..|]. by apply tc_insert_mono.
  - apply (Hall x kx); [done..|].
    by apply (tc_insert_cases db d s a kx Hno) in Hreach as [?|[? _]].
Qed.

Lemma dependencies_enabled_insert_dependent db d s src :
  integrity db → src ∈ flags db → pk src = Some s →
  ¬ rtc (depends_on db) s d →
  dependencies_enabled
    (insert_dependency {| dependent_flag_id := d; source_flag_id := s |} db) d
  ↔ dependencies_enabled db d
    ∧ is_enabled src = true ∧ dependencies_enabled db s.
Proof.
  intros Hi Hsrc Hs Hno.
  set (db' := insert_dependency _ db).
  assert (depends_on db' d s) as Hedge by (apply depends_on_insert; by right).
  split.
  - intros Hall. split_and!.
    + intros x kx Hx Hkx Hreach. apply (Hall x kx); [done..|].
      by apply tc_insert_mono.
    + apply (Hall src s); [done..|]. by apply tc_once.
    + intros x kx Hx Hkx Hreach. apply (Hall x kx); [done..|].
      eapply tc_l; [exact Hedge|]. by apply tc_insert_mono.
  - intros (Hd & Hen & Hsall) x kx Hx Hkx Hreach.
    apply (tc_insert_cases db d s d kx Hno) in Hreach as [Hreach|[_ Hreach]].
    + by apply (Hd x kx).
    + apply rtc_tc in Hreach as [<-|Hreach]; [|by apply (Hsall x kx)].
      assert (x = src) as -> by (eapply pk_inj; eauto; congruence). done.
Qed.

Lemma dependencies_enabled_insert_antitone db row a :
  dependencies_enabled (insert_dependency row db) a → dependencies_enabled db a.
Proof.
  intros Hall x kx Hx Hkx Hreach. apply (Hall x kx); [done..|].
  by apply tc_insert_mono.
Qed.

(** A toggle of the flag [f] with key [k]: what the flags that do not reach
    [k] reach is as before. *)
Lemma dependencies_enabled_update db f k a :
  integrity db → f ∈ flags db → pk f = Some k →
  ¬ tc (depends_on db) a k →
  dependencies_enabled (update_flag (flipped f) db) a
  ↔ dependencies_enabled db a.
Proof.
  intros Hi Hf Hk Ha. split; intros Hall x kx Hx Hkx Hreach.
  - assert (pk x ≠ pk (flipped f)) as Hne.
    { simpl. rewrite Hkx, Hk. intros [= ->]. done. }
    apply (Hall x kx); [|done..]. by apply other_in_update.
  - change (tc (depends_on db) a kx) in Hreach.
    apply elem_of_update_flag in Hx as [[-> _]|[Hx _]]; [|by apply (Hall x kx)].
    simpl in Hkx. rewrite Hk in Hkx. injection Hkx as <-. done.
Qed.

(** Creation: the new rows leave the new flag, which no row leads into, so
    what a flag stored before reaches is as before. *)
Lemma tc_create db db' rows n a b :
  dependencies db' = dependencies db ++ rows →
  (∀ r, r ∈ rows → dependent_flag_id r = n) →
  (∀ r, r ∈ dependencies db' → source_flag_id r ≠ n) →
  a ≠ n →
  tc (depends_on db') a b → tc (depends_on db) a b.
Proof.
  intros Hdeps Hrows Hinto Ha Hreach.
  assert (∀ x y, x ≠ n → depends_on db' x y → depends_on db x y ∧ y ≠ n)
    as Hstep.
  { intros x y Hx Hedge. split; [|by apply (Hinto _ Hedge)].
    unfold depends_on in *. rewrite Hdeps in Hedge.
    apply elem_of_app in Hedge as [?|Hr]; [done|].
    by destruct Hx; rewrite <- (Hrows _ Hr). }
  revert Ha. induction Hreach as [x y Hedge|x y z Hedge _ IH]; intros Hx.
  - apply tc_once. by apply Hstep.
  - destruct (Hstep x y Hx Hedge) as [Hold Hy]. eapply tc_l; [exact Hold|].
    by apply IH.
Qed.

Lemma flipped_flipped f : flipped (flipped f) = f.
Proof. destruct f as [k t e]. unfold flipped. simpl. by rewrite negb_involutive. Qed.

Lemma update_flag_flipped_twice db f :
  integrity db → f ∈ flags db →
  update_flag (flipped (flipped f)) (update_flag (flipped f) db) = db.
Proof.
  intros Hi Hf. rewrite flipped_flipped. unfold update_flag. simpl.
  destruct db as [fl deps lg nx]. simpl in *. f_equal.
  rewrite <- list_fmap_compose. rewrite <- (list_fmap_id fl) at 2.
  apply list_fmap_ext. intros i g Hg. simpl.
  destruct (decide (pk g = pk f)) as [Heq|Hne].
  - rewrite (bool_decide_eq_true_2 (pk g = pk f)) by done. simpl.
    rewrite bool_decide_eq_true_2 by done.
    eapply (pk_inj _ f g Hi); [done| |done]. eapply list_elem_of_lookup_2, Hg.
  - rewrite (bool_decide_eq_false_2 (pk g = pk f)) by done.
    by rewrite bool_decide_eq_false_2.
Qed.

(** The toggle view on a stored flag, for a valid reason: the row is written
    and the [AttributeError] raised exactly when the flag was enabled or all
    it reaches is enabled. *)
Lemma feature_flag_toggle_written db request k r f :
  consistent db → get_flag db k = Ret f → r ≠ EmptyString →
  (is_enabled f = true ∨ dependencies_enabled db k) →
  feature_flag_toggle db request k (Some r)
  = (update_flag (flipped f) db, Raise (AttributeError "FLAG_TOGGLE")).
Proof.
  intros [Hi Hac] Hget Hr Hok.
  pose proof (get_flag_Ret _ _ _ Hget) as [Hf Hk].
  destruct (feature_flag_toggle_cases db request k r f Hi Hget Hr)
    as [[-> _]|(Hdis & Hcan & _)]; [done|].
  destruct Hok as [Hen|Hall]; [congruence|].
  apply (can_be_active_true_iff db Hi Hac (flipped f) k) in Hall;
    [congruence|by apply same_row_flipped|done].
Qed.

Lemma feature_flag_toggle_rejected db request k r f :
  consistent db → get_flag db k = Ret f → r ≠ EmptyString →
  is_enabled f = false → ¬ dependencies_enabled db k →
  ∃ detail,
    feature_flag_toggle db request k (Some r)
    = (db, Raise (SerializerValidationError detail)).
Proof.
  intros [Hi Hac] Hget Hr Hdis Hno.
  pose proof (get_flag_Ret _ _ _ Hget) as [Hf Hk].
  destruct (feature_flag_toggle_cases db request k r f Hi Hget Hr)
    as [[_ Hact]|(_ & _ & V & bl & _ & ->)]; [|eauto].
  destruct Hno.
  apply (can_be_active_true_iff db Hi Hac (flipped f) k);
    [by apply same_row_flipped|done|by apply Hact].
Qed.

(** ** How often the blocking search lists a flag *)

Lemma rules_NoDup db self :
  integrity db → NoDup (dependency_rules_as_dependent db self).
Proof.
  intros Hi. unfold dependency_rules_as_dependent.
  apply NoDup_ListNoDup, List.NoDup_filter, NoDup_ListNoDup, (rows_unique _ Hi).
Qed.

Lemma _find_blocking_dependencies_rows db :
  integrity db →
  ∀ (n : nat) self V bl V' bl',
    _find_blocking_dependencies db n self (V, bl) = Ret (V', bl') →
    ∃ R entries, bl' = bl ++ entries ∧ reported_by db V V' R entries.
Proof.
  intros Hi. induction n as [|n IH]; intros self V bl V' bl' H; [done|].
  simpl in H. case_bool_decide as Hv.
  { simplify_eq. exists [], []. rewrite app_nil_r. split; [done|].
    split_and!; [constructor|constructor|]. intros r Hr. by apply elem_of_nil in Hr. }
  set (body := λ rule (st : blocking_state),
         let '(visited, blocking_list) := st in
         let! src := rule_source_flag db rule in
         if negb (is_enabled src) then Ret (visited, blocking_list ++ [src])
         else
           let! ok := can_be_active db src in
           if negb ok then
             _find_blocking_dependencies db n src (visited, blocking_list)
           else Ret (visited, blocking_list)) in *.
  assert (∀ rules V1 bl1 V2 bl2,
            NoDup rules →
            (∀ r, r ∈ rules → r ∈ dependencies db
                              ∧ Some (dependent_flag_id r) = pk self) →
            pk self ∈ V1 →
            each_rule body rules (V1, bl1) = Ret (V2, bl2) →
            V1 ⊆ V2
            ∧ ∃ R entries,
                bl2 = bl1 ++ entries ∧ NoDup R
                ∧ Forall2 (λ r s, rule_source_flag db r = Ret s) R entries
                ∧ ∀ r, r ∈ R →
                       r ∈ rules
                       ∨ (r ∈ dependencies db
                          ∧ Some (dependent_flag_id r) ∈ V2
                          ∧ Some (dependent_flag_id r) ∉ V1)) as Hgen.
  { induction rules as [|r0 rules IHr]; intros V1 bl1 V2 bl2 Hnd Hrules Hself Hl;
      simpl in Hl.
    { simplify_eq. split; [done|]. exists [], []. rewrite app_nil_r.
      split_and!; [done|constructor|constructor|].
      intros r Hr. by apply elem_of_nil in Hr. }
    apply NoDup_cons in Hnd as [Hr0 Hnd].
    apply bind_Ret in Hl as ([V1' bl1'] & Hbody & Hl).
    (* the first rule *)
    assert (V1 ⊆ V1'
            ∧ ∃ R0 entries0,
                bl1' = bl1 ++ entries0 ∧ NoDup R0
                ∧ Forall2 (λ r s, rule_source_flag db r = Ret s) R0 entries0
                ∧ ∀ r, r ∈ R0 →
                       r = r0
                       ∨ (r ∈ dependencies db
                          ∧ Some (dependent_flag_id r) ∈ V1'
                          ∧ Some (dependent_flag_id r) ∉ V1)) as (Hsub0 & R0 & e0 & -> & Hnd0 & Hall0 & Hin0).
    { unfold body in Hbody.
      apply bind_Ret in Hbody as (src & Hsrc & Hbody).
      destruct (is_enabled src); simpl in Hbody.
      - apply bind_Ret in Hbody as (ok & _ & Hbody).
        destruct ok; simpl in Hbody.
        + simplify_eq. split; [done|]. exists [], []. rewrite app_nil_r.
          split_and!; [done|constructor|constructor|].
          intros r Hr. by apply elem_of_nil in Hr.
        + pose proof (_find_blocking_dependencies_grows _ _ _ _ _ Hbody) as [Hg _].
          apply IH in Hbody as (R & entries & -> & HR1 & HR2 & HR3).
          split; [done|]. exists R, entries. split_and!; try done.
          intros r Hr. right. by apply HR3.
      - simplify_eq. split; [done|]. exists [r0], [src].
        split_and!; [done|apply NoDup_singleton|by repeat constructor|].
        intros r ->%list_elem_of_singleton. by left. }
    apply IHr in Hl as (Hsub1 & R1 & e1 & -> & Hnd1 & Hall1 & Hin1);
      [|done|intros r Hr; apply Hrules; by right|by apply Hsub0].
    split; [set_solver|].
    exists (R0 ++ R1), (e0 ++ e1). split_and!.
    - by rewrite app_assoc.
    - apply NoDup_app. split_and!; [done| |done].
      intros r Hr Hr'.
      destruct (Hrules r0) as [_ Hd0]; [by left|].
      destruct (Hin0 r Hr) as [Heq|(_ & HrV & HrnV)];
        destruct (Hin1 r Hr') as [Hrr|(_ & HrV' & HrnV')].
      + by subst r.
      + subst r. apply HrnV'. apply Hsub0. by rewrite Hd0.
      + destruct (Hrules r) as [_ Hd]; [by right|]. apply HrnV. by rewrite Hd.
      + done.
    - by apply Forall2_app.
    - intros r [Hr|Hr]%elem_of_app.
      + destruct (Hin0 r Hr) as [->|(? & ? & ?)]; [left; by left|].
        right. split_and!; [done|by apply Hsub1|done].
      + destruct (Hin1 r Hr) as [?|(? & ? & Hnot)]; [left; by right|].
        right. split_and!; [done|done|]. intros ?. by apply Hnot, Hsub0. }
  apply Hgen in H as (Hsub & R & entries & -> & Hnd & Hall & Hin).
  - exists R, entries. split; [done|]. split_and!; [done|done|].
    intros r Hr. destruct (Hin r Hr) as [Hrule|(? & ? & Hn)].
    + apply rules_elem in Hrule as [? Hd]. split_and!; [done| |].
      * rewrite Hd. apply Hsub. set_solver.
      * by rewrite Hd.
    + split_and!; [done|done|]. intros ?. apply Hn. set_solver.
  - by apply rules_NoDup.
  - intros r Hr. by apply rules_elem.
  - set_solver.
Qed.

Lemma filter_length_Forall2 {A B} (p : A → bool) (q : B → bool) l k :
  Forall2 (λ a b, q b = true → p a = true) l k →
  (length (List.filter q k) ≤ length (List.filter p l))%nat.
Proof.
  induction 1 as [|a b l k Hab _ IH]; simpl; [done|].
  destruct (q b); [rewrite Hab by done|destruct (p a)]; simpl; lia.
Qed.

Lemma filter_length_NoDup {A} (p : A → bool) l k :
  NoDup l → (∀ x, x ∈ l → x ∈ k) →
  (length (List.filter p l) ≤ length (List.filter p k))%nat.
Proof.
  intros Hnd Hsub. apply submseteq_length, NoDup_submseteq.
  - by apply NoDup_ListNoDup, List.NoDup_filter, NoDup_ListNoDup.
  - intros x. rewrite !list_elem_of_In, !filter_In, <- !list_elem_of_In.
    intros [? ?]. split; [by apply Hsub|done].
Qed.

(** ** Listing the flags *)

Lemma insert_by_title_Permutation collation f l :
  insert_by_title collation f l ≡ₚ f :: l.
Proof.
  induction l as [|g l IH]; simpl; [done|].
  destruct (collation _ _); [done|]. rewrite IH. apply Permutation_swap.
Qed.

Lemma order_by_title_Permutation collation l :
  order_by_title collation l ≡ₚ l.
Proof.
  induction l as [|f l IH]; simpl; [done|].
  rewrite insert_by_title_Permutation. by rewrite IH.
Qed.

Lemma insert_by_title_Sorted collation f l :
  (∀ a b, collation a b = false → collation b a = true) →
  Sorted (λ x y, collation (title x) (title y) = true) l →
  Sorted (λ x y, collation (title x) (title y) = true)
    (insert_by_title collation f l).
Proof.
  intros Htotal. induction 1 as [|g l Hl IH Hhd]; simpl.
  { repeat constructor. }
  destruct (collation (title f) (title g)) eqn:Hfg.
  - constructor; [by constructor|]. by constructor.
  - constructor; [done|].
    destruct l as [|h l]; simpl.
    + constructor. by apply Htotal.
    + destruct (collation (title f) (title h)); constructor.
      * by apply Htotal.
      * by inversion Hhd.
Qed.

Lemma order_by_title_Sorted collation l :
  (∀ a b, collation a b = false → collation b a = true) →
  Sorted (λ x y, collation (title x) (title y) = true)
    (order_by_title collation l).
Proof.
  intros Htotal. induction l as [|f l IH]; simpl; [constructor|].
  by apply insert_by_title_Sorted.
Qed.

Lemma FeatureFlagListSerializer_data_total db queryset :
  integrity db → (∀ f, f ∈ queryset → f ∈ flags db) →
  ∃ actives,
    Forall2 (λ f b, is_active db f = Ret b) queryset actives
    ∧ FeatureFlagListSerializer_data db queryset
      = Ret (zip_with (λ f b, {| item_id := pk f; item_title := title f;
                                 item_is_enabled := is_enabled f;
                                 item_is_active := b |}) queryset actives).
Proof.
  intros Hi. induction queryset as [|f l IH]; intros Hsub; simpl.
  { exists []. split; [constructor|done]. }
  destruct (is_active_total db f Hi) as [b Hb].
  { apply stored_title, Hsub. by left. }
  destruct IH as (bs & Hall & Heq); [intros g Hg; apply Hsub; by right|].
  rewrite Hb, Heq. simpl. exists (b :: bs). split; [by constructor|done].
Qed.

(** ** The activation of a new flag *)

(** The tables after a successful creation: the rows that leave the new key
    are the new ones, and no row leads into it. *)
Lemma created_rows db db' srcs rows :
  integrity db →
  Forall (λ s, s ∈ flags db) srcs →
  Forall2 (λ s r, dependent_flag_id r = next_pk db
                  ∧ pk s = Some (source_flag_id r)) srcs rows →
  dependencies db' = dependencies db ++ rows →
  (∀ r, r ∈ dependencies db' → source_flag_id r ≠ next_pk db)
  ∧ (∀ r, r ∈ rows → dependent_flag_id r = next_pk db)
  ∧ (∀ y, depends_on db' (next_pk db) y ↔
          ∃ s, s ∈ srcs ∧ pk s = Some y).
Proof.
  intros Hi Hall Hrows Hdeps.
  assert (∀ r, r ∈ rows → dependent_flag_id r = next_pk db
                          ∧ ∃ s, s ∈ srcs ∧ pk s = Some (source_flag_id r))
    as Hnew.
  { intros r Hr. apply list_elem_of_lookup in Hr as [i Hr].
    destruct (Forall2_lookup_r _ _ _ _ _ Hrows Hr) as (s & Hs & Hd & Hpk).
    split; [done|]. exists s. split; [|done]. by eapply list_elem_of_lookup_2. }
  assert (∀ s, s ∈ srcs → ∃ k, pk s = Some k ∧ k < next_pk db) as Hlt.
  { intros s Hs. apply (pk_bound _ Hi). by eapply Forall_forall in Hall. }
  split_and!.
  - intros r Hr Heq. rewrite Hdeps in Hr. apply elem_of_app in Hr as [Hr|Hr].
    + destruct (fk_source _ Hi r Hr) as (f & Hf & Hpk).
      destruct (pk_bound _ Hi f Hf) as (k & Hk & ?).
      rewrite Hpk in Hk. injection Hk as <-. lia.
    + destruct (Hnew r Hr) as (_ & s & Hs & Hpk).
      destruct (Hlt s Hs) as (k & Hk & ?). rewrite Hpk in Hk.
      injection Hk as <-. lia.
  - intros r Hr. by apply Hnew.
  - intros y. split.
    + unfold depends_on. rewrite Hdeps. intros [Hr|Hr]%elem_of_app.
      * destruct (fk_dependent _ Hi _ Hr) as (f & Hf & Hpk). simpl in Hpk.
        destruct (pk_bound _ Hi f Hf) as (k & Hk & ?).
        rewrite Hpk in Hk. injection Hk as <-. lia.
      * destruct (Hnew _ Hr) as (_ & s & Hs & Hpk). by exists s.
    + intros (s & Hs & Hpk). unfold depends_on. rewrite Hdeps.
      apply elem_of_app. right.
      apply list_elem_of_lookup in Hs as [i Hs].
      destruct (Forall2_lookup_l _ _ _ _ _ Hrows Hs) as (r & Hr & Hd & Hpk').
      rewrite Hpk in Hpk'. injection Hpk' as ->.
      apply list_elem_of_lookup_2 in Hr. by destruct r; simplify_eq/=.
Qed.

(** * The claims *)

(** C1, as amended.  Toggling an enabled flag to disabled changes that
    flag's row only: every other flag keeps its enabled bit, the rows are
    unchanged and no [auto_disable] event is recorded.  The flags that depend
    on it, directly or transitively, are from then on evaluated as not
    active. *)
Theorem toggle_off_no_cascade db request k r f :
  reachable db → r ≠ EmptyString →
  get_flag db k = Ret f → is_enabled f = true →
  let db' := fst (feature_flag_toggle db request k (Some r)) in
  get_flag db' k = Ret (flipped f)
  ∧ (∀ g, g ∈ flags db → pk g ≠ Some k → g ∈ flags db')
  ∧ dependencies db' = dependencies db
  ∧ auto_disable_events db' = auto_disable_events db
  ∧ (∀ g kg, g ∈ flags db → pk g = Some kg → tc (depends_on db) kg k →
             g ∈ flags db' ∧ is_active db' g = Ret false).
Proof.
  intros Hreach Hr Hget Hen db'.
  pose proof (reachable_consistent _ Hreach) as [Hi Hac].
  pose proof (get_flag_Ret _ _ _ Hget) as [Hf Hk].
  assert (db' = update_flag (flipped f) db) as Hdb'.
  { unfold db'.
    destruct (feature_flag_toggle_cases db request k r f Hi Hget Hr)
      as [[-> _]|(Hdis & _)]; [done|congruence]. }
  assert (consistent db') as [Hi' Hac'].
  { rewrite Hdb'. apply consistent_update_flag; [done|].
    by apply same_row_flipped. }
  assert (flipped f ∈ flags db') as Hf'
    by (rewrite Hdb'; by apply flipped_in_update).
  assert (∀ g, g ∈ flags db → pk g ≠ Some k → g ∈ flags db') as Hothers.
  { intros g Hg Hne. rewrite Hdb'. apply other_in_update; [done|].
    simpl. congruence. }
  split_and!.
  - by apply get_flag_eq.
  - done.
  - by rewrite Hdb'.
  - by rewrite Hdb'.
  - intros g kg Hg Hkg Hdep.
    assert (g ∈ flags db') as Hg'.
    { apply Hothers; [done|]. intros Heq. rewrite Hkg in Heq.
      injection Heq as ->. by apply (Hac k). }
    split; [done|].
    assert (can_be_active db' g = Ret false) as Hcan.
    { assert (tc (depends_on db') kg k) as Hdep' by (by rewrite Hdb').
      assert (is_enabled (flipped f) = false) as Hoff
        by (simpl; by rewrite Hen).
      apply (blocked_by_inactive db' Hi' Hac' kg k Hdep' g (flipped f));
        try done.
      - by apply same_row_stored.
      - unfold is_active. by rewrite Hoff. }
    unfold is_active. by destruct (is_enabled g).
Qed.

Lemma toggle_off_no_cascade_witness :
  let db' := fst (feature_flag_toggle db_ABC someone 1 (Some "off")) in
  get_flag db' 1 = Ret (flipped (mkflag 1 "A" true))
  ∧ (∀ g, g ∈ flags db_ABC → pk g ≠ Some 1 → g ∈ flags db')
  ∧ dependencies db' = dependencies db_ABC
  ∧ auto_disable_events db' = auto_disable_events db_ABC
  ∧ (∀ g kg, g ∈ flags db_ABC → pk g = Some kg →
             tc (depends_on db_ABC) kg 1 →
             g ∈ flags db' ∧ is_active db' g = Ret false).
Proof.
  apply (toggle_off_no_cascade db_ABC someone 1 "off" (mkflag 1 "A" true)).
  - by_operations.
  - discriminate.
  - reflexivity.
  - reflexivity.
Defined.

(** C1 as stated fails: with B depending on A and C on B, all enabled,
    disabling A leaves B and C enabled and records no [auto_disable]
    event. *)
Lemma cascade_counterexample :
  let db' := fst (feature_flag_toggle db_ABC someone 1 (Some "off")) in
  get_flag db' 1 = Ret (mkflag 1 "A" false)
  ∧ get_flag db' 2 = Ret (mkflag 2 "B" true)
  ∧ get_flag db' 3 = Ret (mkflag 3 "C" true)
  ∧ auto_disable_events db' = []
  ∧ is_active db' (mkflag 2 "B" true) = Ret false
  ∧ is_active db' (mkflag 3 "C" true) = Ret false.
Proof. by vm_compute. Qed.

(** C2.  In every state reachable through the engine's operations, [is_active]
    returns for every stored flag [f], and it returns [True] exactly when [f]
    is enabled and [is_active] is [True] for every flag [f] has a direct
    dependency row to; a flag without outgoing rows is active exactly when it
    is enabled. *)
Theorem is_active_characterisation db f :
  reachable db → f ∈ flags db →
  ∃ b, is_active db f = Ret b
       ∧ (b = true ↔
          is_enabled f = true
          ∧ ∀ s, direct_dependency db f s → is_active db s = Ret true)
       ∧ ((∀ s, ¬ direct_dependency db f s) → b = is_enabled f).
Proof.
  intros [Hi Hac]%reachable_consistent Hf.
  destruct (is_active_iff db Hi Hac f Hf) as (b & Hb & Hiff).
  exists b. split_and!; try done.
  intros Hnone. destruct b, (is_enabled f) eqn:Hen; try done.
  - by destruct (proj1 Hiff eq_refl).
  - apply Hiff. split; [done|]. intros s Hs. by destruct (Hnone s).
Qed.

Lemma is_active_characterisation_witness :
  ∃ b, is_active db_ABC (mkflag 3 "C" true) = Ret b
       ∧ (b = true ↔
          is_enabled (mkflag 3 "C" true) = true
          ∧ ∀ s, direct_dependency db_ABC (mkflag 3 "C" true) s →
                 is_active db_ABC s = Ret true)
       ∧ ((∀ s, ¬ direct_dependency db_ABC (mkflag 3 "C" true) s) →
          b = is_enabled (mkflag 3 "C" true)).
Proof.
  apply (is_active_characterisation db_ABC (mkflag 3 "C" true)).
  - by_operations.
  - vm_compute. do 2 right. left.
Defined.

(** C3.  In a reachable state the rows are acyclic and stay so after every
    operation; and a proposed row "dependent depends on source" between two
    different stored flags whose insertion would close a cycle (of any
    length) is rejected with the cycle message, the tables, and with them
    [ListDependencies], being left as they were. *)
Theorem cycle_insertion_rejected db request d s dep src :
  reachable db →
  get_flag db d = Ret dep → get_flag db s = Ret src → d ≠ s →
  ¬ acyclic (insert_dependency {| dependent_flag_id := d; source_flag_id := s |} db) →
  (∃ p, dependency_list_create db request d s
        = (db, Raise (SerializerValidationError
                        [cycle_message (title dep) (title src)
                           (full_cycle_path dep (src :: p))])))
  ∧ ListDependencies (fst (dependency_list_create db request d s))
    = ListDependencies db
  ∧ acyclic db
  ∧ ∀ request' op, acyclic (run db request' op).
Proof.
  intros Hreach Hd Hs Hne Hcyc.
  pose proof (reachable_consistent _ Hreach) as Hc.
  assert (∀ request' op, acyclic (run db request' op)) as Hafter.
  { intros request' op. eapply reachable_consistent, reachable_run, Hreach. }
  assert (rtc (depends_on db) s d) as Hsd.
  { pose proof (get_flag_Ret _ _ _ Hd) as [Hdin Hdpk].
    pose proof (get_flag_Ret _ _ _ Hs) as [Hsin Hspk].
    destruct (Dependency_clean_cases db
                {| dependent_flag := dep; source_flag := src |} d s
                (proj1 Hc) Hsin Hdpk Hspk)
      as [[? _]|[(_ & Hr & _)|(_ & Hno & _)]]; [done..|].
    destruct Hcyc. by apply acyclic_insert; [apply Hc|]. }
  destruct (dependency_list_create_cycle db request d s dep src Hc Hd Hs Hne Hsd)
    as (p & Heq & _).
  split_and!; [by exists p|by rewrite Heq|apply Hc|done].
Qed.

Lemma cycle_insertion_rejected_witness :
  (∃ p, dependency_list_create db_ABC someone 1 3
        = (db_ABC, Raise (SerializerValidationError
                            [cycle_message "A" "C"
                               (full_cycle_path (mkflag 1 "A" true)
                                  (mkflag 3 "C" true :: p))])))
  ∧ ListDependencies (fst (dependency_list_create db_ABC someone 1 3))
    = ListDependencies db_ABC
  ∧ acyclic db_ABC
  ∧ ∀ request' op, acyclic (run db_ABC request' op).
Proof.
  apply (cycle_insertion_rejected db_ABC someone 1 3
           (mkflag 1 "A" true) (mkflag 3 "C" true)).
  - by_operations.
  - reflexivity.
  - reflexivity.
  - lia.
  - intros Hac. apply (Hac 1).
    apply tc_l with 3; [|apply tc_l with 2; [|apply tc_once]].
    + vm_compute. do 2 right. left.
    + vm_compute. right. left.
    + vm_compute. left.
Defined.

(** C4.  In a reachable state, toggling a disabled stored flag to enabled
    while one of its direct or transitive dependencies is not active fails
    with the unmet-dependencies message, and the tables (flags, rows and the
    log) are exactly as before the call. *)
Theorem toggle_on_unmet_rejected db request k r f t kt :
  reachable db → r ≠ EmptyString →
  get_flag db k = Ret f → is_enabled f = false →
  t ∈ flags db → pk t = Some kt → tc (depends_on db) k kt →
  is_active db t = Ret false →
  ∃ blockers,
    feature_flag_toggle db request k (Some r)
    = (db, Raise (SerializerValidationError
                    [unmet_dependencies_message (title f) blockers])).
Proof.
  intros [Hi Hac]%reachable_consistent Hr Hget Hdis Ht Hkt Hreach Hina.
  pose proof (get_flag_Ret _ _ _ Hget) as [Hf Hk].
  assert (can_be_active db (flipped f) = Ret false) as Hcan.
  { eapply (blocked_by_inactive db Hi Hac k kt Hreach (flipped f) t); try done.
    - by apply same_row_flipped.
    - congruence. }
  destruct (feature_flag_toggle_cases db request k r f Hi Hget Hr)
    as [[_ Hact]|(_ & _ & V & bl & _ & ->)].
  - specialize (Hact Hdis). congruence.
  - by eexists.
Qed.

Lemma toggle_on_unmet_rejected_witness :
  ∃ blockers,
    feature_flag_toggle db_off someone 2 (Some "on")
    = (db_off, Raise (SerializerValidationError
                        [unmet_dependencies_message "B" blockers])).
Proof.
  apply (toggle_on_unmet_rejected db_off someone 2 "on"
           (mkflag 2 "B" false) (mkflag 1 "A" false) 1).
  - by_operations.
  - discriminate.
  - reflexivity.
  - reflexivity.
  - vm_compute. left.
  - reflexivity.
  - apply tc_once. vm_compute. left.
  - reflexivity.
Defined.

(** C5.  A toggle that passes validation does not return: after the row is
    saved, the serializer looks up [AuditLogType.FLAG_TOGGLE], which the class
    does not define (it defines [TOGGLE]), and the [AttributeError] escapes
    the view. *)
Theorem toggle_raises_attribute_error :
  feature_flag_toggle db_ABC someone 1 (Some "off")
  = (update_flag (mkflag 1 "A" false) db_ABC,
     Raise (AttributeError "FLAG_TOGGLE"))
  ∧ AuditLogType_getattr "FLAG_TOGGLE" = Raise (AttributeError "FLAG_TOGGLE")
  ∧ AuditLogType_getattr "TOGGLE" = Ret TOGGLE.
Proof. by vm_compute. Qed.

(** C6.  When the source already reaches the dependent, so that the new row
    would close a cycle, the rejection carries the whole path.  The text of
    the payload is the one of dependency.py l.63-76, written out here: it
    names the dependent and the source and, after "cycle: ", holds the titles
    from the dependent through the source, along existing rows, back to the
    dependent, joined by [" -> "]. *)
Theorem cycle_path_in_payload db request d s dep src :
  reachable db →
  get_flag db d = Ret dep → get_flag db s = Ret src → d ≠ s →
  rtc (depends_on db) s d →
  ∃ p,
    dependency_list_create db request d s
    = (db, Raise (SerializerValidationError
         ["This dependency creates a circular relationship. Adding '"
          +:+ title dep +:+ "' depending on '" +:+ title src
          +:+ "' would form a direct or indirect cycle: "
          +:+ String.concat " -> " (title dep :: List.map title (src :: p))
          +:+ ". Please remove the existing dependency that causes this cycle, or re-evaluate your flag structure."]))
    ∧ last (src :: p) = Some dep
    ∧ linked db (src :: p)
    ∧ Forall (λ f, f ∈ flags db) (src :: p).
Proof.
  intros Hreach Hd Hs Hne Hsd.
  pose proof (reachable_consistent _ Hreach) as Hc.
  destruct (dependency_list_create_cycle db request d s dep src Hc Hd Hs Hne Hsd)
    as (p & Heq & Hl & Hlast & Hall).
  exists p. split_and!; [exact Heq|done|done|].
  constructor; [|done]. by apply get_flag_Ret in Hs as [? _].
Qed.

(** The scenario of C6 and of tests.py, [test_direct_circular_dependency]: A
    depends on B; adding "B depends on A" is rejected and the payload reads
    [... cycle: B -> A -> B. ...]. *)
Lemma cycle_path_in_payload_witness :
  (∃ p,
    dependency_list_create db_A_on_B someone 2 1
    = (db_A_on_B, Raise (SerializerValidationError
         ["This dependency creates a circular relationship. Adding '"
          +:+ "B" +:+ "' depending on '" +:+ "A"
          +:+ "' would form a direct or indirect cycle: "
          +:+ String.concat " -> "
                ("B" :: List.map title (mkflag 1 "A" false :: p))
          +:+ ". Please remove the existing dependency that causes this cycle, or re-evaluate your flag structure."]))
    ∧ last (mkflag 1 "A" false :: p) = Some (mkflag 2 "B" false)
    ∧ linked db_A_on_B (mkflag 1 "A" false :: p)
    ∧ Forall (λ f, f ∈ flags db_A_on_B) (mkflag 1 "A" false :: p))
  ∧ dependency_list_create db_A_on_B someone 2 1
    = (db_A_on_B,
       Raise (SerializerValidationError
         ["This dependency creates a circular relationship. Adding 'B' depending on 'A' would form a direct or indirect cycle: B -> A -> B. Please remove the existing dependency that causes this cycle, or re-evaluate your flag structure."])).
Proof.
  split.
  - apply (cycle_path_in_payload db_A_on_B someone 2 1
             (mkflag 2 "B" false) (mkflag 1 "A" false)).
    + by_operations.
    + reflexivity.
    + reflexivity.
    + lia.
    + apply rtc_once. vm_compute. left.
  - vm_compute. reflexivity.
Defined.

(** C7, as amended.  Creation does not look at whether the sources are
    active.  With an unused title and distinct stored sources the call
    succeeds: the flag is stored with the requested enabled bit, together
    with one row per source.  And whenever the call does not succeed, nothing
    is committed. *)
Theorem create_with_dependencies_commits db request t e srcs :
  reachable db →
  valid_title t → (∀ f, f ∈ flags db → title f ≠ t) →
  NoDup srcs → (∀ s, s ∈ srcs → s ∈ flags db) →
  let new := {| pk := Some (next_pk db); title := t; is_enabled := e |} in
  (∃ db' rows,
     feature_flag_list_create db request t e (title <$> srcs)
     = (db', Ret (HTTP_201_CREATED new))
     ∧ flags db' = flags db ++ [new]
     ∧ dependencies db' = dependencies db ++ rows
     ∧ Forall2 (λ s r, dependent_flag_id r = next_pk db
                       ∧ pk s = Some (source_flag_id r)) srcs rows)
  ∧ (∀ t' e' data,
       (∀ r, snd (feature_flag_list_create db request t' e' data) ≠ Ret r) →
       fst (feature_flag_list_create db request t' e' data) = db).
Proof.
  intros Hreach Hvalid Hfresh Hnd Hsrcs new.
  pose proof (reachable_consistent _ Hreach) as Hc.
  split; [|intros t' e' data; apply feature_flag_list_create_rollback].
  assert (existsb (λ f, bool_decide (title f = t)) (flags db) = false) as Hex.
  { apply not_true_iff_false. intros (f & Hf & Ht)%existsb_exists.
    apply bool_decide_eq_true in Ht. apply list_elem_of_In in Hf.
    by apply (Hfresh f). }
  destruct (create_initial_dependencies_ok (Some request) new (next_pk db) eq_refl
              srcs (insert_flag new db))
    as (db' & rows & Hloop & Hflags & Hrows & Hall).
  - by apply consistent_insert_flag.
  - simpl. apply elem_of_app. right. by apply list_elem_of_singleton.
  - simpl. intros r Hr Heq.
    destruct (fk_source _ (proj1 Hc) r Hr) as (f & Hf & Hpk).
    destruct (pk_bound _ (proj1 Hc) f Hf) as (k & Hk & Hlt).
    rewrite Hpk in Hk. injection Hk as <-. lia.
  - done.
  - intros s Hs. pose proof (Hsrcs s Hs) as Hin.
    destruct (pk_bound _ (proj1 Hc) s Hin) as (k & Hk & Hlt).
    split_and!.
    + simpl. apply elem_of_app. by left.
    + rewrite Hk. intros [= ->]. lia.
    + intros ks _ Hdep. unfold depends_on in Hdep. simpl in Hdep.
      destruct (fk_dependent _ (proj1 Hc) _ Hdep) as (f & Hf & Hpk).
      destruct (pk_bound _ (proj1 Hc) f Hf) as (k' & Hk' & Hlt').
      rewrite Hpk in Hk'. simpl in Hk'. injection Hk' as <-. lia.
  - exists db', rows. split_and!; try done.
    unfold feature_flag_list_create.
    rewrite (proj2 (validate_title_Ret db t t)) by done.
    rewrite (validate_initial_dependencies_ok db srcs (proj1 Hc) Hsrcs).
    unfold FeatureFlagRetrieveSerializer_create, FeatureFlag_save.
    cbn [pk title is_enabled]. rewrite Hex. fold new. rewrite Hloop. done.
Qed.

Lemma create_with_dependencies_commits_witness :
  let new := {| pk := Some (next_pk db_off); title := "D"; is_enabled := true |} in
  (∃ db' rows,
     feature_flag_list_create db_off someone "D" true
       (title <$> [mkflag 1 "A" false])
     = (db', Ret (HTTP_201_CREATED new))
     ∧ flags db' = flags db_off ++ [new]
     ∧ dependencies db' = dependencies db_off ++ rows
     ∧ Forall2 (λ s r, dependent_flag_id r = next_pk db_off
                       ∧ pk s = Some (source_flag_id r))
         [mkflag 1 "A" false] rows)
  ∧ (∀ t' e' data,
       (∀ r, snd (feature_flag_list_create db_off someone t' e' data) ≠ Ret r) →
       fst (feature_flag_list_create db_off someone t' e' data) = db_off).
Proof.
  apply (create_with_dependencies_commits db_off someone "D" true
           [mkflag 1 "A" false]).
  - by_operations.
  - split; [done|simpl; lia].
  - intros f Hf. vm_compute in Hf.
    repeat (apply elem_of_cons in Hf as [->|Hf]); [done..|].
    by apply elem_of_nil in Hf.
  - apply NoDup_singleton.
  - intros s ->%list_elem_of_singleton. vm_compute. left.
Defined.

(** C7 as stated fails: A and B are disabled, so A is not active, yet
    creating D enabled with A as its source succeeds and commits the flag
    and the row; D is then enabled and not active. *)
Lemma create_unmet_counterexample :
  let db' := fst (feature_flag_list_create db_off someone "D" true ["A"]) in
  is_active db_off (mkflag 1 "A" false) = Ret false
  ∧ snd (feature_flag_list_create db_off someone "D" true ["A"])
    = Ret (HTTP_201_CREATED (mkflag 3 "D" true))
  ∧ flags db' = flags db_off ++ [mkflag 3 "D" true]
  ∧ dependencies db' = dependencies db_off ++ [mkdep 3 1]
  ∧ is_active db' (mkflag 3 "D" true) = Ret false.
Proof. by vm_compute. Qed.

(** C8, as amended.  When toggling a disabled flag to enabled fails, the
    reported list consists exactly of the disabled flags met on the flag's
    dependency chains, each reached through enabled flags only.  Nothing is
    claimed about how often a flag is listed: the list is not deduplicated. *)
Theorem blockers_reported db request k r f detail :
  reachable db → r ≠ EmptyString →
  get_flag db k = Ret f → is_enabled f = false →
  snd (feature_flag_toggle db request k (Some r))
  = Raise (SerializerValidationError detail) →
  ∃ blocking,
    detail = [unmet_dependencies_message (title f)
                (List.map (λ x, quoted (title x)) blocking)]
    ∧ ∀ x, x ∈ blocking ↔ blocks db k x.
Proof.
  intros Hreach Hr Hget Hdis Hfail.
  pose proof (reachable_consistent _ Hreach) as Hc.
  pose proof (get_flag_Ret _ _ _ Hget) as [Hf Hk].
  destruct (feature_flag_toggle_cases db request k r f (proj1 Hc) Hget Hr)
    as [[Heq _]|(_ & _ & V & bl & Hfind & Heq)]; rewrite Heq in Hfail;
    simpl in Hfail; [done|].
  injection Hfail as <-. exists bl. split; [done|].
  intros x. split.
  - intros Hx.
    destruct (_find_blocking_dependencies_sound db _ (flipped f) k _ _ Hk Hfind x)
      as [Hnil|Hb]; [done| |done].
    by apply elem_of_nil in Hnil.
  - apply (_find_blocking_dependencies_complete db _ (flipped f) k (V, bl) Hc Hk Hfind).
Qed.

Lemma blockers_reported_witness :
  ∃ blocking,
    [unmet_dependencies_message "B" ["'A'"]]
    = [unmet_dependencies_message (title (mkflag 2 "B" false))
         (List.map (λ x, quoted (title x)) blocking)]
    ∧ ∀ x, x ∈ blocking ↔ blocks db_off 2 x.
Proof.
  apply (blockers_reported db_off someone 2 "on" (mkflag 2 "B" false)).
  - by_operations.
  - discriminate.
  - reflexivity.
  - reflexivity.
  - reflexivity.
Defined.

(** C8 as stated fails: in the diamond the disabled flag D is reported
    twice, once for each of B and C. *)
Lemma blockers_counterexample :
  ∃ V,
    _find_blocking_dependencies db_diamond (recursion_budget db_diamond)
      (mkflag 4 "A" true) (∅, [])
    = Ret (V, [mkflag 1 "D" false; mkflag 1 "D" false])
    ∧ ¬ NoDup [mkflag 1 "D" false; mkflag 1 "D" false]
    ∧ feature_flag_toggle db_diamond someone 4 (Some "on")
      = (db_diamond,
         Raise (SerializerValidationError
                  [unmet_dependencies_message "A" ["'D'"; "'D'"]])).
Proof.
  eexists. split_and!.
  - vm_compute. reflexivity.
  - intros Hnd. apply NoDup_cons in Hnd as [Hnin _]. apply Hnin. left.
  - vm_compute. reflexivity.
Qed.

(** C9, as amended.  Adding a dependency of a stored flag on itself is
    rejected with the self-dependency message, which differs from every cycle
    message; the rejection is reached with a search budget of zero, that is
    without any traversal, and the tables are unchanged.  The error has the
    same class and the same code, [dependency_conflict], as a cycle
    rejection: the two differ by their message only. *)
Theorem self_dependency_rejected db request k f :
  reachable db → get_flag db k = Ret f →
  dependency_list_create db request k k
  = (db, Raise (SerializerValidationError [self_dependency_message]))
  ∧ Dependency_clean_with 0 db {| dependent_flag := f; source_flag := f |}
    = Raise (dependency_conflict self_dependency_message)
  ∧ (∀ a b c, self_dependency_message ≠ cycle_message a b c)
  ∧ (∀ a b c, error_kind (dependency_conflict self_dependency_message)
              = error_kind (dependency_conflict (cycle_message a b c)))
  ∧ ListDependencies (fst (dependency_list_create db request k k))
    = ListDependencies db.
Proof.
  intros [Hi Hac]%reachable_consistent Hget.
  pose proof (get_flag_Ret _ _ _ Hget) as [Hf Hk].
  assert (dependency_list_create db request k k
          = (db, Raise (SerializerValidationError [self_dependency_message])))
    as Heq.
  { unfold dependency_list_create, primary_key_related_field. rewrite Hget.
    unfold DependencySerializer_create, Dependency_save, Dependency_full_clean.
    set (self := {| dependent_flag := f; source_flag := f |}).
    destruct (Dependency_clean_cases db self k k Hi Hf Hk Hk)
      as [[_ ->]|[(? & _)|(? & _)]]; [|done..].
    destruct (Dependency_validate_unique_cases db self k k Hk Hk)
      as [[Hdup _]|[_ ->]]; [|done].
    destruct (Hac k). by apply tc_once. }
  split_and!.
  - done.
  - unfold Dependency_clean_with. simpl. by rewrite bool_decide_eq_true_2.
  - apply self_dependency_message_distinct.
  - done.
  - by rewrite Heq.
Qed.

Lemma self_dependency_rejected_witness :
  dependency_list_create db_ABC someone 1 1
  = (db_ABC, Raise (SerializerValidationError [self_dependency_message]))
  ∧ Dependency_clean_with 0 db_ABC
      {| dependent_flag := mkflag 1 "A" true; source_flag := mkflag 1 "A" true |}
    = Raise (dependency_conflict self_dependency_message)
  ∧ (∀ a b c, self_dependency_message ≠ cycle_message a b c)
  ∧ (∀ a b c, error_kind (dependency_conflict self_dependency_message)
              = error_kind (dependency_conflict (cycle_message a b c)))
  ∧ ListDependencies (fst (dependency_list_create db_ABC someone 1 1))
    = ListDependencies db_ABC.
Proof.
  apply (self_dependency_rejected db_ABC someone 1 (mkflag 1 "A" true)).
  - by_operations.
  - reflexivity.
Defined.

(** C9 as stated fails: where A depends on B, the error raised for "A
    depends on A" and the error raised for the cycle "B depends on A" have the
    same kind; the view renders both as the same exception with one
    message. *)
Lemma self_dependency_kind_counterexample :
  ∃ e_self e_cycle,
    snd (Dependency_save db_A_on_B
           {| dependent_flag := mkflag 1 "A" false;
              source_flag := mkflag 1 "A" false |}) = Raise e_self
    ∧ snd (Dependency_save db_A_on_B
             {| dependent_flag := mkflag 2 "B" false;
                source_flag := mkflag 1 "A" false |}) = Raise e_cycle
    ∧ e_cycle = dependency_conflict (cycle_message "B" "A" "B -> A -> B")
    ∧ error_kind e_self = error_kind e_cycle
    ∧ (∃ m, snd (dependency_list_create db_A_on_B someone 1 1)
            = Raise (SerializerValidationError [m]))
    ∧ (∃ m, snd (dependency_list_create db_A_on_B someone 2 1)
            = Raise (SerializerValidationError [m])).
Proof.
  eexists _, _. split_and!; [by vm_compute|by vm_compute|done|done|..];
    eexists; by vm_compute.
Qed.

(** C10.  On any tables that satisfy the integrity constraints, cyclic rows
    included, the search started from a stored flag returns within the
    budget.  No node is expanded twice in a call: a node already in the
    visited set returns at once with the state untouched, and every expansion
    adds its node to the visited set. *)
Theorem cycle_search_terminates db cur tgt :
  integrity db → cur ∈ flags db →
  (∃ b st,
     _find_path_and_detect_cycle db (recursion_budget db) cur tgt empty_search
     = Ret (b, st)
     ∧ NoDup (expanded st))
  ∧ (∀ (n : nat) st,
       pk cur ≠ pk tgt → pk cur ∈ visited st →
       _find_path_and_detect_cycle db (S n) cur tgt st = Ret (false, st))
  ∧ (∀ (n : nat) st b st',
       pk cur ≠ pk tgt → pk cur ∉ visited st →
       _find_path_and_detect_cycle db (S n) cur tgt st = Ret (b, st') →
       pk cur ∈ visited st' ∧ visited st ⊆ visited st').
Proof.
  intros Hi Hcur. split_and!.
  - destruct (_find_path_and_detect_cycle_total db tgt Hi (recursion_budget db)
                cur empty_search) as (b & st & Hfind).
    { by left. }
    { apply budget_pks. }
    exists b, st. split; [done|].
    eapply _find_path_and_detect_cycle_expanded; [exact Hfind|].
    simpl. split; [|constructor]. intros k Hk. by apply elem_of_nil in Hk.
  - intros n st Hne Hv. simpl.
    rewrite bool_decide_eq_false_2 by done. by rewrite bool_decide_eq_true_2.
  - intros n st b st' Hne Hv Hfind.
    pose proof (_find_path_and_detect_cycle_visited _ _ _ _ _ _ _ Hfind) as Hm.
    split; [|done]. simpl in Hfind.
    rewrite bool_decide_eq_false_2 in Hfind by done.
    rewrite bool_decide_eq_false_2 in Hfind by done.
    apply bind_Ret in Hfind as ([found st2] & Hloop & Hfind).
    assert (pk cur ∈ visited st2) as Hin.
    { eapply (first_rule_cases (λ s, pk cur ∈ visited s)) in Hloop.
      - destruct found; [|done].
        destruct Hloop as (r & s1 & _ & Hs1 & Hbody).
        apply bind_Ret in Hbody as (next & _ & Hfind').
        apply _find_path_and_detect_cycle_visited in Hfind'. set_solver.
      - intros r s s' _ Hs Hbody.
        apply bind_Ret in Hbody as (next & _ & Hfind').
        apply _find_path_and_detect_cycle_visited in Hfind'. set_solver.
      - simpl. set_solver. }
    destruct found; by simplify_eq.
Qed.

Lemma cycle_search_terminates_witness :
  (∃ b st,
     _find_path_and_detect_cycle db_cyclic (recursion_budget db_cyclic)
       (mkflag 1 "A" true) (mkflag 7 "Z" true) empty_search
     = Ret (b, st)
     ∧ NoDup (expanded st))
  ∧ (∀ (n : nat) st,
       pk (mkflag 1 "A" true) ≠ pk (mkflag 7 "Z" true) →
       pk (mkflag 1 "A" true) ∈ visited st →
       _find_path_and_detect_cycle db_cyclic (S n)
         (mkflag 1 "A" true) (mkflag 7 "Z" true) st = Ret (false, st))
  ∧ (∀ (n : nat) st b st',
       pk (mkflag 1 "A" true) ≠ pk (mkflag 7 "Z" true) →
       pk (mkflag 1 "A" true) ∉ visited st →
       _find_path_and_detect_cycle db_cyclic (S n)
         (mkflag 1 "A" true) (mkflag 7 "Z" true) st = Ret (b, st') →
       pk (mkflag 1 "A" true) ∈ visited st' ∧ visited st ⊆ visited st').
Proof.
  apply (cycle_search_terminates db_cyclic (mkflag 1 "A" true) (mkflag 7 "Z" true)).
  - apply integrity_db_cyclic.
  - simpl. left.
Defined.

(** * Further results *)

(** X1.  In every reachable state [is_active] of a stored flag returns, and
    it returns [True] exactly when the flag is enabled and every stored flag
    it reaches over one or more dependency rows is enabled.
    [Dependency.evaluate] of a rule whose source is that flag returns the
    same value. *)
Theorem is_active_closed_form db f k :
  reachable db → f ∈ flags db → pk f = Some k →
  ∃ b, is_active db f = Ret b
       ∧ (b = true ↔ is_enabled f = true ∧ dependencies_enabled db k)
       ∧ ∀ d, Dependency_evaluate db {| dependent_flag := d; source_flag := f |}
              = Ret b.
Proof.
  intros [Hi Hac]%reachable_consistent Hf Hk.
  destruct (is_active_true_iff db Hi Hac f k Hf Hk) as (b & Hb & Hiff).
  exists b. split_and!; done.
Qed.

Lemma is_active_closed_form_witness :
  ∃ b, is_active db_ABC (mkflag 3 "C" true) = Ret b
       ∧ (b = true ↔ is_enabled (mkflag 3 "C" true) = true
                     ∧ dependencies_enabled db_ABC 3)
       ∧ ∀ d, Dependency_evaluate db_ABC
                {| dependent_flag := d; source_flag := mkflag 3 "C" true |}
              = Ret b.
Proof.
  apply (is_active_closed_form db_ABC (mkflag 3 "C" true) 3).
  - by_operations.
  - vm_compute. do 2 right. left.
  - reflexivity.
Defined.

(** X2.  On any tables that satisfy the integrity constraints, rows with
    cycles included (the views never produce them), [is_active] of a stored
    flag returns, and it returns [True] exactly when the flag is enabled,
    every flag it reaches over dependency rows is enabled, and it reaches no
    cycle of rows.  A flag that lies on a cycle or reaches one is never
    active, whatever the enabled bits: the visited test answers [False]. *)
Theorem is_active_any_tables db f k :
  integrity db → f ∈ flags db → pk f = Some k →
  ∃ b, is_active db f = Ret b
       ∧ (b = true ↔ is_enabled f = true ∧ dependencies_enabled db k
                     ∧ ¬ reaches_cycle db k).
Proof.
  intros Hi Hf Hk.
  destruct (can_be_active_general db f k Hi Hf Hk) as (b & Hb & Hiff).
  unfold is_active. destruct (is_enabled f); simpl.
  - exists b. split; [done|]. rewrite Hiff. naive_solver.
  - exists false. split; [done|]. naive_solver.
Qed.

Lemma is_active_any_tables_witness :
  (∃ b, is_active db_cyclic (mkflag 1 "A" true) = Ret b
        ∧ (b = true ↔ is_enabled (mkflag 1 "A" true) = true
                      ∧ dependencies_enabled db_cyclic 1
                      ∧ ¬ reaches_cycle db_cyclic 1))
  ∧ reaches_cycle db_cyclic 1
  ∧ is_active db_cyclic (mkflag 1 "A" true) = Ret false.
Proof.
  split_and!.
  - apply (is_active_any_tables db_cyclic (mkflag 1 "A" true) 1).
    + apply integrity_db_cyclic.
    + vm_compute. left.
    + reflexivity.
  - exists 1. split; [done|].
    apply tc_l with 2; [|apply tc_once].
    + vm_compute. left.
    + vm_compute. right. left.
  - vm_compute. reflexivity.
Defined.

(** X3.  [FeatureFlag.save] of a stored flag on consistent tables: saving it
    as disabled always writes the row; saving it as enabled writes the row
    when every flag it reaches over dependency rows is enabled, and otherwise
    raises a validation error and writes nothing.  After a write, the row
    read back by its key is the object saved. *)
Theorem FeatureFlag_save_stored db f k e :
  consistent db → f ∈ flags db → pk f = Some k →
  let self := {| pk := pk f; title := title f; is_enabled := e |} in
  (e = false ∨ dependencies_enabled db k →
   FeatureFlag_save db self = (update_flag self db, Ret self)
   ∧ get_flag (update_flag self db) k = Ret self)
  ∧ (e = true → ¬ dependencies_enabled db k →
     ∃ m, FeatureFlag_save db self = (db, Raise (ValidationError [m]))).
Proof.
  intros [Hi Hac] Hf Hk self.
  assert (same_row db self) as Hrow by (by exists f).
  assert (pk self = Some k) as Hk' by done.
  pose proof (can_be_active_true_iff db Hi Hac self k Hrow Hk') as Hiff.
  destruct (FeatureFlag_save_cases db self k Hi Hrow Hk')
    as [[Hsave Hact]|(Hen & Hcan & V & bl & _ & Hsave)].
  - split.
    + intros _. split; [done|]. by apply get_flag_update.
    + intros -> Hno. destruct Hno. apply Hiff. by apply Hact.
  - split.
    + intros [->|Hall]; [done|]. apply Hiff in Hall. congruence.
    + intros _ _. eauto.
Qed.

Lemma FeatureFlag_save_stored_witness :
  (FeatureFlag_save db_off (mkflag 1 "A" true)
   = (update_flag (mkflag 1 "A" true) db_off, Ret (mkflag 1 "A" true))
   ∧ get_flag (update_flag (mkflag 1 "A" true) db_off) 1
     = Ret (mkflag 1 "A" true))
  ∧ ∃ m, FeatureFlag_save db_off (mkflag 2 "B" true)
         = (db_off, Raise (ValidationError [m])).
Proof.
  assert (consistent db_off) as Hc by (apply reachable_consistent; by_operations).
  split.
  - apply (FeatureFlag_save_stored db_off (mkflag 1 "A" false) 1 true Hc);
      [vm_compute; left|reflexivity|].
    right. intros x kx _ _ Hreach. exfalso.
    apply tc_rtc_r with (z := kx) in Hreach; [|done].
    inversion Hreach as [?? Hedge|??? Hedge _]; subst; vm_compute in Hedge;
      (repeat (apply elem_of_cons in Hedge as [Hedge|Hedge]; [by simplify_eq|]));
      by apply elem_of_nil in Hedge.
  - apply (FeatureFlag_save_stored db_off (mkflag 2 "B" false) 2 true Hc);
      [vm_compute; right; left|reflexivity|reflexivity|].
    intros Hall.
    assert (is_enabled (mkflag 1 "A" false) = true) as Hen; [|done].
    apply (Hall (mkflag 1 "A" false) 1); [vm_compute; left|reflexivity|].
    apply tc_once. vm_compute. left.
Defined.

(** X4.  On consistent tables, whenever [FeatureFlag.clean] of a stored flag
    raises, the list of blocking flags it reports is not empty: its first
    element is a disabled flag reached from the flag through enabled flags
    only.  The message therefore is always the one that names the blocking
    flags; the fallback text for an empty list is not used. *)
Theorem unmet_dependencies_names_blocker db self k e :
  consistent db → same_row db self → pk self = Some k →
  FeatureFlag_clean db self = Raise e →
  ∃ x bl,
    e = ValidationError [unmet_dependencies self (x :: bl)]
    ∧ blocks db k x
    ∧ message (unmet_dependencies self (x :: bl))
      = "Cannot activate feature flag '" +:+ title self
        +:+ "' due to unmet dependencies. "
        +:+ ("because its dependent flag(s) "
             +:+ String.concat ", " (List.map (λ f, quoted (title f)) (x :: bl))
             +:+ " are currently not active or have unmet dependencies.")
        +:+ " Please ensure all required flags in its dependency chain are active.".
Proof.
  intros Hc Hrow Hk Hclean. pose proof Hc as [Hi Hac].
  destruct (FeatureFlag_clean_cases db self k Hi Hrow Hk)
    as [[Hok _]|(Hen & Hcan & V & bl & Hfind & Hraise)]; [congruence|].
  rewrite Hraise in Hclean. injection Hclean as <-.
  destruct (can_be_active_false_blocked db Hi Hac self k Hrow Hk Hcan) as [x Hx].
  pose proof (_find_blocking_dependencies_complete db _ self k (V, bl) Hc Hk Hfind
                x Hx) as Hin.
  destruct bl as [|y bl]; [by apply elem_of_nil in Hin|].
  exists y, bl. split_and!; [done| |done].
  destruct (_find_blocking_dependencies_sound db _ self k _ _ Hk Hfind y)
    as [Hnil|Hb]; [by left| |done].
  by apply elem_of_nil in Hnil.
Qed.

Lemma unmet_dependencies_names_blocker_witness :
  ∃ x bl,
    ValidationError [unmet_dependencies (mkflag 2 "B" true) [mkflag 1 "A" false]]
    = ValidationError [unmet_dependencies (mkflag 2 "B" true) (x :: bl)]
    ∧ blocks db_off 2 x
    ∧ message (unmet_dependencies (mkflag 2 "B" true) (x :: bl))
      = "Cannot activate feature flag '" +:+ title (mkflag 2 "B" true)
        +:+ "' due to unmet dependencies. "
        +:+ ("because its dependent flag(s) "
             +:+ String.concat ", " (List.map (λ f, quoted (title f)) (x :: bl))
             +:+ " are currently not active or have unmet dependencies.")
        +:+ " Please ensure all required flags in its dependency chain are active.".
Proof.
  apply (unmet_dependencies_names_blocker db_off (mkflag 2 "B" true) 2).
  - apply reachable_consistent. by_operations.
  - exists (mkflag 2 "B" false). split_and!; [|done..]. vm_compute. right. left.
  - reflexivity.
  - reflexivity.
Defined.

(** X5.  On tables that satisfy the integrity constraints but hold a cycle
    of dependency rows, with every flag enabled, [FeatureFlag.clean] of a
    stored enabled flag that reaches the cycle raises with an empty list of
    blocking flags, and the message is the fallback text. *)
Theorem unmet_dependencies_fallback db f k c :
  integrity db → (∀ x, x ∈ flags db → is_enabled x = true) →
  f ∈ flags db → pk f = Some k →
  rtc (depends_on db) k c → tc (depends_on db) c c →
  FeatureFlag_clean db f
  = Raise (ValidationError
      [{| message :=
            "Cannot activate feature flag '" +:+ title f
            +:+ "' due to unmet dependencies. "
            +:+ "because one or more of its dependencies (direct or indirect) is not active."
            +:+ " Please ensure all required flags in its dependency chain are active.";
          code := None |}]).
Proof.
  intros Hi Hall Hf Hk Hreach Hcyc.
  pose proof (can_be_active_cycle db f k c Hi Hf Hk Hreach Hcyc) as Hcan.
  destruct (FeatureFlag_clean_cases db f k Hi (same_row_stored _ _ Hf) Hk)
    as [[_ Hact]|(_ & _ & V & bl & Hfind & ->)].
  { rewrite Hact in Hcan; [done|]. by apply Hall. }
  destruct bl as [|x bl]; [done|]. exfalso.
  destruct (_find_blocking_dependencies_sound db _ f k _ _ Hk Hfind x)
    as [Hnil|Hb]; [by left|by apply elem_of_nil in Hnil|].
  apply blocks_target in Hb as (Hx & Hdis & _).
  rewrite (Hall x Hx) in Hdis. done.
Qed.

Lemma unmet_dependencies_fallback_witness :
  FeatureFlag_clean db_cyclic (mkflag 1 "A" true)
  = Raise (ValidationError
      [{| message :=
            "Cannot activate feature flag '" +:+ title (mkflag 1 "A" true)
            +:+ "' due to unmet dependencies. "
            +:+ "because one or more of its dependencies (direct or indirect) is not active."
            +:+ " Please ensure all required flags in its dependency chain are active.";
          code := None |}]).
Proof.
  apply (unmet_dependencies_fallback db_cyclic (mkflag 1 "A" true) 1 1).
  - apply integrity_db_cyclic.
  - intros x Hx. vm_compute in Hx.
    repeat (apply elem_of_cons in Hx as [->|Hx]); [done..|].
    by apply elem_of_nil in Hx.
  - vm_compute. left.
  - reflexivity.
  - apply rtc_refl.
  - apply tc_l with 2; [|apply tc_once].
    + vm_compute. left.
    + vm_compute. right. left.
Defined.

(** X6.  The cycle path reported when a row is rejected names no flag twice,
    apart from the dependent that opens and closes it: the flags from the
    source to the dependent are pairwise different. *)
Theorem cycle_path_simple db request d s dep src :
  reachable db →
  get_flag db d = Ret dep → get_flag db s = Ret src → d ≠ s →
  rtc (depends_on db) s d →
  ∃ p,
    dependency_list_create db request d s
    = (db, Raise (SerializerValidationError
                    [cycle_message (title dep) (title src)
                       (full_cycle_path dep (src :: p))]))
    ∧ last (src :: p) = Some dep
    ∧ NoDup (title <$> src :: p).
Proof.
  intros [Hi Hac]%reachable_consistent Hd Hs Hne Hreach.
  pose proof (get_flag_Ret _ _ _ Hd) as [Hdin Hdpk].
  pose proof (get_flag_Ret _ _ _ Hs) as [Hsin Hspk].
  destruct (_find_path_and_detect_cycle_total db dep Hi (recursion_budget db)
              src empty_search) as (b & st' & Hfind);
    [by left|apply budget_pks|].
  destruct b; [|by destruct (search_complete db src dep st' s d Hspk Hdpk Hfind)].
  pose proof (_find_path_and_detect_cycle_simple db dep _ _ _ _ Hfind
                (simple_search_empty dep)) as Hnd.
  pose proof (_find_path_and_detect_cycle_path _ _ _ _ _ _ _ Hfind)
    as (p & e & Hp & Hl & Hlast & He & Hall). simpl in Hp.
  exists p.
  assert (e = dep) as ->.
  { apply last_cons_elem in Hlast as [[-> ->]|Hin].
    - simpl in He. congruence.
    - eapply pk_inj; eauto. by eapply Forall_forall in Hall. }
  split_and!; [|done|].
  - unfold dependency_list_create, primary_key_related_field.
    rewrite Hd, Hs.
    unfold DependencySerializer_create, Dependency_save, Dependency_full_clean.
    set (self := {| dependent_flag := dep; source_flag := src |}).
    destruct (Dependency_validate_unique_cases db self d s Hdpk Hspk)
      as [[Hdup _]|[_ Huniq]].
    { destruct (Hac d). by eapply tc_rtc_r; [apply tc_once|]. }
    rewrite Huniq. unfold Dependency_clean, Dependency_clean_with.
    rewrite bool_decide_eq_false_2 by (simpl; congruence).
    simpl dependent_flag. simpl source_flag. rewrite Hfind, bind_ret, Hp. done.
  - apply (NoDup_titles db); [done| |by rewrite <- Hp].
    constructor; done.
Qed.

Lemma cycle_path_simple_witness :
  ∃ p,
    dependency_list_create db_ABC someone 1 3
    = (db_ABC, Raise (SerializerValidationError
                        [cycle_message (title (mkflag 1 "A" true))
                           (title (mkflag 3 "C" true))
                           (full_cycle_path (mkflag 1 "A" true)
                              (mkflag 3 "C" true :: p))]))
    ∧ last (mkflag 3 "C" true :: p) = Some (mkflag 1 "A" true)
    ∧ NoDup (title <$> mkflag 3 "C" true :: p).
Proof.
  apply (cycle_path_simple db_ABC someone 1 3).
  - by_operations.
  - reflexivity.
  - reflexivity.
  - lia.
  - apply rtc_l with 2; [|apply rtc_once].
    + vm_compute. right. left.
    + vm_compute. left.
Defined.

(** X7.  POST [api/dependencies/] on tables that satisfy the integrity
    constraints, as every reachable state does, has two outcomes.  If
    both keys are stored, the source does not reach the dependent (in
    particular they differ) and the row does not exist yet, the answer is 201
    and exactly that row is appended.  In every other case a validation error
    is raised and the tables are unchanged; no other exception escapes.  The
    enabled bits play no part. *)
Theorem dependency_list_create_outcome db request d s :
  integrity db →
  (acceptable_dependency db d s →
   ∃ dep src,
     get_flag db d = Ret dep ∧ get_flag db s = Ret src
     ∧ dependency_list_create db request d s
       = (insert_dependency {| dependent_flag_id := d; source_flag_id := s |} db,
          Ret (HTTP_201_CREATED {| dependent_flag := dep; source_flag := src |})))
  ∧ (¬ acceptable_dependency db d s →
     ∃ detail,
       dependency_list_create db request d s
       = (db, Raise (SerializerValidationError detail))).
Proof.
  intros Hi.
  destruct (dependency_list_create_cases db request d s Hi)
    as [(dep & src & Hd & Hs & Hne & Hno & Hnew & Heq)|[detail Heq]].
  - split; [by exists dep, src|].
    intros Hnot. destruct Hnot.
    apply get_flag_Ret in Hd as [? ?]. apply get_flag_Ret in Hs as [? ?].
    split_and!; eauto.
  - split; [|by exists detail].
    intros ((fd & Hfd & Hd) & (fs & Hfs & Hs) & Hno & Hnew). exfalso.
    assert (d ≠ s) as Hne by (intros ->; by apply Hno).
    revert Heq. unfold dependency_list_create, primary_key_related_field.
    rewrite (get_flag_eq db d fd Hi Hfd Hd), (get_flag_eq db s fs Hi Hfs Hs).
    unfold DependencySerializer_create.
    by rewrite (Dependency_save_ok db {| dependent_flag := fd; source_flag := fs |}
                  d s Hi Hfs Hd Hs Hne Hno Hnew).
Qed.

Lemma dependency_list_create_outcome_witness :
  acceptable_dependency db_ABC 3 1
  ∧ (∃ dep src,
       get_flag db_ABC 3 = Ret dep ∧ get_flag db_ABC 1 = Ret src
       ∧ dependency_list_create db_ABC someone 3 1
         = (insert_dependency {| dependent_flag_id := 3; source_flag_id := 1 |}
              db_ABC,
            Ret (HTTP_201_CREATED {| dependent_flag := dep; source_flag := src |})))
  ∧ ¬ acceptable_dependency db_ABC 3 2
  ∧ ∃ detail,
      dependency_list_create db_ABC someone 3 2
      = (db_ABC, Raise (SerializerValidationError detail)).
Proof.
  assert (integrity db_ABC) as Hreach.
  { apply (reachable_consistent db_ABC). by_operations. }
  assert (acceptable_dependency db_ABC 3 1) as Hacc.
  { split_and!.
    - exists (mkflag 3 "C" true). split; [|done]. vm_compute. do 2 right. left.
    - exists (mkflag 1 "A" true). split; [|done]. vm_compute. left.
    - intros [Heq|(y & Hedge & _)]%rtc_inv; [done|].
      vm_compute in Hedge.
      repeat (apply elem_of_cons in Hedge as [Hedge|Hedge]; [by simplify_eq|]).
      by apply elem_of_nil in Hedge.
    - intros Hedge. vm_compute in Hedge.
      repeat (apply elem_of_cons in Hedge as [Hedge|Hedge]; [by simplify_eq|]).
      by apply elem_of_nil in Hedge. }
  assert (¬ acceptable_dependency db_ABC 3 2) as Hnot.
  { intros (_ & _ & _ & Hnew). apply Hnew. vm_compute. right. left. }
  split_and!; [done| |done|].
  - by apply (dependency_list_create_outcome db_ABC someone 3 1 Hreach).
  - by apply (dependency_list_create_outcome db_ABC someone 3 2 Hreach).
Defined.

(** X8.  POST [api/featureflags/] in a reachable state has two outcomes.
    Either the answer is 201 with the new flag, and then the title was valid
    and unused, every source title named a stored flag and no source title
    was repeated; or a validation error is raised and the tables are
    unchanged.  No other exception escapes the view. *)
Theorem feature_flag_list_create_outcome db request t e data :
  reachable db →
  (∃ db',
     feature_flag_list_create db request t e data
     = (db', Ret (HTTP_201_CREATED
                    {| pk := Some (next_pk db); title := t; is_enabled := e |}))
     ∧ valid_title t ∧ (∀ f, f ∈ flags db → title f ≠ t)
     ∧ NoDup data
     ∧ ∀ x, x ∈ data → ∃ s, s ∈ flags db ∧ title s = x)
  ∨ (∃ detail,
       feature_flag_list_create db request t e data
       = (db, Raise (SerializerValidationError detail))).
Proof.
  intros Hc%reachable_consistent.
  destruct (feature_flag_list_create_cases db request t e data Hc)
    as [(db' & srcs & rows & Heq & Hvalid & Hfresh & -> & Hnd & Hall & _)
       |[detail Heq]]; [left|right; eauto].
  exists db'. split_and!; try done.
  intros x (s & -> & Hs)%list_elem_of_fmap. exists s. split; [|done].
  by eapply Forall_forall in Hall.
Qed.

Lemma feature_flag_list_create_outcome_witness :
  ((∃ db',
     feature_flag_list_create db_off someone "D" true ["A"; "A"]
     = (db', Ret (HTTP_201_CREATED
                    {| pk := Some (next_pk db_off); title := "D";
                       is_enabled := true |}))
     ∧ valid_title "D" ∧ (∀ f, f ∈ flags db_off → title f ≠ "D")
     ∧ NoDup ["A"; "A"]
     ∧ ∀ x, x ∈ ["A"; "A"] → ∃ s, s ∈ flags db_off ∧ title s = x)
   ∨ (∃ detail,
       feature_flag_list_create db_off someone "D" true ["A"; "A"]
       = (db_off, Raise (SerializerValidationError detail))))
  ∧ ∃ detail,
      feature_flag_list_create db_off someone "D" true ["A"; "A"]
      = (db_off, Raise (SerializerValidationError detail)).
Proof.
  split.
  - apply (feature_flag_list_create_outcome db_off someone "D" true ["A"; "A"]).
    by_operations.
  - eexists. vm_compute. reflexivity.
Defined.

(** X9.  When the creation of a flag succeeds, it appends to the audit log
    exactly one entry per initial dependency, in the order submitted: of type
    [CREATE], with an empty reason, the requesting user as creator and the
    source flag of the dependency as its flag.  No entry refers to the flag
    that was created. *)
Theorem creation_audit_log db request t e data db' r :
  reachable db →
  feature_flag_list_create db request t e data = (db', Ret r) →
  ∃ srcs,
    data = title <$> srcs
    ∧ Forall (λ s, s ∈ flags db ∧ pk s ≠ Some (next_pk db)) srcs
    ∧ logs db'
      = logs db
        ++ ((λ s, {| flag := pk s; creator := Some (user request);
                     log_type := CREATE; reason := EmptyString |}) <$> srcs).
Proof.
  intros Hc%reachable_consistent Hcreate.
  destruct (feature_flag_list_create_cases db request t e data Hc)
    as [(db1 & srcs & rows & Heq & _ & _ & -> & _ & Hall & _ & _ & _ & _ & Hlogs)
       |[detail Heq]]; rewrite Heq in Hcreate; [|done].
  injection Hcreate as <- _. exists srcs. split_and!; [done| |done].
  eapply Forall_impl; [exact Hall|]. intros s Hs. split; [done|].
  destruct (pk_bound _ (proj1 Hc) s Hs) as (k & -> & Hlt). intros [= ->]. lia.
Qed.

Lemma creation_audit_log_witness :
  ∃ srcs,
    ["A"; "B"] = title <$> srcs
    ∧ Forall (λ s, s ∈ flags db_AB ∧ pk s ≠ Some (next_pk db_AB)) srcs
    ∧ logs (fst (feature_flag_list_create db_AB someone "C" true ["A"; "B"]))
      = logs db_AB
        ++ ((λ s, {| flag := pk s; creator := Some (user someone);
                     log_type := CREATE; reason := EmptyString |}) <$> srcs).
Proof.
  apply (creation_audit_log db_AB someone "C" true ["A"; "B"] _
           (HTTP_201_CREATED (mkflag 3 "C" true))).
  - by_operations.
  - vm_compute. reflexivity.
Defined.

(** X10.  In every reachable state the audit log holds entries of type
    [CREATE] only, each with an empty reason and a creator, and each for a
    flag that is the source of a stored dependency row; there are at most as
    many entries as rows.  No [TOGGLE], [AUTO_DISABLE] or [DEPENDENCY_ADD]
    entry is ever written: a toggle raises before its entry is created, and
    adding a dependency or creating a flag without dependencies logs
    nothing. *)
Theorem audit_log_entries db :
  reachable db →
  (∀ entry, entry ∈ logs db →
     log_type entry = CREATE ∧ reason entry = EmptyString
     ∧ ∃ u r, creator entry = Some u ∧ r ∈ dependencies db
              ∧ flag entry = Some (source_flag_id r))
  ∧ (length (logs db) ≤ length (dependencies db))%nat.
Proof.
  induction 1 as [|db request op Hreach [IH1 IH2]].
  { split; [|done]. intros entry Hin. by apply elem_of_nil in Hin. }
  pose proof (reachable_consistent _ Hreach) as Hc.
  destruct op as [t e data|k reason_data|d s]; simpl.
  - destruct (feature_flag_list_create_cases db request t e data Hc)
      as [(db' & srcs & rows & -> & _ & _ & _ & _ & _ & Hrows & _ & _ & Hdeps & Hlogs)
         |[detail ->]]; simpl; [|done].
    rewrite Hdeps, Hlogs. split.
    + intros entry [Hin|Hin]%elem_of_app.
      * destruct (IH1 entry Hin) as (Ht & Hr & u & r & Hu & Hin' & Hf).
        split_and!; try done. exists u, r. split_and!; try done.
        apply elem_of_app. by left.
      * apply list_elem_of_fmap in Hin as (s & -> & Hs).
        split_and!; try done.
        apply list_elem_of_lookup in Hs as [i Hi].
        destruct (Forall2_lookup_l _ _ _ _ _ Hrows Hi) as (r & Hr & _ & Hpk).
        exists (user request), r. split_and!; try done.
        apply elem_of_app. right. by eapply list_elem_of_lookup_2.
    + rewrite !length_app, length_fmap, (Forall2_length _ _ _ Hrows). lia.
  - destruct (feature_flag_toggle_fst db request k reason_data (proj1 Hc))
      as [->|(f & _ & _ & ->)]; done.
  - destruct (dependency_list_create_cases db request d s (proj1 Hc))
      as [(dep & src & _ & _ & _ & _ & _ & ->)|[detail ->]]; simpl; [|done].
    split.
    + intros entry Hin.
      destruct (IH1 entry Hin) as (Ht & Hr & u & r & Hu & Hin' & Hf).
      split_and!; try done. exists u, r. split_and!; try done.
      apply elem_of_app. by left.
    + rewrite length_app. simpl. lia.
Qed.

Lemma audit_log_entries_witness :
  (∀ entry, entry ∈ logs db_ABC →
     log_type entry = CREATE ∧ reason entry = EmptyString
     ∧ ∃ u r, creator entry = Some u ∧ r ∈ dependencies db_ABC
              ∧ flag entry = Some (source_flag_id r))
  ∧ (length (logs db_ABC) ≤ length (dependencies db_ABC))%nat.
Proof. apply (audit_log_entries db_ABC). by_operations. Defined.

(** X11.  No operation deletes or renames anything: after any operation on a
    reachable state the keys and titles of the flags, the dependency rows and
    the log entries of before are still there, in the same order, with new
    ones only added at the end; and the row of a flag changes only by a
    toggle of that very flag. *)
Theorem operations_only_add db request op :
  reachable db →
  ((λ f, (pk f, title f)) <$> flags db)
    `prefix_of` ((λ f, (pk f, title f)) <$> flags (run db request op))
  ∧ dependencies db `prefix_of` dependencies (run db request op)
  ∧ logs db `prefix_of` logs (run db request op)
  ∧ ∀ g kg, g ∈ flags db → pk g = Some kg → (∀ r, op ≠ ToggleFlag kg r) →
            g ∈ flags (run db request op).
Proof.
  intros Hc%reachable_consistent.
  destruct op as [t e data|k reason_data|d s]; simpl.
  - destruct (feature_flag_list_create_cases db request t e data Hc)
      as [(db' & srcs & rows & -> & _ & _ & _ & _ & _ & _ & Hfl & _ & Hdeps & Hlogs)
         |[detail ->]]; simpl; [|done].
    rewrite Hfl, Hdeps, Hlogs, fmap_app. split_and!; try by eexists.
    intros g kg Hg _ _. apply elem_of_app. by left.
  - destruct (feature_flag_toggle_fst db request k reason_data (proj1 Hc))
      as [->|(f & Hf & Hk & ->)]; [done|].
    rewrite update_flag_keys by (apply Hc || by apply same_row_flipped).
    split_and!; try done.
    intros g kg Hg Hkg Hop. apply other_in_update; [done|]. simpl.
    rewrite Hkg, Hk. intros [= ->]. by destruct (Hop reason_data).
  - destruct (dependency_list_create_cases db request d s (proj1 Hc))
      as [(dep & src & _ & _ & _ & _ & _ & ->)|[detail ->]]; simpl; [|done].
    split_and!; try done. by eexists.
Qed.

Lemma operations_only_add_witness :
  ((λ f, (pk f, title f)) <$> flags db_ABC)
    `prefix_of` ((λ f, (pk f, title f))
                   <$> flags (run db_ABC someone (ToggleFlag 1 (Some "off"))))
  ∧ dependencies db_ABC
      `prefix_of` dependencies (run db_ABC someone (ToggleFlag 1 (Some "off")))
  ∧ logs db_ABC `prefix_of` logs (run db_ABC someone (ToggleFlag 1 (Some "off")))
  ∧ ∀ g kg, g ∈ flags db_ABC → pk g = Some kg →
            (∀ r, ToggleFlag 1 (Some "off") ≠ ToggleFlag kg r) →
            g ∈ flags (run db_ABC someone (ToggleFlag 1 (Some "off"))).
Proof.
  apply (operations_only_add db_ABC someone (ToggleFlag 1 (Some "off"))).
  by_operations.
Defined.

(** X12.  GET [api/featureflags/<pk>/] on tables that satisfy the integrity
    constraints never raises.  It answers 404 when no stored flag has the
    key; otherwise 200 with the key, title and enabled bit of the stored
    flag, the value of [is_active], and under [existence_dependencies] the
    titles of the source flags of the flag's dependency rows, one item per
    row, in the order of the rows. *)
Theorem feature_flag_retrieve_outcome db request k :
  integrity db →
  ((∀ f, f ∈ flags db → pk f ≠ Some k)
   ∧ feature_flag_retrieve db request k = Ret HTTP_404_NOT_FOUND)
  ∨ ∃ f b srcs,
      f ∈ flags db ∧ pk f = Some k ∧ is_active db f = Ret b
      ∧ Forall2 (λ r s, s ∈ flags db ∧ pk s = Some (source_flag_id r))
          (dependency_rules_as_dependent db f) srcs
      ∧ feature_flag_retrieve db request k
        = Ret (HTTP_200_OK
                 {| data_id := Some k; data_title := title f;
                    data_is_enabled := is_enabled f; data_is_active := b;
                    existence_dependencies :=
                      (λ s, {| item_source_flag := title s |}) <$> srcs |}).
Proof.
  intros Hi. unfold feature_flag_retrieve.
  destruct (get_flag_cases db k) as [(f & -> & Hf & Hk)| Hget].
  - right. unfold FeatureFlagRetrieveSerializer_to_representation.
    destruct (is_active_total db f Hi (stored_title _ _ Hf)) as [b Hb].
    destruct (DependencyListSerializer_data_total db
                (dependency_rules_as_dependent db f) Hi) as (srcs & Hall & Heq).
    { intros r Hr. by apply rules_elem in Hr as [? _]. }
    exists f, b, srcs. rewrite Hb, Heq, Hk. by split_and!.
  - left. rewrite Hget. split; [|done]. intros f Hf Hk.
    destruct (get_flag_stored db k f Hf Hk) as [f' Hf']. congruence.
Qed.

Lemma feature_flag_retrieve_outcome_witness :
  (((∀ f, f ∈ flags db_diamond → pk f ≠ Some 4)
    ∧ feature_flag_retrieve db_diamond someone 4 = Ret HTTP_404_NOT_FOUND)
   ∨ ∃ f b srcs,
       f ∈ flags db_diamond ∧ pk f = Some 4 ∧ is_active db_diamond f = Ret b
       ∧ Forall2 (λ r s, s ∈ flags db_diamond ∧ pk s = Some (source_flag_id r))
           (dependency_rules_as_dependent db_diamond f) srcs
       ∧ feature_flag_retrieve db_diamond someone 4
         = Ret (HTTP_200_OK
                  {| data_id := Some 4; data_title := title f;
                     data_is_enabled := is_enabled f; data_is_active := b;
                     existence_dependencies :=
                       (λ s, {| item_source_flag := title s |}) <$> srcs |}))
  ∧ feature_flag_retrieve db_diamond someone 4
    = Ret (HTTP_200_OK
             {| data_id := Some 4; data_title := "A";
                data_is_enabled := false; data_is_active := false;
                existence_dependencies :=
                  [{| item_source_flag := "B" |}; {| item_source_flag := "C" |}] |})
  ∧ feature_flag_retrieve db_diamond someone 9 = Ret HTTP_404_NOT_FOUND.
Proof.
  split_and!.
  - apply (feature_flag_retrieve_outcome db_diamond someone 4).
    apply reachable_consistent. by_operations.
  - vm_compute. reflexivity.
  - vm_compute. reflexivity.
Defined.

(** X13.  Round trip of creation: after a successful POST [api/featureflags/]
    in a reachable state, GET of the new key answers 200 with the submitted
    title and enabled bit, and [existence_dependencies] lists exactly the
    submitted source titles, in the order submitted. *)
Theorem create_then_retrieve db request request' t e data db' r :
  reachable db →
  feature_flag_list_create db request t e data = (db', Ret r) →
  ∃ b,
    is_active db' {| pk := Some (next_pk db); title := t; is_enabled := e |}
    = Ret b
    ∧ feature_flag_retrieve db' request' (next_pk db)
      = Ret (HTTP_200_OK
               {| data_id := Some (next_pk db); data_title := t;
                  data_is_enabled := e; data_is_active := b;
                  existence_dependencies :=
                    (λ x, {| item_source_flag := x |}) <$> data |}).
Proof.
  intros Hreach Hcreate.
  pose proof (reachable_consistent _ Hreach) as Hc.
  assert (consistent db') as [Hi' _].
  { pose proof (reachable_consistent _
                  (reachable_run db request
                     (CreateFlagWithDependencies t e data) Hreach)) as H.
    simpl in H. by rewrite Hcreate in H. }
  set (new := {| pk := Some (next_pk db); title := t; is_enabled := e |}).
  destruct (feature_flag_list_create_cases db request t e data Hc)
    as [(db1 & srcs & rows & Heq & _ & _ & -> & _ & Hall & Hrows & Hfl & _ & Hdeps & _)
       |[detail Heq]]; rewrite Heq in Hcreate; [|done].
  injection Hcreate as <- _. fold new in Hfl.
  assert (new ∈ flags db1) as Hnew.
  { rewrite Hfl. apply elem_of_app. right. by apply list_elem_of_singleton. }
  assert (dependency_rules_as_dependent db1 new = rows) as Hrules.
  { unfold dependency_rules_as_dependent. rewrite Hdeps, List.filter_app.
    rewrite filter_none, filter_all; [done| |].
    - intros row Hrow. apply bool_decide_eq_true. simpl.
      apply list_elem_of_lookup in Hrow as [i Hrow].
      destruct (Forall2_lookup_r _ _ _ _ _ Hrows Hrow) as (s & _ & -> & _). done.
    - intros row Hrow. apply bool_decide_eq_false. simpl. intros [= Hd].
      destruct (fk_dependent _ (proj1 Hc) row Hrow) as (f & Hf & Hpk).
      destruct (pk_bound _ (proj1 Hc) f Hf) as (k & Hk & Hlt).
      rewrite Hpk in Hk. simplify_eq. lia. }
  destruct (is_active_total db1 new Hi' (stored_title _ _ Hnew)) as [b Hb].
  exists b. split; [done|].
  unfold feature_flag_retrieve.
  rewrite (get_flag_eq db1 (next_pk db) new Hi' Hnew eq_refl).
  unfold FeatureFlagRetrieveSerializer_to_representation.
  rewrite Hb, Hrules, bind_ret.
  assert (DependencyListSerializer_data db1 rows
          = Ret ((λ x, {| item_source_flag := x |}) <$> (title <$> srcs))) as ->;
    [|done].
  clear Hrules Hdeps Heq. induction Hrows as [|s row srcs rows [_ Hpk] _ IH]; [done|].
  apply Forall_cons in Hall as [Hs Hall]. simpl.
  assert (rule_source_flag db1 row = Ret s) as ->.
  { apply (get_flag_eq db1 _ s Hi'); [|done].
    rewrite Hfl. apply elem_of_app. by left. }
  simpl. by rewrite (IH Hall).
Qed.

Lemma create_then_retrieve_witness :
  ∃ b,
    is_active (fst (feature_flag_list_create db_AB someone "C" true ["B"; "A"]))
      {| pk := Some (next_pk db_AB); title := "C"; is_enabled := true |}
    = Ret b
    ∧ feature_flag_retrieve
        (fst (feature_flag_list_create db_AB someone "C" true ["B"; "A"]))
        someone (next_pk db_AB)
      = Ret (HTTP_200_OK
               {| data_id := Some (next_pk db_AB); data_title := "C";
                  data_is_enabled := true; data_is_active := b;
                  existence_dependencies :=
                    (λ x, {| item_source_flag := x |}) <$> ["B"; "A"] |}).
Proof.
  apply (create_then_retrieve db_AB someone someone "C" true ["B"; "A"] _
           (HTTP_201_CREATED (mkflag 3 "C" true))).
  - by_operations.
  - vm_compute. reflexivity.
Defined.

(** X14.  Adding a dependency never looks at the enabled bits, and it can
    only take activation away.  After an accepted POST [api/dependencies/]
    for "d depends on s" in a reachable state: the dependent is active
    exactly when, before, both it and the source were active; a flag that did
    not reach the dependent is active exactly when it was before; and no flag
    is active that was not active before. *)
Theorem add_dependency_activation db request d s dep src :
  reachable db → acceptable_dependency db d s →
  get_flag db d = Ret dep → get_flag db s = Ret src →
  let db' := fst (dependency_list_create db request d s) in
  (is_active db' dep = Ret true
   ↔ is_active db dep = Ret true ∧ is_active db src = Ret true)
  ∧ (∀ g kg, g ∈ flags db → pk g = Some kg → ¬ rtc (depends_on db) kg d →
             is_active db' g = is_active db g)
  ∧ (∀ g, g ∈ flags db → is_active db' g = Ret true → is_active db g = Ret true).
Proof.
  intros Hreach Hacc Hd Hs db'.
  pose proof (reachable_consistent _ Hreach) as Hc.
  assert (consistent db') as Hc'.
  { apply (reachable_consistent _
             (reachable_run db request (AddDependency d s) Hreach)). }
  pose proof (get_flag_Ret _ _ _ Hd) as [Hdin Hdpk].
  pose proof (get_flag_Ret _ _ _ Hs) as [Hsin Hspk].
  assert (db' = insert_dependency
                  {| dependent_flag_id := d; source_flag_id := s |} db) as Hdb'.
  { unfold db'.
    by destruct (dependency_list_create_accepted db request d s (proj1 Hc) Hacc)
      as (? & ? & _ & _ & _ & _ & ->). }
  destruct Hacc as (_ & _ & Hno & _).
  assert (∀ g, g ∈ flags db → g ∈ flags db') as Hflags by (by rewrite Hdb').
  split_and!.
  - destruct Hc as [Hi Hac]. destruct Hc' as [Hi' Hac'].
    destruct (is_active_true_iff db Hi Hac dep d Hdin Hdpk) as (b1 & -> & Hb1).
    destruct (is_active_true_iff db Hi Hac src s Hsin Hspk) as (b2 & -> & Hb2).
    destruct (is_active_true_iff db' Hi' Hac' dep d (Hflags _ Hdin) Hdpk)
      as (b3 & -> & Hb3).
    pose proof (dependencies_enabled_insert_dependent db d s src Hi Hsin Hspk Hno)
      as Hiff.
    rewrite <- Hdb' in Hiff.
    split.
    + intros [= ->]. destruct (proj1 Hb3 eq_refl) as [Hen Hall].
      apply Hiff in Hall as (H1 & H2 & H3).
      split; f_equal; [apply Hb1|apply Hb2]; done.
    + intros [[= ->] [= ->]]. f_equal. apply Hb3.
      destruct (proj1 Hb1 eq_refl) as [Hen1 Hall1].
      destruct (proj1 Hb2 eq_refl) as [Hen2 Hall2].
      split; [done|]. by apply Hiff.
  - intros g kg Hg Hkg Hfar.
    apply (is_active_ext db db' g kg); auto.
    rewrite Hdb'. by apply dependencies_enabled_insert_other.
  - intros g Hg. destruct (pk_bound _ (proj1 Hc) g Hg) as (kg & Hkg & _).
    apply (is_active_antitone db db' g kg); auto.
    rewrite Hdb'. apply dependencies_enabled_insert_antitone.
Qed.

Lemma add_dependency_activation_witness :
  let db' := fst (dependency_list_create db_ABC someone 3 1) in
  (is_active db' (mkflag 3 "C" true) = Ret true
   ↔ is_active db_ABC (mkflag 3 "C" true) = Ret true
     ∧ is_active db_ABC (mkflag 1 "A" true) = Ret true)
  ∧ (∀ g kg, g ∈ flags db_ABC → pk g = Some kg →
             ¬ rtc (depends_on db_ABC) kg 3 →
             is_active db' g = is_active db_ABC g)
  ∧ (∀ g, g ∈ flags db_ABC → is_active db' g = Ret true →
          is_active db_ABC g = Ret true).
Proof.
  apply (add_dependency_activation db_ABC someone 3 1
           (mkflag 3 "C" true) (mkflag 1 "A" true)).
  - by_operations.
  - split_and!.
    + exists (mkflag 3 "C" true). split; [|done]. vm_compute. do 2 right. left.
    + exists (mkflag 1 "A" true). split; [|done]. vm_compute. left.
    + intros [Heq|(y & Hedge & _)]%rtc_inv; [done|].
      vm_compute in Hedge.
      repeat (apply elem_of_cons in Hedge as [Hedge|Hedge]; [by simplify_eq|]).
      by apply elem_of_nil in Hedge.
    + intros Hedge. vm_compute in Hedge.
      repeat (apply elem_of_cons in Hedge as [Hedge|Hedge]; [by simplify_eq|]).
      by apply elem_of_nil in Hedge.
  - reflexivity.
  - reflexivity.
Defined.

(** X15.  After a toggle (with a valid reason) of a stored flag in a
    reachable state, whatever its outcome, the flag stored under that key is
    active exactly when it is enabled: a toggle never leaves its flag enabled
    but inactive.  And a flag that does not reach the toggled one is stored
    and active exactly as before. *)
Theorem toggle_activation db request k r f :
  reachable db → r ≠ EmptyString → get_flag db k = Ret f →
  let db' := fst (feature_flag_toggle db request k (Some r)) in
  (∃ f', get_flag db' k = Ret f' ∧ is_active db' f' = Ret (is_enabled f'))
  ∧ (∀ g kg, g ∈ flags db → pk g = Some kg → ¬ rtc (depends_on db) kg k →
             g ∈ flags db' ∧ is_active db' g = is_active db g).
Proof.
  intros Hreach Hr Hget db'.
  pose proof (reachable_consistent _ Hreach) as Hc.
  assert (consistent db') as Hc'.
  { apply (reachable_consistent _
             (reachable_run db request (ToggleFlag k (Some r)) Hreach)). }
  pose proof (get_flag_Ret _ _ _ Hget) as [Hf Hk].
  destruct (feature_flag_toggle_cases db request k r f (proj1 Hc) Hget Hr)
    as [[Heq Hact]|(Hdis & _ & V & bl & _ & Heq)].
  - assert (db' = update_flag (flipped f) db) as Hdb' by (unfold db'; by rewrite Heq).
    assert (¬ tc (depends_on db) k k) as Hkk by apply Hc.
    split.
    + exists (flipped f). split.
      { rewrite Hdb'. apply get_flag_update; [apply Hc|by apply same_row_flipped|done]. }
      unfold is_active. simpl. destruct (is_enabled f) eqn:Hen; [done|]. simpl.
      apply (can_be_active_true_iff db' (proj1 Hc') (proj2 Hc') (flipped f) k);
        [|done|].
      { apply same_row_stored. rewrite Hdb'.
        apply self_in_update. by apply same_row_flipped. }
      rewrite Hdb'.
      apply (dependencies_enabled_update db f k k (proj1 Hc) Hf Hk Hkk).
      apply (can_be_active_true_iff db (proj1 Hc) (proj2 Hc) (flipped f) k);
        [by apply same_row_flipped|done|by apply Hact].
    + intros g kg Hg Hkg Hfar.
      assert (g ∈ flags db') as Hg'.
      { rewrite Hdb'. apply other_in_update; [done|]. simpl.
        rewrite Hkg, Hk. intros [= ->]. by apply Hfar. }
      split; [done|]. apply (is_active_ext db db' g kg); auto.
      rewrite Hdb'. apply (dependencies_enabled_update db f k kg); try done.
      { apply Hc. }
      intros Htc. by apply Hfar, tc_rtc.
  - assert (db' = db) as -> by (unfold db'; by rewrite Heq).
    split; [|done]. exists f. split; [done|].
    unfold is_active. by rewrite Hdis.
Qed.

Lemma toggle_activation_witness :
  let db' := fst (feature_flag_toggle db_ABC someone 2 (Some "off")) in
  (∃ f', get_flag db' 2 = Ret f' ∧ is_active db' f' = Ret (is_enabled f'))
  ∧ (∀ g kg, g ∈ flags db_ABC → pk g = Some kg →
             ¬ rtc (depends_on db_ABC) kg 2 →
             g ∈ flags db' ∧ is_active db' g = is_active db_ABC g).
Proof.
  apply (toggle_activation db_ABC someone 2 "off" (mkflag 2 "B" true)).
  - by_operations.
  - discriminate.
  - reflexivity.
Defined.

(** X16.  Creating a flag, with or without initial dependencies, changes the
    activation of no flag stored before: each is still stored and active
    exactly when it was. *)
Theorem creation_keeps_activation db request t e data g :
  reachable db → g ∈ flags db →
  let db' := fst (feature_flag_list_create db request t e data) in
  g ∈ flags db' ∧ is_active db' g = is_active db g.
Proof.
  intros Hreach Hg db'.
  pose proof (reachable_consistent _ Hreach) as Hc.
  assert (consistent db') as Hc'.
  { apply (reachable_consistent _
             (reachable_run db request
                (CreateFlagWithDependencies t e data) Hreach)). }
  destruct (feature_flag_list_create_cases db request t e data Hc)
    as [(db1 & srcs & rows & Heq & _ & _ & _ & _ & Hall & Hrows & Hfl & _ & Hdeps & _)
       |[detail Heq]].
  2: { assert (db' = db) as -> by (unfold db'; by rewrite Heq). done. }
  assert (db' = db1) as Hdb' by (unfold db'; by rewrite Heq).
  clearbody db'. subst db1.
  destruct (pk_bound _ (proj1 Hc) g Hg) as (kg & Hkg & Hlt).
  assert (g ∈ flags db') as Hg' by (rewrite Hfl; apply elem_of_app; by left).
  split; [done|].
  assert (∀ a b, tc (depends_on db) a b → b < next_pk db) as Hbound.
  { intros a b Hab. apply tc_rtc_l with (x := a) in Hab; [|done].
    assert (∃ y, depends_on db y b) as [y Hedge].
    { clear -Hab. induction Hab as [x y Hedge|x y z _ _ IH]; eauto. }
    destruct (fk_source _ (proj1 Hc) _ Hedge) as (fb & Hfb & Hpk). simpl in Hpk.
    destruct (pk_bound _ (proj1 Hc) fb Hfb) as (k' & Hk' & Hlt').
    rewrite Hpk in Hk'. by injection Hk' as <-. }
  apply (is_active_ext db db' g kg); auto. split.
  - intros Hen x kx Hx Hkx Hreach'. apply (Hen x kx); [|done|].
    + rewrite Hfl. apply elem_of_app. by left.
    + revert Hreach'. apply (tc_congruence (λ y, y)). intros a b Hab.
      unfold depends_on. rewrite Hdeps. apply elem_of_app. by left.
  - intros Hen x kx Hx Hkx Hreach'.
    assert (tc (depends_on db) kg kx) as Hold.
    { eapply (tc_create db db' rows (next_pk db)); [done| | |lia|done].
      - intros row Hrow. apply list_elem_of_lookup in Hrow as [i Hrow].
        by destruct (Forall2_lookup_r _ _ _ _ _ Hrows Hrow) as (s & _ & -> & _).
      - intros row Hrow Hsrc. rewrite Hdeps in Hrow.
        apply elem_of_app in Hrow as [Hrow|Hrow].
        + pose proof (Hbound _ _ (tc_once _ _ _ (depends_on_row _ _ Hrow))). lia.
        + apply list_elem_of_lookup in Hrow as [i Hrow].
          destruct (Forall2_lookup_r _ _ _ _ _ Hrows Hrow) as (s & Hs & _ & Hpk).
          assert (s ∈ flags db) as Hsin.
          { eapply Forall_forall in Hall; [exact Hall|].
            by eapply list_elem_of_lookup_2. }
          destruct (pk_bound _ (proj1 Hc) s Hsin) as (k' & Hk' & Hlt').
          rewrite Hpk in Hk'. injection Hk' as <-. lia. }
    apply (Hen x kx); [|done..].
    rewrite Hfl in Hx. apply elem_of_app in Hx as [Hx| ->%list_elem_of_singleton];
      [done|].
    simpl in Hkx. injection Hkx as <-. pose proof (Hbound _ _ Hold). lia.
Qed.

Lemma creation_keeps_activation_witness :
  let db' := fst (feature_flag_list_create db_off someone "D" true ["A"]) in
  mkflag 2 "B" false ∈ flags db'
  ∧ is_active db' (mkflag 2 "B" false) = is_active db_off (mkflag 2 "B" false).
Proof.
  apply (creation_keeps_activation db_off someone "D" true ["A"]
           (mkflag 2 "B" false)).
  - by_operations.
  - vm_compute. right. left.
Defined.

(** X17.  The outcomes of POST [api/featureflags/<pk>/toggle/] in a reachable
    state.  Without a stored flag of that key the answer is 404, whatever
    the request body.  With one, a missing or blank reason is a validation
    error; so is, for a valid reason, the attempt to enable a flag that
    reaches a disabled flag: in these cases the tables are unchanged.  In the
    remaining case, a valid reason and a flag that is enabled or reaches
    enabled flags only, the flipped row is written and the
    [AttributeError] of the log type lookup escapes. *)
Theorem feature_flag_toggle_outcome db request k reason_data :
  reachable db →
  ((∀ f, f ∈ flags db → pk f ≠ Some k) →
   feature_flag_toggle db request k reason_data = (db, Ret HTTP_404_NOT_FOUND))
  ∧ (∀ f, get_flag db k = Ret f →
       reason_data = None ∨ reason_data = Some EmptyString →
       ∃ detail, feature_flag_toggle db request k reason_data
                 = (db, Raise (SerializerValidationError detail)))
  ∧ (∀ f r, get_flag db k = Ret f → reason_data = Some r → r ≠ EmptyString →
       is_enabled f = true ∨ dependencies_enabled db k →
       feature_flag_toggle db request k reason_data
       = (update_flag (flipped f) db, Raise (AttributeError "FLAG_TOGGLE")))
  ∧ (∀ f r, get_flag db k = Ret f → reason_data = Some r → r ≠ EmptyString →
       is_enabled f = false → ¬ dependencies_enabled db k →
       ∃ detail, feature_flag_toggle db request k reason_data
                 = (db, Raise (SerializerValidationError detail))).
Proof.
  intros Hc%reachable_consistent. split_and!.
  - intros Hnone. unfold feature_flag_toggle.
    destruct (get_flag_cases db k) as [(f & _ & Hf & Hk)| ->]; [|done].
    by destruct (Hnone f Hf).
  - intros f Hget Hbad. unfold feature_flag_toggle. rewrite Hget.
    destruct Hbad as [-> | ->]; simpl; eauto.
  - intros f r Hget -> Hr. by apply feature_flag_toggle_written.
  - intros f r Hget -> Hr. by apply feature_flag_toggle_rejected.
Qed.

Lemma feature_flag_toggle_outcome_witness :
  feature_flag_toggle db_ABC someone 9 None = (db_ABC, Ret HTTP_404_NOT_FOUND)
  ∧ (∃ detail, feature_flag_toggle db_ABC someone 1 None
               = (db_ABC, Raise (SerializerValidationError detail)))
  ∧ feature_flag_toggle db_ABC someone 1 (Some "off")
    = (update_flag (flipped (mkflag 1 "A" true)) db_ABC,
       Raise (AttributeError "FLAG_TOGGLE"))
  ∧ ∃ detail, feature_flag_toggle db_off someone 2 (Some "on")
              = (db_off, Raise (SerializerValidationError detail)).
Proof.
  assert (reachable db_ABC) as Hreach by by_operations.
  assert (reachable db_off) as Hreach' by by_operations.
  split_and!.
  - apply (feature_flag_toggle_outcome db_ABC someone 9 None Hreach).
    intros f Hf. vm_compute in Hf.
    repeat (apply elem_of_cons in Hf as [->|Hf]; [done|]).
    by apply elem_of_nil in Hf.
  - destruct (feature_flag_toggle_outcome db_ABC someone 1 None Hreach)
      as (_ & H & _).
    apply (H (mkflag 1 "A" true) eq_refl). by left.
  - destruct (feature_flag_toggle_outcome db_ABC someone 1 (Some "off") Hreach)
      as (_ & _ & H & _).
    apply (H (mkflag 1 "A" true) "off" eq_refl eq_refl); [discriminate|]. by left.
  - destruct (feature_flag_toggle_outcome db_off someone 2 (Some "on") Hreach')
      as (_ & _ & _ & H).
    apply (H (mkflag 2 "B" false) "on" eq_refl eq_refl); [discriminate|done|].
    intros Hall.
    assert (is_enabled (mkflag 1 "A" false) = true) as Hen; [|done].
    apply (Hall (mkflag 1 "A" false) 1); [vm_compute; left|reflexivity|].
    apply tc_once. vm_compute. left.
Defined.

(** X18.  Toggling a stored flag twice (with valid reasons) in a reachable
    state restores the tables, that is the keys, titles and enabled bits of
    the flags, the dependency rows and the log, provided the flag was not
    enabled while inactive.  (The timestamp columns, which every save
    refreshes, are not part of the tables here.)  A flag that was enabled but
    inactive is left disabled: it can be switched off, and the attempt to
    switch it on again is refused. *)
Theorem toggle_twice db request request' k r r' f :
  reachable db → r ≠ EmptyString → r' ≠ EmptyString →
  get_flag db k = Ret f →
  let db'' := run (run db request (ToggleFlag k (Some r)))
                request' (ToggleFlag k (Some r')) in
  (is_active db f = Ret (is_enabled f) → db'' = db)
  ∧ (is_active db f ≠ Ret (is_enabled f) →
     db'' = update_flag (flipped f) db ∧ get_flag db'' k = Ret (flipped f)
     ∧ is_enabled (flipped f) = false).
Proof.
  intros Hreach Hr Hr' Hget db''.
  pose proof (reachable_consistent _ Hreach) as Hc.
  pose proof Hc as [Hi Hac].
  pose proof (get_flag_Ret _ _ _ Hget) as [Hf Hk].
  assert (¬ tc (depends_on db) k k) as Hkk by apply Hac.
  destruct (is_active_true_iff db Hi Hac f k Hf Hk) as (b & Hb & Hiff).
  set (db1 := update_flag (flipped f) db).
  assert (consistent db1) as Hc1.
  { apply consistent_update_flag; [done|]. by apply same_row_flipped. }
  assert (get_flag db1 k = Ret (flipped f)) as Hget1.
  { apply get_flag_update; [done|by apply same_row_flipped|done]. }
  pose proof (dependencies_enabled_update db f k k Hi Hf Hk Hkk) as Hsame.
  fold db1 in Hsame.
  unfold db''. simpl.
  destruct (is_enabled f) eqn:Hen.
  - (* enabled: the first toggle switches it off *)
    rewrite (feature_flag_toggle_written db request k r f Hc Hget Hr)
      by (by left). simpl. fold db1.
    destruct b.
    + split; [|by rewrite Hb]. intros _.
      rewrite (feature_flag_toggle_written db1 request' k r' (flipped f)
                 Hc1 Hget1 Hr').
      * simpl. by apply update_flag_flipped_twice.
      * right. apply Hsame. by apply Hiff.
    + split; [by rewrite Hb|]. intros _.
      destruct (feature_flag_toggle_rejected db1 request' k r' (flipped f)
                  Hc1 Hget1 Hr') as [detail ->].
      * simpl. by rewrite Hen.
      * intros Hall. apply Hsame in Hall.
        assert (false = true) by (apply Hiff; done). done.
      * simpl. by split_and!.
  - (* disabled *)
    assert (b = false) as ->.
    { destruct b; [|done]. by destruct (proj1 Hiff eq_refl). }
    split; [|by rewrite Hb]. intros _.
    destruct (feature_flag_toggle_cases db request k r f Hi Hget Hr)
      as [[Heq _]|(_ & Hcan & V & bl & _ & Heq)]; rewrite Heq; simpl.
    + fold db1.
      rewrite (feature_flag_toggle_written db1 request' k r' (flipped f)
                 Hc1 Hget1 Hr').
      * simpl. by apply update_flag_flipped_twice.
      * left. simpl. by rewrite Hen.
    + destruct (feature_flag_toggle_cases db request' k r' f Hi Hget Hr')
        as [[_ Hact]|(_ & _ & V' & bl' & _ & ->)]; [|done].
      rewrite Hact in Hcan; done.
Qed.

Lemma toggle_twice_witness :
  run (run db_ABC someone (ToggleFlag 2 (Some "off")))
    someone (ToggleFlag 2 (Some "on")) = db_ABC.
Proof.
  apply (toggle_twice db_ABC someone someone 2 "off" "on" (mkflag 2 "B" true)).
  - by_operations.
  - discriminate.
  - discriminate.
  - reflexivity.
  - reflexivity.
Defined.

(** X19.  The list of blocking flags is not deduplicated, but it is bounded:
    on tables that satisfy the integrity constraints a flag is listed at most
    once for each stored dependency row whose source it is, and the list is
    no longer than the table of rows. *)
Theorem blocking_list_bounded db self V' bl x :
  integrity db →
  _find_blocking_dependencies db (recursion_budget db) self (∅, [])
  = Ret (V', bl) →
  (length (List.filter (λ y, bool_decide (y = x)) bl)
   ≤ length (List.filter
               (λ r, bool_decide (Some (source_flag_id r) = pk x))
               (dependencies db)))%nat
  ∧ (length bl ≤ length (dependencies db))%nat.
Proof.
  intros Hi Hfind.
  apply _find_blocking_dependencies_rows in Hfind
    as (R & entries & -> & Hnd & Hall & Hin); [|done].
  simpl. split.
  - etrans; [|apply (filter_length_NoDup _ R); [done|intros r Hr; by apply Hin]].
    apply filter_length_Forall2.
    eapply Forall2_impl; [exact Hall|]. intros r y Hsrc Hy. simpl in *.
    apply bool_decide_eq_true in Hy as ->. apply bool_decide_eq_true.
    by apply rule_source_flag_Ret in Hsrc as [_ ->].
  - rewrite <- (Forall2_length _ _ _ Hall).
    apply submseteq_length, NoDup_submseteq; [done|].
    intros r Hr. by apply Hin.
Qed.

Lemma blocking_list_bounded_witness :
  (length (List.filter (λ y, bool_decide (y = mkflag 1 "D" false))
             [mkflag 1 "D" false; mkflag 1 "D" false])
   ≤ length (List.filter
               (λ r, bool_decide (Some (source_flag_id r)
                                  = pk (mkflag 1 "D" false)))
               (dependencies db_diamond)))%nat
  ∧ (length [mkflag 1 "D" false; mkflag 1 "D" false]
     ≤ length (dependencies db_diamond))%nat.
Proof.
  eapply (blocking_list_bounded db_diamond (mkflag 4 "A" true)).
  - apply reachable_consistent. by_operations.
  - vm_compute. reflexivity.
Defined.

(** X20.  GET [api/featureflags/] on tables that satisfy the integrity
    constraints never raises: it answers 200 with one item per stored flag,
    each flag exactly once, carrying its key, title and enabled bit and the
    value of [is_active]; the items are in the order of their titles when the
    database's comparison of titles is total. *)
Theorem feature_flag_list_outcome collation db request :
  integrity db →
  ∃ queryset actives,
    queryset ≡ₚ flags db
    ∧ Forall2 (λ f b, is_active db f = Ret b) queryset actives
    ∧ feature_flag_list collation db request
      = Ret (HTTP_200_OK
               (zip_with (λ f b, {| item_id := pk f; item_title := title f;
                                    item_is_enabled := is_enabled f;
                                    item_is_active := b |}) queryset actives))
    ∧ ((∀ a b, collation a b = false → collation b a = true) →
       Sorted (λ x y, collation (title x) (title y) = true) queryset).
Proof.
  intros Hi. unfold feature_flag_list.
  pose proof (order_by_title_Permutation collation (flags db)) as Hperm.
  destruct (FeatureFlagListSerializer_data_total db
              (order_by_title collation (flags db)) Hi) as (bs & Hall & ->).
  { intros f Hf. by rewrite <- Hperm. }
  exists (order_by_title collation (flags db)), bs. split_and!; try done.
  apply order_by_title_Sorted.
Qed.

Lemma feature_flag_list_outcome_witness :
  (∃ queryset actives,
     queryset ≡ₚ flags db_diamond
     ∧ Forall2 (λ f b, is_active db_diamond f = Ret b) queryset actives
     ∧ feature_flag_list String.leb db_diamond someone
       = Ret (HTTP_200_OK
                (zip_with (λ f b, {| item_id := pk f; item_title := title f;
                                     item_is_enabled := is_enabled f;
                                     item_is_active := b |}) queryset actives))
     ∧ ((∀ a b, String.leb a b = false → String.leb b a = true) →
        Sorted (λ x y, String.leb (title x) (title y) = true) queryset))
  ∧ feature_flag_list String.leb db_diamond someone
    = Ret (HTTP_200_OK
             [{| item_id := Some 4; item_title := "A"; item_is_enabled := false;
                 item_is_active := false |};
              {| item_id := Some 2; item_title := "B"; item_is_enabled := true;
                 item_is_active := false |};
              {| item_id := Some 3; item_title := "C"; item_is_enabled := true;
                 item_is_active := false |};
              {| item_id := Some 1; item_title := "D"; item_is_enabled := false;
                 item_is_active := false |}]).
Proof.
  split.
  - apply (feature_flag_list_outcome String.leb db_diamond someone).
    apply reachable_consistent. by_operations.
  - vm_compute. reflexivity.
Defined.

(** X21.  Every state reachable through the views satisfies the integrity
    constraints of the tables: every flag has a key below the counter, keys
    and titles are unique, every title is non-blank and at most 200
    characters long, every dependency row links two stored flags, and no row
    occurs twice. *)
Theorem reachable_integrity db :
  reachable db →
  (∀ f, f ∈ flags db → ∃ k, pk f = Some k ∧ k < next_pk db)
  ∧ NoDup (pk <$> flags db)
  ∧ NoDup (title <$> flags db)
  ∧ (∀ f, f ∈ flags db → valid_title (title f))
  ∧ (∀ r, r ∈ dependencies db →
          (∃ f, f ∈ flags db ∧ pk f = Some (dependent_flag_id r))
          ∧ (∃ f, f ∈ flags db ∧ pk f = Some (source_flag_id r)))
  ∧ NoDup (dependencies db).
Proof.
  intros [Hi _]%reachable_consistent. destruct Hi. split_and!; try done.
  intros r Hr. split; eauto.
Qed.

Lemma reachable_integrity_witness :
  (∀ f, f ∈ flags db_diamond → ∃ k, pk f = Some k ∧ k < next_pk db_diamond)
  ∧ NoDup (pk <$> flags db_diamond)
  ∧ NoDup (title <$> flags db_diamond)
  ∧ (∀ f, f ∈ flags db_diamond → valid_title (title f))
  ∧ (∀ r, r ∈ dependencies db_diamond →
          (∃ f, f ∈ flags db_diamond ∧ pk f = Some (dependent_flag_id r))
          ∧ (∃ f, f ∈ flags db_diamond ∧ pk f = Some (source_flag_id r)))
  ∧ NoDup (dependencies db_diamond).
Proof. apply (reachable_integrity db_diamond). by_operations. Defined.

(** X22.  The recursive methods of [FeatureFlag] return on any tables that
    satisfy the integrity constraints, cyclic rows included: for an object
    that stands for a stored row, [can_be_active], [is_active] and
    [_find_blocking_dependencies] return, and [clean] either returns or
    raises the validation error with its one message. *)
Theorem FeatureFlag_methods_terminate db self :
  integrity db → same_row db self →
  (∃ b, can_be_active db self = Ret b)
  ∧ (∃ b, is_active db self = Ret b)
  ∧ (∃ st, _find_blocking_dependencies db (recursion_budget db) self (∅, [])
           = Ret st)
  ∧ (FeatureFlag_clean db self = Ret ()
     ∨ ∃ bl, FeatureFlag_clean db self
             = Raise (ValidationError [unmet_dependencies self bl])).
Proof.
  intros Hi Hrow. pose proof (same_row_title _ _ Hrow) as Ht.
  split_and!.
  - by apply can_be_active_total.
  - by apply is_active_total.
  - apply _find_blocking_dependencies_total; [done|by apply same_row_pk|].
    apply budget_pks.
  - destruct Hrow as (f & Hf & Hpk & Hft).
    destruct (pk_bound _ Hi f Hf) as (k & Hk & _). rewrite Hpk in Hk.
    destruct (FeatureFlag_clean_cases db self k Hi) as [[-> _]|(_ & _ & V & bl & _ & ->)];
      [by exists f|done|by left|right; by exists bl].
Qed.

Lemma FeatureFlag_methods_terminate_witness :
  (∃ b, can_be_active db_cyclic (mkflag 2 "B" true) = Ret b)
  ∧ (∃ b, is_active db_cyclic (mkflag 2 "B" true) = Ret b)
  ∧ (∃ st, _find_blocking_dependencies db_cyclic (recursion_budget db_cyclic)
             (mkflag 2 "B" true) (∅, []) = Ret st)
  ∧ (FeatureFlag_clean db_cyclic (mkflag 2 "B" true) = Ret ()
     ∨ ∃ bl, FeatureFlag_clean db_cyclic (mkflag 2 "B" true)
             = Raise (ValidationError
                        [unmet_dependencies (mkflag 2 "B" true) bl])).
Proof.
  apply (FeatureFlag_methods_terminate db_cyclic (mkflag 2 "B" true)).
  - apply integrity_db_cyclic.
  - apply same_row_stored. vm_compute. right. left.
Defined.

(** X23.  The flag made by a successful creation is active exactly when it
    was created enabled and every flag named as a source was active before:
    creation accepts inactive sources, and the new flag is then stored
    enabled but inactive. *)
Theorem creation_activation db request t e data db' r :
  reachable db →
  feature_flag_list_create db request t e data = (db', Ret r) →
  is_active db' {| pk := Some (next_pk db); title := t; is_enabled := e |}
  = Ret true
  ↔ e = true
    ∧ ∀ s, s ∈ flags db → title s ∈ data → is_active db s = Ret true.
Proof.
  intros Hreach Hcreate.
  pose proof (reachable_consistent _ Hreach) as Hc. pose proof Hc as [Hi Hac].
  assert (consistent db') as Hc'.
  { pose proof (reachable_consistent _
                  (reachable_run db request
                     (CreateFlagWithDependencies t e data) Hreach)) as H.
    simpl in H. by rewrite Hcreate in H. }
  pose proof Hc' as [Hi' Hac'].
  set (n := next_pk db).
  set (new := {| pk := Some n; title := t; is_enabled := e |}).
  destruct (feature_flag_list_create_cases db request t e data Hc)
    as [(db1 & srcs & rows & Heq & _ & _ & -> & _ & Hall & Hrows & Hfl & _ & Hdeps & _)
       |[detail Heq]]; rewrite Heq in Hcreate; [|done].
  injection Hcreate as <- _. fold n new in Hfl, Hrows.
  destruct (created_rows db db1 srcs rows Hi Hall Hrows Hdeps)
    as (Hinto & Hfrom & Hout). fold n in Hinto, Hfrom, Hout.
  assert (new ∈ flags db1) as Hnew.
  { rewrite Hfl. apply elem_of_app. right. by apply list_elem_of_singleton. }
  assert (∀ s, s ∈ flags db → s ∈ flags db1) as Hold.
  { intros s Hs. rewrite Hfl. apply elem_of_app. by left. }
  assert (∀ a b, tc (depends_on db) a b → tc (depends_on db1) a b) as Hmono.
  { intros a b. apply (tc_congruence (λ y, y)). intros x y Hxy.
    unfold depends_on. rewrite Hdeps. apply elem_of_app. by left. }
  assert (∀ s, s ∈ srcs → s ∈ flags db ∧ ∃ ks, pk s = Some ks ∧ ks ≠ n)
    as Hsrcs.
  { intros s Hs. assert (s ∈ flags db) as Hin by (by eapply Forall_forall in Hall).
    split; [done|]. destruct (pk_bound _ Hi s Hin) as (ks & Hks & ?).
    exists ks. split; [done|]. unfold n. lia. }
  assert (∀ s, s ∈ flags db → title s ∈ title <$> srcs ↔ s ∈ srcs) as Htitles.
  { intros s Hs. split.
    - intros (s' & Ht & Hs')%list_elem_of_fmap.
      assert (s = s') as ->; [|done].
      destruct (Hsrcs s' Hs') as [Hin' _]. by apply (title_inj db).
    - intros Hin. apply list_elem_of_fmap. eauto. }
  (* what the new flag reaches *)
  assert (dependencies_enabled db1 n
          ↔ ∀ s ks, s ∈ srcs → pk s = Some ks →
                    is_enabled s = true ∧ dependencies_enabled db ks) as Hreachable.
  { split.
    - intros Hen s ks Hs Hks. destruct (Hsrcs s Hs) as (Hin & _).
      assert (depends_on db1 n ks) as Hedge by (apply Hout; eauto).
      split.
      + apply (Hen s ks); [by apply Hold|done|by apply tc_once].
      + intros x kx Hx Hkx Hxreach. apply (Hen x kx); [by apply Hold|done|].
        eapply tc_l; [exact Hedge|]. by apply Hmono.
    - intros Hen x kx Hx Hkx Hxreach.
      assert (∃ s ks, s ∈ srcs ∧ pk s = Some ks
                      ∧ (kx = ks ∨ tc (depends_on db) ks kx))
        as (s & ks & Hs & Hks & Hcase).
      { inversion Hxreach as [?? Hedge|? y ? Hedge Hrest]; subst.
        - apply Hout in Hedge as (s & Hs & Hpk). exists s, kx. eauto.
        - apply Hout in Hedge as (s & Hs & Hpk). exists s, y.
          split_and!; [done..|]. right.
          apply (tc_create db db1 rows n); try done.
          destruct (Hsrcs s Hs) as (_ & ks & Hks & Hne). congruence. }
      destruct (Hen s ks Hs Hks) as [Hs_en Hs_all].
      destruct (Hsrcs s Hs) as (Hin & _).
      destruct Hcase as [->|Hcase].
      + assert (x = s) as -> by (eapply (pk_inj db1); eauto; congruence). done.
      + apply (Hs_all x kx); [|done..].
        rewrite Hfl in Hx. apply elem_of_app in Hx as [?| ->%list_elem_of_singleton];
          [done|].
        simpl in Hkx. injection Hkx as <-. exfalso.
        apply tc_rtc_l with (x := ks) in Hcase; [|done].
        assert (∃ y, depends_on db y n) as [y Hedge].
        { clear -Hcase. induction Hcase as [x y Hedge|x y z _ _ IH]; eauto. }
        apply (Hinto {| dependent_flag_id := y; source_flag_id := n |}); [|done].
        unfold depends_on in Hedge. rewrite Hdeps. apply elem_of_app. by left. }
  destruct (is_active_true_iff db1 Hi' Hac' new n Hnew eq_refl) as (b & -> & Hb).
  split.
  - intros [= ->]. destruct (proj1 Hb eq_refl) as [He Hen]. split; [done|].
    intros s Hs Ht. apply Htitles in Ht; [|done].
    destruct (Hsrcs s Ht) as (_ & ks & Hks & _).
    destruct (proj1 Hreachable Hen s ks Ht Hks) as [Hs_en Hs_all].
    destruct (is_active_true_iff db Hi Hac s ks Hs Hks) as (bs & -> & Hbs).
    f_equal. by apply Hbs.
  - intros [He Hact]. f_equal. apply Hb. split; [done|].
    apply Hreachable. intros s ks Hs Hks.
    destruct (Hsrcs s Hs) as (Hin & _).
    specialize (Hact s Hin (proj2 (Htitles s Hin) Hs)).
    destruct (is_active_true_iff db Hi Hac s ks Hin Hks) as (bs & Heq' & Hbs).
    rewrite Heq' in Hact. injection Hact as ->. by apply Hbs.
Qed.

Lemma creation_activation_witness :
  (is_active (fst (feature_flag_list_create db_off someone "D" true ["A"]))
     {| pk := Some (next_pk db_off); title := "D"; is_enabled := true |}
   = Ret true
   ↔ true = true
     ∧ ∀ s, s ∈ flags db_off → title s ∈ ["A"] → is_active db_off s = Ret true)
  ∧ is_active (fst (feature_flag_list_create db_off someone "D" true ["A"]))
      (mkflag 3 "D" true) = Ret false.
Proof.
  split.
  - apply (creation_activation db_off someone "D" true ["A"] _
             (HTTP_201_CREATED (mkflag 3 "D" true))).
    + by_operations.
    + vm_compute. reflexivity.
  - vm_compute. reflexivity.
Defined.

